(** * nds-interp: the Nintendo DS slope interpolator and its capture harness

    A shallow embedding of [slope.h] (class [Slope]) and of the parts of
    [main.cpp] that load a capture file ([readFile]) and drive the
    interpolator over it ([testSlope], [testSlopes]).

    Machine integers are mathematical integers ([Z]) with the wrap-around
    of the 32-bit operations written out: [to_u32] is the conversion to
    [uint32_t], [to_i32] the conversion to [int32_t]. *)

From Stdlib Require Import ZArith Lia Bool List.
From Stdlib Require Import Strings.Byte.
From stdpp Require Import base option list gmap.

Local Open Scope Z_scope.

(** ** 32-bit arithmetic *)

Module Int32.

Definition modulus : Z := 2 ^ 32.
Definition min_signed : Z := - 2 ^ 31.
Definition max_signed : Z := 2 ^ 31 - 1.

(** Conversion to [uint32_t]: reduction modulo 2^32. *)
Definition to_u32 (z : Z) : Z := z mod modulus.

(** Conversion to [int32_t]: the two's-complement representative. *)
Definition to_i32 (z : Z) : Z := (z + 2 ^ 31) mod modulus - 2 ^ 31.

Definition in_i32 (z : Z) : Prop := min_signed <= z <= max_signed.
Definition in_i32b (z : Z) : bool := (min_signed <=? z) && (z <=? max_signed).

(** Signed operations, wrapping. *)
Definition add32 (a b : Z) : Z := to_i32 (a + b).
Definition sub32 (a b : Z) : Z := to_i32 (a - b).
Definition mul32 (a b : Z) : Z := to_i32 (a * b).
Definition shl32 (a n : Z) : Z := to_i32 (Z.shiftl a n).
(** [>>] on a signed operand is the arithmetic shift. *)
Definition sar32 (a n : Z) : Z := Z.shiftr a n.

(** Unsigned operations, on values already converted to [uint32_t]. *)
Definition uadd (a b : Z) : Z := (a + b) mod modulus.
Definition usub (a b : Z) : Z := (a - b) mod modulus.
Definition umul (a b : Z) : Z := (a * b) mod modulus.
Definition udiv (a b : Z) : Z := a / b.
Definition uand (a b : Z) : Z := Z.land a b.
Definition unot (a : Z) : Z := modulus - 1 - a.
Definition ushl (a n : Z) : Z := (Z.shiftl a n) mod modulus.
Definition ushr (a n : Z) : Z := Z.shiftr a n.

End Int32.

Import Int32.

(** ** The interpolator ([slope.h]) *)

Module Slope.

(** [static constexpr u32] constants of the class. *)
Definition kFracBits : Z := 18.
Definition kOne : Z := ushl 1 kFracBits.
Definition kBias : Z := ushr kOne 1.
Definition kMask : Z := ushl (unot 0) (kFracBits / 2).

(** The private members. *)
Record t : Type := mk {
  m_x0 : Z;
  m_y0 : Z;
  m_dx : Z;
  m_negative : bool;
  m_xMajor : bool
}.

(** [Slope::Setup].  Mixed [i32]/[u32] expressions are evaluated in
    [uint32_t] and converted back on assignment, as the usual arithmetic
    conversions prescribe. *)
Definition Setup (x0 y0 x1 y1 : Z) : t :=
  (* Always interpolate top to bottom *)
  let '(x0, y0, x1, y1) :=
    if y1 <? y0 then (x1, y1, x0, y0) else (x0, y0, x1, y1) in
  (* Store reference coordinates *)
  let mx0 := shl32 x0 kFracBits in
  let my0 := y0 in
  (* Determine if this is a negative slope and adjust accordingly *)
  let negative := x1 <? x0 in
  let mx0 := if negative then sub32 mx0 1 else mx0 in
  let '(x0, x1) := if negative then (x1, x0) else (x0, x1) in
  (* Compute coordinate deltas and determine if the slope is X-major *)
  let dx := sub32 x1 x0 in
  let dy := sub32 y1 y0 in
  let xMajor := dy <? dx in
  (* Precompute bias for X-major or diagonal slopes *)
  let mx0 :=
    if xMajor || (dx =? dy) then
      if negative then to_i32 (usub (to_u32 mx0) kBias)
      else to_i32 (uadd (to_u32 mx0) kBias)
    else mx0 in
  (* Compute X displacement per scanline *)
  let mdx := dx in
  let mdx :=
    if negb (dy =? 0) then to_i32 (umul (to_u32 mdx) (udiv kOne (to_u32 dy)))
    else to_i32 (umul (to_u32 mdx) kOne) in
  mk mx0 my0 mdx negative xMajor.

(** [Slope::FracXStart] *)
Definition FracXStart (s : t) (y : Z) : Z :=
  let displacement := mul32 (sub32 y (m_y0 s)) (m_dx s) in
  if m_negative s then sub32 (m_x0 s) displacement
  else add32 (m_x0 s) displacement.

(** [Slope::FracXEnd] *)
Definition FracXEnd (s : t) (y : Z) : Z :=
  let result := FracXStart s y in
  if m_xMajor s then
    if m_negative s then
      to_i32
        (uadd
           (usub
              (uadd (to_u32 result)
                    (usub (unot kMask) (uand (to_u32 result) (unot kMask))))
              (to_u32 (m_dx s)))
           kOne)
    else
      to_i32 (usub (uadd (uand (to_u32 result) kMask) (to_u32 (m_dx s))) kOne)
  else result.

(** [Slope::XStart], [Slope::XEnd] *)
Definition XStart (s : t) (y : Z) : Z := sar32 (FracXStart s y) kFracBits.
Definition XEnd (s : t) (y : Z) : Z := sar32 (FracXEnd s y) kFracBits.

(** [Slope::DX], [Slope::IsXMajor], [Slope::IsNegative] *)
Definition DX (s : t) : Z := m_dx s.
Definition IsXMajor (s : t) : bool := m_xMajor s.
Definition IsNegative (s : t) : bool := m_negative s.

(** *** Arithmetic faults

    A second reading of [Setup] that tracks what C++ leaves undefined:
    an operation on [int32_t] operands whose result is not representable
    (the left shift also when its operand is negative), and a division by
    zero.  Operations evaluated in [uint32_t] wrap and cannot fault. *)
Definition checked (z : Z) : option Z := if in_i32b z then Some z else None.
Definition checked_shl (a n : Z) : option Z :=
  if 0 <=? a then checked (Z.shiftl a n) else None.
Definition checked_udiv (a b : Z) : option Z :=
  if b =? 0 then None else Some (udiv a b).

Definition Setup_checked (x0 y0 x1 y1 : Z) : option t :=
  let '(x0, y0, x1, y1) :=
    if y1 <? y0 then (x1, y1, x0, y0) else (x0, y0, x1, y1) in
  mx0 ← checked_shl x0 kFracBits;
  let my0 := y0 in
  let negative := x1 <? x0 in
  mx0 ← (if negative then checked (mx0 - 1) else Some mx0);
  let '(x0, x1) := if negative then (x1, x0) else (x0, x1) in
  dx ← checked (x1 - x0);
  dy ← checked (y1 - y0);
  let xMajor := dy <? dx in
  let mx0 :=
    if xMajor || (dx =? dy) then
      if negative then to_i32 (usub (to_u32 mx0) kBias)
      else to_i32 (uadd (to_u32 mx0) kBias)
    else mx0 in
  mdx ← (if negb (dy =? 0)
         then q ← checked_udiv kOne (to_u32 dy);
              Some (to_i32 (umul (to_u32 dx) q))
         else Some (to_i32 (umul (to_u32 dx) kOne)));
  Some (mk mx0 my0 mdx negative xMajor).

End Slope.

Import Slope.

(** The documented input domain: the screen grid with its inclusive upper
    bounds, W = 256 and H = 192. *)
Definition in_screen (x y : Z) : Prop := 0 <= x <= 256 /\ 0 <= y <= 192.

(** The spec's mask, [~((1 << 9) - 1)], as a two's-complement integer. *)
Definition MASK : Z := Z.lnot (Z.shiftl 1 9 - 1).


(** Rounded-up quotient of two positive integers. *)
Definition ceil_div (a b : Z) : Z := (a + b - 1) / b.

(** Orientation symmetry of two endpoints: [Setup] in either order gives the
    same increment, classification and span positions on every scanline
    between the endpoints. *)
Definition orientation_symmetric (x0 y0 x1 y1 : Z) : Prop :=
  let a := Setup x0 y0 x1 y1 in
  let b := Setup x1 y1 x0 y0 in
  DX a = DX b /\ IsXMajor a = IsXMajor b /\ IsNegative a = IsNegative b /\
  forall y, Z.min y0 y1 <= y <= Z.max y0 y1 ->
            FracXStart a y = FracXStart b y /\ FracXEnd a y = FracXEnd b y.

(** The increment of [Setup] over unbounded integers: the reciprocal of the
    scanline count first, then the product with the column count. *)
Definition increment (dx dy : Z) : Z :=
  dx * (if dy =? 0 then kOne else kOne / dy).

(** ** The capture file ([main.cpp], [readFile]) *)

Module Capture.

Definition byte_val (b : byte) : Z := Z.of_N (Byte.to_N b).

(** [struct Span].  The [exists] byte is read as a boolean: zero is false,
    anything else is true. *)
Record Span : Type := mkSpan {
  exists_ : bool;
  start : Z;
  end_ : Z
}.

Definition zero_span : Span := mkSpan false 0 0.

(** [struct Data].  The table [lines[sweepY][sweepX].spans[scanY]] is a
    finite map keyed by the three indices; an absent key is an entry still
    zero-initialised by [make_unique]. *)
Record Data : Type := mkData {
  type : Z;
  minX : Z;
  maxX : Z;
  minY : Z;
  maxY : Z;
  lines : gmap (Z * Z * Z) Span
}.

(** The bounds of [std::array<std::array<Line, 256 + 1>, 192 + 1>] and of
    [std::array<Span, 192>]. *)
Definition in_table (sweepY sweepX scanY : Z) : bool :=
  (0 <=? sweepY) && (sweepY <=? 192) && (0 <=? sweepX) && (sweepX <=? 256)
  && (0 <=? scanY) && (scanY <=? 191).

Definition span_at (tbl : gmap (Z * Z * Z) Span) (sweepY sweepX scanY : Z) : Span :=
  default zero_span (tbl !! (sweepY, sweepX, scanY)).

(** The input stream over the loaded buffer: the bytes not yet extracted and
    the fail bit. *)
Record istream : Type := mkStream {
  pending : list byte;
  failbit : bool
}.

(** [istream::read]: extracts [n] bytes; at the end of the buffer it
    extracts what is left and sets the fail bit; once the fail bit is set it
    extracts nothing.  The result lists the bytes stored at the front of the
    destination. *)
Definition read (n : nat) (s : istream) : list byte * istream :=
  if failbit s then ([], s)
  else if (n <=? length (pending s))%nat
       then (take n (pending s), mkStream (drop n (pending s)) false)
       else (pending s, mkStream [] true).

(** The value of a [u8] or little-endian [u16] destination that held [old]
    once the extracted bytes are stored in it. *)
Definition load_u8 (got : list byte) (old : Z) : Z :=
  match got with
  | b :: _ => byte_val b
  | [] => old
  end.

Definition load_u16 (got : list byte) (old : Z) : Z :=
  match got with
  | lo :: hi :: _ => byte_val lo + 256 * byte_val hi
  | [lo] => byte_val lo + 256 * (old / 256)
  | [] => old
  end.

Definition load_bool (got : list byte) (old : bool) : bool :=
  match got with
  | b :: _ => negb (byte_val b =? 0)
  | [] => old
  end.

(** What [readFile] prints about the file, and what a loop body does next:
    go on, [return nullptr] after a message, or index the table out of its
    bounds, where the behaviour of the program is undefined. *)
Inductive message : Type :=
| NotAFile
| InvalidType (ty : Z)
| InvalidFile
| OK.

Inductive flow (S : Type) : Type :=
| Next (s : S)
| Return (m : message)
| OutOfBounds.
Arguments Next {S} s.
Arguments Return {S} m.
Arguments OutOfBounds {S}.

Fixpoint for_each {A S : Type} (body : A -> S -> flow S) (l : list A) (s : S)
  : flow S :=
  match l with
  | [] => Next s
  | a :: l' =>
      match body a s with
      | Next s' => for_each body l' s'
      | Return m => Return m
      | OutOfBounds => OutOfBounds
      end
  end.

(** [for (int i = lo; i <= hi; i++)] *)
Definition for_range {S : Type} (lo hi : Z) (body : Z -> S -> flow S) (s : S)
  : flow S :=
  for_each body (seqZ lo (hi - lo + 1)) s.

(** The three reads into [lines[sweepY][sweepX].spans[scanY]]. *)
Definition read_span (sweepY sweepX scanY : Z)
           (st : istream * gmap (Z * Z * Z) Span)
  : flow (istream * gmap (Z * Z * Z) Span) :=
  let '(s, tbl) := st in
  if in_table sweepY sweepX scanY then
    let span := span_at tbl sweepY sweepX scanY in
    let '(e, s) := read 1 s in
    let '(a, s) := read 1 s in
    let '(b, s) := read 1 s in
    let span :=
      mkSpan (load_bool e (exists_ span)) (load_u8 a (start span))
             (load_u8 b (end_ span)) in
    Next (s, <[(sweepY, sweepX, scanY) := span]> tbl)
  else OutOfBounds.

(** The state of the record loops. *)
Record parser : Type := mkParser {
  input : istream;
  coords : Z * Z;
  prevX : Z;
  prevY : Z;
  table : gmap (Z * Z * Z) Span
}.

Definition bottom (ty : Z) : bool := negb (Z.land ty 2 =? 0).

(** The scanline range of the record of [prevY]. *)
Definition record_startY (ty prevY : Z) : Z :=
  let startY := if bottom ty then prevY else 0 in
  if 192 <=? startY then 191 else startY.

Definition record_endY (ty prevY : Z) : Z :=
  let endY := if bottom ty then 191 else prevY in
  if 192 <=? endY then 191 else endY.

(** The body of the two record loops, at sweep position [(x, y)]. *)
Definition read_record (ty x y : Z) (st : parser) : flow parser :=
  let '(got, s) := read 2 (input st) in
  let c := (load_u8 got (fst (coords st)),
            load_u8 (drop 1 got) (snd (coords st))) in
  if negb (fst c =? prevX st mod 256) || negb (snd c =? prevY st mod 256)
  then Return InvalidFile
  else
    match for_range (record_startY ty (prevY st)) (record_endY ty (prevY st))
                    (read_span (prevY st) (prevX st)) (s, table st) with
    | Next (s, tbl) => Next (mkParser s c x y tbl)
    | Return m => Return m
    | OutOfBounds => OutOfBounds
    end.

(** The five header fields, read into the zero-initialised [Data]. *)
Definition read_header (s : istream) : Z * Z * Z * Z * Z * istream :=
  let '(g, s) := read 1 s in let ty := load_u8 g 0 in
  let '(g, s) := read 2 s in let minX := load_u16 g 0 in
  let '(g, s) := read 2 s in let maxX := load_u16 g 0 in
  let '(g, s) := read 1 s in let minY := load_u8 g 0 in
  let '(g, s) := read 1 s in let maxY := load_u8 g 0 in
  (ty, minX, maxX, minY, maxY, s).

(** What [readFile] gives back: the message and the pointer, null or not;
    or nothing that can be relied on. *)
Inductive loaded : Type :=
| Returned (m : message) (pData : option Data)
| Undefined.

(** [readFile].  [file] is the content of the path when it is a regular
    file; [coords0] is the indeterminate initial content of the local array
    [coords]. *)
Definition readFile (coords0 : Z * Z) (file : option (list byte)) : loaded :=
  match file with
  | None => Returned NotAFile None
  | Some buffer =>
      let '(ty, minX, maxX, minY, maxY, s) :=
        read_header (mkStream buffer false) in
      if (0 <=? ty) && (ty <=? 3) then
        let records :=
          for_range minY maxY
            (fun y => for_range minX maxX (fun x => read_record ty x y))
            (mkParser s coords0 0 0 ∅) in
        match records with
        | Next st =>
            let startY := if bottom ty then Z.min minY 191 else 0 in
            let endY := if bottom ty then 191 else Z.min maxY 191 in
            match for_range startY endY (read_span (prevY st) (prevX st))
                            (input st, table st) with
            | Next (_, tbl) =>
                Returned OK (Some (mkData ty minX maxX minY maxY tbl))
            | Return m => Returned m None
            | OutOfBounds => Undefined
            end
        | Return m => Returned m None
        | OutOfBounds => Undefined
        end
      else Returned (InvalidType ty) None
  end.

(** *** The layout of the records in the file *)

(** The sweep positions in the order of the two loops. *)
Definition sweep (minX maxX minY maxY : Z) : list (Z * Z) :=
  y ← seqZ minY (maxY - minY + 1);
  x ← seqZ minX (maxX - minX + 1);
  [(x, y)].

(** The position each record is labelled with: the origin for the first,
    then the sweep position of the record before. *)
Definition labels (minX maxX minY maxY : Z) : list (Z * Z) :=
  (0, 0) :: sweep minX maxX minY maxY.

(** The size in bytes of the record labelled [(_, prevY)]: the coordinate
    pair and three bytes for each scanline. *)
Definition record_size (ty : Z) (label : Z * Z) : nat :=
  2 + 3 * Z.to_nat (record_endY ty (snd label) - record_startY ty (snd label) + 1).

(** The offset of record [k] in the file, after the 7 bytes of the header. *)
Definition record_offset (ty : Z) (labels : list (Z * Z)) (k : nat) : nat :=
  7 + sum_list (record_size ty <$> take k labels).

Definition capture_type (buffer : list byte) : Z :=
  fst (fst (fst (fst (fst (read_header (mkStream buffer false)))))).

(** Record [k] of the file carries a coordinate pair that is not its label
    modulo 256; the records before it index inside the table. *)
Definition coord_mismatch (buffer : list byte) (k : nat) : Prop :=
  let '(ty, minX, maxX, minY, maxY, _) :=
    read_header (mkStream buffer false) in
  let lbls := labels minX maxX minY maxY in
  let off := record_offset ty lbls k in
  (k < length (sweep minX maxX minY maxY))%nat /\
  Forall (fun l => 0 <= fst l <= 256 /\ 0 <= snd l <= 192) (take k lbls) /\
  exists pX pY cx cy,
    lbls !! k = Some (pX, pY) /\
    buffer !! off = Some cx /\ buffer !! S off = Some cy /\
    (byte_val cx <> pX mod 256 \/ byte_val cy <> pY mod 256).

End Capture.

(** ** The comparison harness ([main.cpp], [testSlope], [testSlopes], [test]) *)

Module Harness.

Import Capture.

(** What the harness does that can be observed: each access to the table of
    captured spans, and each line it prints. *)
Inductive event : Type :=
| Lookup (testY testX y : Z)
| FoundMismatch
| SpanMissing (testX testY y : Z)
| SpanDiffers (testX testY y startScrX endScrX spanStart spanEnd : Z)
              (rawX lastX maskedX maskedLastX inc : Z)
| AllOK.

(** The lambda [foundMismatch]: the banner, on the first mismatch only. *)
Definition foundMismatch (mismatch : bool) : list event * bool :=
  (if mismatch then [] else [FoundMismatch], true).

(** The body of [for (i32 y = y0; y < y1; y++)], with [n] iterations left. *)
Fixpoint scanlines (data : Data) (testX testY : Z) (slope : Slope.t)
         (n : nat) (y : Z) (mismatch : bool) : list event * bool :=
  match n with
  | O => ([], mismatch)
  | S n' =>
      (* Get span for the current scanline *)
      let startX := FracXStart slope y in
      let endX := FracXEnd slope y in
      let startScrX := XStart slope y in
      let endScrX := XEnd slope y in
      (* Spans are reversed when the slope is negative *)
      let '(startX, endX) :=
        if IsNegative slope then (endX, startX) else (startX, endX) in
      let '(startScrX, endScrX) :=
        if IsNegative slope then (endScrX, startScrX)
        else (startScrX, endScrX) in
      (* Skip scanlines out of view *)
      if 256 <=? startScrX then
        scanlines data testX testY slope n' (add32 y 1) mismatch
      else if y =? 192 then ([], mismatch)
      else
        (* Compare generated spans with those captured from hardware *)
        let span := span_at (lines data) testY testX y in
        let '(out, mismatch) :=
          if negb (exists_ span) then
            let '(banner, mismatch) := foundMismatch mismatch in
            (banner ++ [SpanMissing testX testY y], mismatch)
          else if negb (start span =? startScrX) || negb (end_ span =? endScrX)
          then
            let '(banner, mismatch) := foundMismatch mismatch in
            (banner ++
               [SpanDiffers testX testY y startScrX endScrX
                  (start span) (end_ span)
                  endX startX
                  (to_u32 endX mod kOne) (to_u32 startX mod kOne)
                  (DX slope)],
             mismatch)
          else ([], mismatch) in
        let '(rest, mismatch) :=
          scanlines data testX testY slope n' (add32 y 1) mismatch in
        (Lookup testY testX y :: out ++ rest, mismatch)
  end.

(** [testSlope] *)
Definition testSlope (data : Data) (testX testY x0 y0 x1 y1 : Z)
           (mismatch : bool) : list event * bool :=
  (* Always rasterize top to bottom *)
  let '(x0, y0, x1, y1) :=
    if y1 <? y0 then (x1, y1, x0, y0) else (x0, y0, x1, y1) in
  (* Y0 coinciding with Y1 is equivalent to Y0 and Y1 being 1 pixel apart *)
  let y1 := if y0 =? y1 then add32 y1 1 else y1 in
  (* Create and configure the slope *)
  let slope := Setup x0 y0 x1 y1 in
  scanlines data testX testY slope (Z.to_nat (y1 - y0)) y0 mismatch.

(** [testSlopes]: every sweep position of the screen against one anchor. *)
Definition testSlopes (data : Data) (x0 y0 : Z) : list event :=
  let '(out, mismatch) :=
    foldl (fun acc y1 =>
             foldl (fun '(out, mismatch) x1 =>
                      let '(o, mismatch) :=
                        testSlope data x1 y1 x0 y0 x1 y1 mismatch in
                      (out ++ o, mismatch))
                   acc (seqZ 0 257))
          ([], false) (seqZ 0 193) in
  out ++ (if mismatch then [] else [AllOK]).

(** [test] *)
Definition test (data : Data) : list event :=
  match type data with
  | 0 => testSlopes data 0 0
  | 1 => testSlopes data 256 0
  | 2 => testSlopes data 0 192
  | 3 => testSlopes data 256 192
  | _ => []
  end.

(** An access within [lines[193][257]] and [spans[192]]. *)
Definition lookup_in_bounds (e : event) : Prop :=
  match e with
  | Lookup testY testX y =>
      0 <= testY <= 192 /\ 0 <= testX <= 256 /\ 0 <= y <= 191
  | _ => True
  end.

End Harness.

(** ** Reading the harness output *)

Module Verdict.

(** The slope that [testSlope] configures for an anchor and a sweep position:
    top to bottom, and one scanline long when both lie on one scanline. *)
Definition tested_slope (x0 y0 x1 y1 : Z) : Slope.t :=
  let '(x0, y0, x1, y1) :=
    if y1 <? y0 then (x1, y1, x0, y0) else (x0, y0, x1, y1) in
  let y1 := if y0 =? y1 then add32 y1 1 else y1 in
  Setup x0 y0 x1 y1.

(** The span of a scanline from left to right, as [testSlope] compares it. *)
Definition screen_span (s : Slope.t) (y : Z) : Z * Z :=
  if IsNegative s then (XEnd s y, XStart s y) else (XStart s y, XEnd s y).

(** The comparison of [testSlope]: the captured span is absent, or one of its
    ends differs from the generated one. *)
Definition span_differs (data : Capture.Data) (testX testY : Z) (s : Slope.t)
           (y : Z) : bool :=
  let span := Capture.span_at (Capture.lines data) testY testX y in
  negb (Capture.exists_ span)
  || (negb (Capture.start span =? fst (screen_span s y))
      || negb (Capture.end_ span =? snd (screen_span s y))).

Definition is_report (e : Harness.event) : bool :=
  match e with
  | Harness.SpanMissing _ _ _ => true
  | Harness.SpanDiffers _ _ _ _ _ _ _ _ _ _ _ _ => true
  | _ => false
  end.

Definition is_banner (e : Harness.event) : bool :=
  match e with
  | Harness.FoundMismatch => true
  | _ => false
  end.

Definition is_all_ok (e : Harness.event) : bool :=
  match e with
  | Harness.AllOK => true
  | _ => false
  end.

Definition count (p : Harness.event -> bool) (l : list Harness.event) : nat :=
  length (List.filter p l).

(** What one call of the scanline loop adds to the output: the flag is set
    exactly when it was set or a report is printed, the banner is printed at
    most once and only if the flag was clear, and the verdict line is not
    printed here. *)
Definition output_invariant (mismatch : bool) (r : list Harness.event * bool) : Prop :=
  snd r = mismatch || existsb is_report (fst r) /\
  count is_banner (fst r) = (if mismatch then 0 else if snd r then 1 else 0)%nat /\
  existsb is_all_ok (fst r) = false.

End Verdict.

(** ** The on-device generator ([data/src/source/main.cpp], [generate]) *)

Module Generator.

(** Conversion of an integer to a byte, as on assignment to [u8] or [char]. *)
Definition byte_of (z : Z) : byte :=
  match Byte.of_N (Z.to_N (z mod 256)) with
  | Some b => b
  | None => x00
  end.

(** [fwrite] of a [u16], low byte first. *)
Definition u16_bytes (z : Z) : list byte :=
  [byte_of (z mod 65536); byte_of (z mod 65536 / 256)].

Definition WIDTH : Z := 256.
Definition HEIGHT : Z := 192.

(** The configurable settings. *)
Record config : Type := mkConfig {
  TEST_TYPE : Z;
  minX : Z;
  maxX : Z;
  minY : Z;
  maxY : Z
}.

(** The state of the scan of one row in [countAndWrite]. *)
Record row_scan : Type := mkScan {
  found : bool;
  first : Z;
  last_ : Z
}.

(** The loop of [countAndWrite] over the columns still to visit; [vram] is the
    captured frame, [VRAM_A]. *)
Fixpoint scan_row (vram : Z -> Z) (checkY : Z) (columns : list Z)
         (st : row_scan) : row_scan :=
  match columns with
  | [] => st
  | checkX :: rest =>
      let color := Z.land (vram (checkY * WIDTH + checkX)) 32767 in
      if negb (found st) then
        if negb (color =? 0)
        then scan_row vram checkY rest (mkScan true (checkX mod 256) (last_ st))
        else scan_row vram checkY rest st
      else
        if color =? 0
        then mkScan (found st) (first st) ((checkX - 1) mod 256)
        else scan_row vram checkY rest st
  end.

(** A pixel of the frame that is not black, bit 15 apart. *)
Definition lit (vram : Z -> Z) (checkY x : Z) : Prop :=
  Z.land (vram (checkY * WIDTH + x)) 32767 <> 0.

(** The lambda [countAndWrite]: the span found in row [checkY], and the three
    bytes written for it. *)
Definition count_row (vram : Z -> Z) (startX endX checkY : Z) : row_scan :=
  scan_row vram checkY (seqZ startX (endX - startX + 1))
           (mkScan false (startX mod 256) (endX mod 256)).

Definition countAndWrite (vram : Z -> Z) (startX endX checkY : Z) : list byte :=
  let r := count_row vram startX endX checkY in
  [byte_of (if found r then 1 else 0); byte_of (first r); byte_of (last_ r)].

(** The block of spans written for the position [(prevX, prevY)]. *)
Definition write_spans (cfg : config) (vram : Z -> Z) (prevX prevY : Z)
  : list byte :=
  let right := negb (Z.land (TEST_TYPE cfg) 1 =? 0) in
  let bottom := negb (Z.land (TEST_TYPE cfg) 2 =? 0) in
  let startX := if right then Z.min prevX (WIDTH - 1) else 0 in
  let endX := if right then WIDTH - 1 else Z.min prevX (WIDTH - 1) in
  let startY := if bottom then Z.min prevY (HEIGHT - 1) else 0 in
  let endY := if bottom then HEIGHT - 1 else Z.min prevY (HEIGHT - 1) in
  checkY ← seqZ startY (endY - startY + 1);
  countAndWrite vram startX endX checkY.

(** The state of the two sweep loops: the frames drawn so far, the previous
    position and the bytes written. *)
Record writer : Type := mkWriter {
  frames : nat;
  prevX : Z;
  prevY : Z;
  written : list byte
}.

(** The body of the sweep loops at position [(x, y)]: [drawFrame] captures
    frame number [frames], then the record of the previous position is
    written. *)
Definition write_record (cfg : config) (vram : nat -> Z -> Z) (x y : Z)
           (w : writer) : writer :=
  let frame := vram (frames w) in
  let record :=
    [byte_of (prevX w); byte_of (prevY w)]
      ++ write_spans cfg frame (prevX w) (prevY w) in
  mkWriter (S (frames w)) x y (written w ++ record).

(** [generate]: the bytes of the capture file, for the frames [vram 0],
    [vram 1], ... that the hardware captures after each [drawFrame]. *)
Definition generate (cfg : config) (vram : nat -> Z -> Z) : list byte :=
  let header :=
    [byte_of (TEST_TYPE cfg)] ++ u16_bytes (minX cfg) ++ u16_bytes (maxX cfg)
      ++ [byte_of (minY cfg); byte_of (maxY cfg)] in
  let w :=
    foldl (fun w y =>
             foldl (fun w x => write_record cfg vram x y w)
                   w (seqZ (minX cfg) (maxX cfg - minX cfg + 1)))
          (mkWriter 0 0 0 header)
          (seqZ (minY cfg) (maxY cfg - minY cfg + 1)) in
  written w ++ write_spans cfg (vram (frames w)) (prevX w) (prevY w).

End Generator.

(** A record of the capture file for the position [label]: its two coordinate
    bytes and three bytes for each scanline of its range. *)
Definition record_ok (ty : Z) (label : Z * Z) (record : list byte) : Prop :=
  exists cx cy spans,
    record = cx :: cy :: spans /\
    Capture.byte_val cx = fst label mod 256 /\
    Capture.byte_val cy = snd label mod 256 /\
    length record = Capture.record_size ty label.

(** The seven bytes of a capture header. *)
Definition header_bytes (ty minX maxX minY maxY : Z) : list byte :=
  [Generator.byte_of ty] ++ Generator.u16_bytes minX ++ Generator.u16_bytes maxX
    ++ [Generator.byte_of minY; Generator.byte_of maxY].

(** ** What the generator records and what the parser stores *)

Module Content.

(** The span that [generate] finds for row [checkY] of a frame, for the
    position [(prevX, _)]: the columns scanned depend on the corner. *)
Definition recorded_span (cfg : Generator.config) (vram : Z -> Z)
           (prevX checkY : Z) : Generator.row_scan :=
  let right := negb (Z.land (Generator.TEST_TYPE cfg) 1 =? 0) in
  let startX := if right then Z.min prevX (Generator.WIDTH - 1) else 0 in
  let endX := if right then Generator.WIDTH - 1
              else Z.min prevX (Generator.WIDTH - 1) in
  Generator.count_row vram startX endX checkY.

(** The three bytes of a span in the file. *)
Definition span_bytes (r : Generator.row_scan) : byte * byte * byte :=
  (Generator.byte_of (if Generator.found r then 1 else 0),
   Generator.byte_of (Generator.first r),
   Generator.byte_of (Generator.last_ r)).

Definition flat (triples : list (byte * byte * byte)) : list byte :=
  t ← triples; [fst (fst t); snd (fst t); snd t].

(** The entry of the table that three bytes of the file become. *)
Definition decode_span (t : byte * byte * byte) : Capture.Span :=
  Capture.mkSpan (negb (Capture.byte_val (fst (fst t)) =? 0))
                 (Capture.byte_val (snd (fst t)))
                 (Capture.byte_val (snd t)).

(** The entry of the table a recorded span stands for. *)
Definition span_of_scan (r : Generator.row_scan) : Capture.Span :=
  Capture.mkSpan (Generator.found r) (Generator.first r) (Generator.last_ r).

End Content.

(** * The screen capture tools of main.cpp *)

Module ScreenCap.

Import Capture.

(** [std::ifstream in{binPath, std::ios::binary}]: a file that cannot be
    opened leaves the stream with its fail bit set. *)
Definition open (file : option (list byte)) : istream :=
  match file with
  | Some bytes => mkStream bytes false
  | None => mkStream [] true
  end.

(** [u16 clr] is declared without a value: it is [None] until a read has
    stored both of its bytes; a read that stores one byte or none leaves the
    rest of it as it was. *)
Definition load_clr (got : list byte) (old : option Z) : option Z :=
  match got, old with
  | _ :: _ :: _, _ => Some (load_u16 got 0)
  | _, Some v => Some (load_u16 got v)
  | _, None => None
  end.

(** [(clr >> shift) & 0x1F] and [(c5 << 3) | (c5 >> 2)] *)
Definition channel (clr shift : Z) : Z := Z.land (Z.shiftr clr shift) 31.
Definition expand (c5 : Z) : Z := Z.lor (Z.shiftl c5 3) (Z.shiftr c5 2).

(** The 18 bytes of [tga]: the image type at offset 2, the width and the
    height as [u16] at offsets 12 and 14, the bits per pixel at offset 16 and
    the image descriptor at offset 17. *)
Definition tga_header (image_type bpp : Z) : list byte :=
  [x00; x00; Generator.byte_of image_type] ++ replicate 9 x00
  ++ Generator.u16_bytes 256 ++ Generator.u16_bytes 192
  ++ [Generator.byte_of bpp; Generator.byte_of 32].

(** The three [out.write] of one pixel: blue, green, red. *)
Definition pixel (clr : Z) : list byte :=
  let r5 := channel clr 0 mod 256 in
  let g5 := channel clr 5 mod 256 in
  let b5 := channel clr 10 mod 256 in
  let r8 := expand r5 mod 256 in
  let g8 := expand g5 mod 256 in
  let b8 := expand b5 mod 256 in
  [Generator.byte_of b8; Generator.byte_of g8; Generator.byte_of r8].

(** The body of the pixel loop of [convertScreenCap] on the input stream, the
    variable [clr] and the bytes written so far.  Using [clr] while it has no
    value ends the run with [None]. *)
Definition convert_pixel (st : istream * option Z * list byte)
  : option (istream * option Z * list byte) :=
  let '(s, clr, out) := st in
  let '(got, s) := read 2 s in
  match load_clr got clr with
  | Some c => Some (s, Some c, out ++ pixel c)
  | None => None
  end.

(** [convertScreenCap]: the bytes written to the TGA file. *)
Definition convertScreenCap (file : option (list byte)) : option (list byte) :=
  let st :=
    foldl (fun st (_ : Z) =>
             foldl (fun st (_ : Z) => st ≫= convert_pixel) st (seqZ 0 256))
          (Some (open file, None, tga_header 2 24)) (seqZ 0 192) in
  snd <$> st.

(** One line printed by [uniqueColors]: the colour in hexadecimal, its three
    5-bit channels and their 8-bit expansions. *)
Record colour_line : Type := mkLine {
  line_clr : Z;
  line_rgb5 : Z * Z * Z;
  line_rgb8 : Z * Z * Z
}.

Definition describe (clr : Z) : colour_line :=
  let r5 := channel clr 0 in
  let g5 := channel clr 5 in
  let b5 := channel clr 10 in
  mkLine clr (r5, g5, b5) (expand r5, expand g5, expand b5).

(** The body of the pixel loop of [uniqueColors]; [clrs] is the
    [std::unordered_set<u16>]. *)
Definition list_colour (st : istream * option Z * gset Z * list colour_line)
  : option (istream * option Z * gset Z * list colour_line) :=
  let '(s, clr, clrs, out) := st in
  let '(got, s) := read 2 s in
  match load_clr got clr with
  | Some c =>
      if decide (c ∈ clrs) then Some (s, Some c, clrs, out)
      else Some (s, Some c, {[c]} ∪ clrs, out ++ [describe c])
  | None => None
  end.

(** [uniqueColors]: the lines printed. *)
Definition uniqueColors (file : option (list byte)) : option (list colour_line) :=
  let st :=
    foldl (fun st (_ : Z) =>
             foldl (fun st (_ : Z) => st ≫= list_colour) st (seqZ 0 256))
          (Some (open file, None, ∅, [])) (seqZ 0 192) in
  snd <$> st.

(** The little-endian 16-bit words of a byte sequence; an odd last byte is
    left out. *)
Fixpoint words (bytes : list byte) : list Z :=
  match bytes with
  | lo :: hi :: rest => (byte_val lo + 256 * byte_val hi) :: words rest
  | _ => []
  end.

(** The colour that the top five bits of the three bytes of a pixel stand
    for. *)
Definition decode_pixel (bgr : list byte) : Z :=
  match bgr with
  | [b; g; r] => byte_val r / 8 + 32 * (byte_val g / 8) + 1024 * (byte_val b / 8)
  | _ => 0
  end.

(** The screen capture written by the generator when [screencap] is set:
    [fwrite(VRAM_A, 256*192, sizeof(uint16_t), fileFS)]. *)
Definition screencap_file (vram : Z -> Z) : list byte :=
  i ← seqZ 0 (256 * 192); Generator.u16_bytes (vram i).

End ScreenCap.

(** * The renderings of the captured spans *)

Module Images.

Import Capture.

(** The name [writeImages] gives the files of each type; a type outside the
    [switch] leaves the name empty. *)
Inductive corner : Type := TL | TR | BL | BR | Unnamed.

Definition name_of (ty : Z) : corner :=
  match ty with
  | 0 => TL
  | 1 => TR
  | 2 => BL
  | 3 => BR
  | _ => Unnamed
  end.

(** The loop [for (size_t x = span.start; x <= span.end; x++)] on one row of
    [pixels]. *)
Definition draw_span (span : Span) (row : list byte) : list byte :=
  if exists_ span
  then foldl (fun row x => <[Z.to_nat x := xff]> row) row
             (seqZ (start span) (end_ span - start span + 1))
  else row.

(** [pixels] after [memset] and the loop over the scanlines. *)
Definition render (tbl : gmap (Z * Z * Z) Span) (sizeY sizeX : Z)
  : list (list byte) :=
  foldl (fun pixels y =>
           alter (draw_span (span_at tbl sizeY sizeX y)) (Z.to_nat y) pixels)
        (replicate 192 (replicate 256 x00)) (seqZ 0 192).

(** The bytes written to one file: the header and [pixels]. *)
Definition image_bytes (tbl : gmap (Z * Z * Z) Span) (sizeY sizeX : Z)
  : list byte :=
  ScreenCap.tga_header 3 8 ++ concat (render tbl sizeY sizeX).

(** A file written by [writeImages]: the parts of its name,
    [name-sizeXxsizeY.tga], and its bytes. *)
Record tga_file : Type := mkFile {
  file_name : corner * Z * Z;
  file_bytes : list byte
}.

Definition write_image (data : Data) (sizeX sizeY : Z) (files : list tga_file)
  : flow (list tga_file) :=
  if in_table sizeY sizeX 0 then
    Next (files ++ [mkFile (name_of (type data), sizeX, sizeY)
                           (image_bytes (lines data) sizeY sizeX)])
  else OutOfBounds.

(** [writeImages]: the files written, in order. *)
Definition writeImages (data : Data) : flow (list tga_file) :=
  for_range (minY data) (maxY data)
            (fun sizeY =>
               for_range (minX data) (maxX data)
                         (fun sizeX => write_image data sizeX sizeY))
            [].

End Images.

(** * The validation on the device *)

Module DeviceTest.

Import Capture Generator.

(** The lines [test] prints for a row: a span found in the frame and absent
    from the file, a span of the file absent from the frame, or two spans
    with different ends. *)
Inductive report : Type :=
| ExtraPixel (prevX prevY checkY : Z)
| MissingPixel (prevX prevY checkY : Z)
| Differs (prevX prevY checkY first last actualFirst actualLast : Z).

(** How [test] ends: it reaches [fclose]; it prints "Invalid File" and
    spins; or it uses a variable that no [fread] has given a value, or a file
    that could not be opened. *)
Inductive outcome : Type :=
| Finished (printed : list report)
| InvalidFile (printed : list report)
| Undefined.

Inductive next (S : Type) : Type :=
| Go (s : S)
| Halt (o : outcome).
Arguments Go {S} s.
Arguments Halt {S} o.

Fixpoint each {A S : Type} (body : A -> S -> next S) (l : list A) (s : S)
  : next S :=
  match l with
  | [] => Go s
  | a :: l' =>
      match body a s with
      | Go s' => each body l' s'
      | Halt o => Halt o
      end
  end.

(** [fread] of [n] bytes into variables declared without a value: the bytes
    and the rest of the file, or nothing when the file ends before. *)
Definition fread (n : nat) (file : list byte) : option (list byte) * list byte :=
  if (n <=? length file)%nat then (Some (take n file), drop n file)
  else (None, []).

Definition fread_u8 (file : list byte) : option Z * list byte :=
  match file with
  | b :: rest => (Some (byte_val b), rest)
  | [] => (None, [])
  end.

(** [if (v >= limit) v = limit - 1] *)
Definition clamp (v limit : Z) : Z := if limit <=? v then limit - 1 else v.

(** The state of [test] in its loops: the rest of the file, the previous
    position, the number of frames captured, the frame in [VRAM_A] and the
    lines printed. *)
Record tester : Type := mkTester {
  file : list byte;
  prevX : Z;
  prevY : Z;
  captures : nat;
  VRAM_A : Z -> Z;
  printed : list report
}.


(** The check of row [checkY]. *)
Definition check_row (testType : Z) (checkY : Z) (t : tester) : next tester :=
  let right := negb (Z.land testType 1 =? 0) in
  let startX := clamp (if right then prevX t else 0) WIDTH in
  let endX := clamp (if right then WIDTH - 1 else prevX t) WIDTH in
  let r := scan_row (VRAM_A t) checkY (seqZ startX (endX - startX + 1))
                    (mkScan false 0 (endX mod 256)) in
  let '(actualFound, f) := fread_u8 (file t) in
  let '(actualFirst, f) := fread_u8 f in
  let '(actualLast, f) := fread_u8 f in
  match actualFound with
  | None => Halt Undefined
  | Some b =>
      let actualFound := negb (b =? 0) in
      let out1 :=
        if negb (eqb (found r) actualFound)
        then (if found r then [ExtraPixel (prevX t) (prevY t) checkY] else [])
             ++ (if actualFound
                 then [MissingPixel (prevX t) (prevY t) checkY] else [])
        else [] in
      if found r && actualFound then
        match actualFirst, actualLast with
        | Some actualFirst, Some actualLast =>
            let out2 :=
              if negb (first r =? actualFirst) || negb (last_ r =? actualLast)
              then [Differs (prevX t) (prevY t) checkY (first r) (last_ r)
                            actualFirst actualLast]
              else [] in
            Go (mkTester f (prevX t) (prevY t) (captures t) (VRAM_A t)
                         (printed t ++ out1 ++ out2))
        | _, _ => Halt Undefined
        end
      else
        Go (mkTester f (prevX t) (prevY t) (captures t) (VRAM_A t)
                     (printed t ++ out1))
  end.

(** The rows checked for the previous position. *)
Definition check_rows (testType : Z) (t : tester) : next tester :=
  let bottom := negb (Z.land testType 2 =? 0) in
  let startY := clamp (if bottom then prevY t else 0) HEIGHT in
  let endY := clamp (if bottom then HEIGHT - 1 else prevY t) HEIGHT in
  each (check_row testType) (seqZ startY (endY - startY + 1)) t.

(** The body of the sweep loops at position [(x, y)]: a frame is captured,
    the coordinates of the record are compared and its rows checked. *)
Definition check_record (frames : nat -> Z -> Z) (testType : Z) (x y : Z)
           (t : tester) : next tester :=
  let t := mkTester (file t) (prevX t) (prevY t) (S (captures t))
                    (frames (captures t)) (printed t) in
  match fread 2 (file t) with
  | (Some [pos0; pos1], f) =>
      if negb (byte_val pos0 =? prevX t mod 256)
         || negb (byte_val pos1 =? prevY t mod 256)
      then Halt (InvalidFile (printed t))
      else
        match check_rows testType
                         (mkTester f (prevX t) (prevY t) (captures t)
                                   (VRAM_A t) (printed t)) with
        | Go t => Go (mkTester (file t) x y (captures t) (VRAM_A t) (printed t))
        | Halt o => Halt o
        end
  | _ => Halt Undefined
  end.

(** [test]: [data] is the file [data.bin], [vram] the contents of [VRAM_A]
    before the first capture and [frames 0], [frames 1], ... the frames
    captured after each draw. *)
Definition test (data : option (list byte)) (vram : Z -> Z)
           (frames : nat -> Z -> Z) : outcome :=
  match data with
  | None => Undefined
  | Some f =>
      let '(testType, f) := fread_u8 f in
      let '(minX, f) := fread 2 f in
      let '(maxX, f) := fread 2 f in
      let '(minY, f) := fread_u8 f in
      let '(maxY, f) := fread_u8 f in
      match testType, minX, maxX, minY, maxY with
      | Some testType, Some minX, Some maxX, Some minY, Some maxY =>
          let minX := load_u16 minX 0 in
          let maxX := load_u16 maxX 0 in
          match each (fun y =>
                        each (fun x => check_record frames testType x y)
                             (seqZ minX (maxX - minX + 1)))
                     (seqZ minY (maxY - minY + 1))
                     (mkTester f 0 0 0 vram []) with
          | Go t =>
              match check_rows testType t with
              | Go t => Finished (printed t)
              | Halt o => o
              end
          | Halt o => o
          end
      | _, _, _, _, _ => Undefined
      end
  end.

End DeviceTest.

(** * From the generator to the harness *)

Module Pipeline.

Import Capture Harness.

(** A lookup of the harness at a position of the table and on a scanline that
    a capture of type [ty] records for that position: from scanline 0 down to
    the row of the position for the top corners, from the row of the position
    down to scanline 191 for the bottom corners. *)
Definition lookup_recorded (ty : Z) (e : event) : Prop :=
  match e with
  | Lookup testY testX y =>
      0 <= testX <= 256 /\ 0 <= testY <= 192 /\
      if bottom ty then testY <= y <= 191 else 0 <= y <= Z.min testY 191
  | _ => True
  end.

(** A lookup that finds the span the generator recorded, for the position and
    the scanline looked up, in the frame captured for that position in a
    sweep of the whole screen. *)
Definition lookup_generated (cfg : Generator.config) (frames : nat -> Z -> Z)
           (d : Data) (e : event) : Prop :=
  match e with
  | Lookup testY testX y =>
      span_at (lines d) testY testX y
      = Content.span_of_scan
          (Content.recorded_span
             cfg (frames (S (Z.to_nat (testY * 257 + testX)))) testX y)
  | _ => True
  end.

End Pipeline.
(** ** Facts about the 32-bit conversions *)

Section Int32Facts.

Lemma modulus_eq : modulus = 4294967296.
Proof. reflexivity. Qed.

Lemma in_i32b_spec z : in_i32b z = true <-> in_i32 z.
Proof.
  unfold in_i32b, in_i32. rewrite andb_true_iff, !Z.leb_le. tauto.
Qed.

Lemma to_i32_id z : in_i32 z -> to_i32 z = z.
Proof.
  unfold in_i32, to_i32, min_signed, max_signed, modulus. intros Hz.
  rewrite Z.mod_small; lia.
Qed.

Lemma to_i32_range z : in_i32 (to_i32 z).
Proof.
  unfold in_i32, to_i32, min_signed, max_signed, modulus.
  pose proof (Z.mod_pos_bound (z + 2 ^ 31) (2 ^ 32)). lia.
Qed.

Lemma to_u32_range z : 0 <= to_u32 z < modulus.
Proof. unfold to_u32. apply Z.mod_pos_bound. reflexivity. Qed.

Lemma to_u32_id z : 0 <= z < modulus -> to_u32 z = z.
Proof. unfold to_u32. intros. now apply Z.mod_small. Qed.

(** Two integers congruent modulo 2^32 convert to the same [int32_t]. *)
Lemma to_i32_cong a b : a mod modulus = b mod modulus -> to_i32 a = to_i32 b.
Proof.
  unfold to_i32. intros Hab. f_equal.
  rewrite <- (Zplus_mod_idemp_l a), <- (Zplus_mod_idemp_l b). now rewrite Hab.
Qed.

Lemma to_i32_to_u32 z : to_i32 (to_u32 z) = to_i32 z.
Proof. apply to_i32_cong. unfold to_u32. apply Z.mod_mod. discriminate. Qed.

(** The low nine bits, and their complement, as arithmetic. *)
Lemma land_low9 z : Z.land z 511 = z mod 512.
Proof. change 511 with (Z.ones 9). now rewrite Z.land_ones. Qed.

Lemma land_high z : Z.land z (-512) = z - z mod 512.
Proof.
  change (-512) with (Z.lnot (Z.ones 9)).
  rewrite <- Z.ldiff_land, Z.ldiff_ones_r by lia.
  rewrite Z.shiftr_div_pow2, Z.shiftl_mul_pow2 by lia.
  change (2 ^ 9) with 512. pose proof (Z.div_mod z 512). lia.
Qed.

Lemma kMask_land u : 0 <= u < modulus -> Z.land u 4294966784 = u - u mod 512.
Proof.
  intros Hu.
  change 4294966784 with (Z.land (Z.ones 32) (-512)).
  rewrite Z.land_assoc, Z.land_ones by lia.
  change (2 ^ 32) with modulus. rewrite Z.mod_small by exact Hu.
  apply land_high.
Qed.

End Int32Facts.

(** ** The interpolator: setup *)

Section SetupFacts.

Lemma kOne_eq : kOne = 262144.
Proof. reflexivity. Qed.

Lemma kBias_eq : kBias = 131072.
Proof. reflexivity. Qed.

Lemma kMask_eq : kMask = 4294966784.
Proof. reflexivity. Qed.

Lemma umul_to_i32 a c :
  0 <= c < modulus -> to_i32 (umul (to_u32 a) c) = to_i32 (a * c).
Proof.
  intros Hc. unfold umul, to_u32. apply to_i32_cong.
  rewrite Z.mod_mod by discriminate. apply Zmult_mod_idemp_l.
Qed.

End SetupFacts.

(** ** The interpolator: span ends *)

Section FracXEndFacts.

Lemma MASK_eq : MASK = -512.
Proof. reflexivity. Qed.

Lemma MASK_testbit v i :
  0 <= i -> Z.testbit (Z.land v MASK) i = (9 <=? i) && Z.testbit v i.
Proof.
  intros Hi. rewrite Z.land_spec, MASK_eq.
  change (-512) with (Z.lnot (Z.ones 9)).
  rewrite Z.lnot_spec by exact Hi.
  destruct (Z.leb_spec 9 i) as [H9 | H9].
  - rewrite Z.ones_spec_high by lia. now rewrite andb_comm.
  - rewrite Z.ones_spec_low by lia. now rewrite andb_false_r.
Qed.

(** The positive X-major end, in signed arithmetic. *)
Lemma end_positive_signed r d :
  to_i32 (usub (uadd (uand (to_u32 r) kMask) (to_u32 d)) kOne)
  = to_i32 (Z.land r MASK + d - kOne).
Proof.
  apply to_i32_cong. unfold usub, uadd, uand.
  rewrite kMask_eq, kMask_land by apply to_u32_range.
  rewrite MASK_eq, land_high, kOne_eq. unfold to_u32. rewrite modulus_eq.
  Z.div_mod_to_equations. lia.
Qed.

(** The negative X-major end, in signed arithmetic. *)
Lemma end_negative_signed r d :
  to_i32
    (uadd
       (usub
          (uadd (to_u32 r) (usub (unot kMask) (uand (to_u32 r) (unot kMask))))
          (to_u32 d))
       kOne)
  = to_i32 (r + (Z.lnot MASK - Z.land r (Z.lnot MASK)) - d + kOne).
Proof.
  apply to_i32_cong. unfold usub, uadd, uand.
  change (unot kMask) with 511. change (Z.lnot MASK) with 511.
  rewrite !land_low9, kOne_eq. unfold to_u32. rewrite modulus_eq.
  Z.div_mod_to_equations. lia.
Qed.

Lemma FracXEnd_not_xMajor s y :
  m_xMajor s = false -> FracXEnd s y = FracXStart s y.
Proof. intros H. unfold FracXEnd. now rewrite H. Qed.

End FracXEndFacts.

(** C2.  For every slope and every scanline, [FracXEnd] is [FracXStart] when
    the slope is not X-major, [(s & MASK) + dx - ONE] when it is X-major and
    positive, and [s + (~MASK - (s & ~MASK)) - dx + ONE] when it is X-major and
    negative, all in 32-bit arithmetic, where [MASK = ~((1 << 9) - 1)] is the
    class constant [kMask] and masking with it clears exactly bits 0 to 8. *)
Theorem FracXEnd_cases (s : Slope.t) (y : Z) :
  let fs := FracXStart s y in
  FracXEnd s y =
    (if negb (IsXMajor s) then fs
     else if negb (IsNegative s) then to_i32 (Z.land fs MASK + DX s - kOne)
     else to_i32 (fs + (Z.lnot MASK - Z.land fs (Z.lnot MASK)) - DX s + kOne))
  /\ to_u32 MASK = kMask
  /\ (forall v i : Z,
        0 <= i -> Z.testbit (Z.land v MASK) i = (9 <=? i) && Z.testbit v i).
Proof.
  intros fs. split; [| split].
  - unfold FracXEnd, IsXMajor, IsNegative, DX. fold fs.
    destruct (m_xMajor s), (m_negative s); cbn [negb].
    + apply end_negative_signed.
    + apply end_positive_signed.
    + reflexivity.
    + reflexivity.
  - reflexivity.
  - apply MASK_testbit.
Qed.

(** ** Concrete slopes *)

(** C3.  The 69x49 slope from the origin is X-major and leaves a one-pixel gap:
    scanline 37 ends at column 52 and scanline 38 starts at column 54. *)
Theorem gap_69x49 :
  let s := Setup 0 0 69 49 in
  IsXMajor s = true /\
  exists y, 0 <= y < 48 /\ XStart s (y + 1) > XEnd s y + 1.
Proof.
  split; [reflexivity |].
  exists 37. split; [lia |]. vm_compute. reflexivity.
Qed.

(** C9.  Inside the screen domain, with distinct endpoints and a scanline of
    the normalized range, [XStart] can be the off-screen column -1:
    [Setup 0 2 1 0] is the negative slope from (1,0) to (0,2), its origin is
    one unit below 1.0, and two steps of 0.5 bring the fixed-point X to -1,
    which the arithmetic shift maps to -1. *)
Theorem XStart_off_screen_left :
  let s := Setup 0 2 1 0 in
  in_screen 0 2 /\ in_screen 1 0 /\ (0, 2) <> (1, 0) /\
  Z.min 2 0 <= 2 <= Z.max 2 0 /\
  IsNegative s = true /\ m_x0 s = 1 * kOne - 1 /\ DX s = kBias /\
  FracXStart s 2 = -1 /\ XStart s 2 = -1.
Proof.
  unfold in_screen. cbv zeta.
  repeat match goal with |- _ /\ _ => split end;
    try reflexivity; try lia; discriminate.
Qed.

(** ** Orientation *)

Lemma Setup_swap x0 y0 x1 y1 : y0 <> y1 -> Setup x0 y0 x1 y1 = Setup x1 y1 x0 y0.
Proof.
  intros Hne. unfold Setup.
  destruct (Z.ltb_spec y1 y0), (Z.ltb_spec y0 y1); try lia; reflexivity.
Qed.

(** C4, as stated, fails on a horizontal edge: with both endpoints on one
    scanline [Setup] keeps the order it is given, so the two orders disagree on
    which one is the negative slope. *)
Lemma orientation_symmetric_fails_horizontal :
  in_screen 0 0 /\ in_screen 1 0 /\ (0, 0) <> (1, 0) /\
  ~ orientation_symmetric 0 0 1 0.
Proof.
  unfold in_screen.
  split; [lia | split; [lia | split; [discriminate |]]].
  intros (_ & _ & Hneg & _). vm_compute in Hneg. discriminate.
Qed.

(** C4, amended.  For endpoints of the screen domain on different scanlines,
    [Setup] in either order gives the same increment, the same X-major and
    negative flags and the same [FracXStart] and [FracXEnd] on every scanline
    between the endpoints. *)
Theorem orientation_symmetric_sloped (x0 y0 x1 y1 : Z) :
  in_screen x0 y0 -> in_screen x1 y1 -> y0 <> y1 ->
  orientation_symmetric x0 y0 x1 y1.
Proof.
  intros _ _ Hne. unfold orientation_symmetric.
  rewrite (Setup_swap x0 y0 x1 y1 Hne). cbv zeta. auto.
Qed.

Lemma orientation_symmetric_sloped_witness :
  in_screen 0 0 /\ in_screen 69 49 /\ orientation_symmetric 0 0 69 49.
Proof.
  assert (H0 : in_screen 0 0) by (unfold in_screen; lia).
  assert (H1 : in_screen 69 49) by (unfold in_screen; lia).
  split; [exact H0 | split; [exact H1 |]].
  apply (orientation_symmetric_sloped 0 0 69 49 H0 H1). discriminate.
Defined.

(** ** Setup on the screen domain *)

Section ScreenDomain.

Lemma uadd_to_i32 a b : to_i32 (uadd (to_u32 a) b) = to_i32 (a + b).
Proof.
  apply to_i32_cong. unfold uadd, to_u32.
  rewrite Z.mod_mod by discriminate. apply Zplus_mod_idemp_l.
Qed.

Lemma usub_to_i32 a b : to_i32 (usub (to_u32 a) b) = to_i32 (a - b).
Proof.
  apply to_i32_cong. unfold usub, to_u32.
  rewrite Z.mod_mod by discriminate. apply Zminus_mod_idemp_l.
Qed.

Lemma in_i32_small z : - 2 ^ 30 <= z <= 2 ^ 30 -> in_i32 z.
Proof. unfold in_i32, min_signed, max_signed. lia. Qed.

(** The reciprocal [ONE / dy] for a scanline count of the screen. *)
Lemma reciprocal_bounds dy :
  0 < dy <= 256 ->
  1024 <= kOne / dy <= kOne /\ kOne - dy < dy * (kOne / dy) <= kOne.
Proof.
  intros Hdy. rewrite kOne_eq.
  pose proof (Z.div_mod 262144 dy ltac:(lia)) as Hdm.
  pose proof (Z.mod_pos_bound 262144 dy ltac:(lia)) as Hm.
  assert (262144 / dy <= 262144) by (apply Z.div_le_upper_bound; nia).
  assert (1024 <= 262144 / dy) by (apply Z.div_le_lower_bound; nia).
  lia.
Qed.

Lemma increment_bounds dx dy :
  0 <= dx <= 256 -> 0 <= dy <= 256 -> 0 <= increment dx dy <= 256 * kOne.
Proof.
  intros Hdx Hdy. unfold increment.
  destruct (Z.eqb_spec dy 0) as [-> | Hne].
  - rewrite kOne_eq. lia.
  - destruct (reciprocal_bounds dy ltac:(lia)) as [Hq _].
    rewrite kOne_eq in *. nia.
Qed.

(** For coordinates up to 256, top-to-bottom, no operation of [Setup]
    wraps. *)
Lemma Setup_in_screen x0 y0 x1 y1 :
  0 <= x0 <= 256 -> 0 <= x1 <= 256 -> 0 <= y0 -> y0 <= y1 -> y1 <= 256 ->
  Setup x0 y0 x1 y1 =
    let negative := x1 <? x0 in
    let dx := Z.abs (x1 - x0) in
    let dy := y1 - y0 in
    let xMajor := dy <? dx in
    mk (x0 * kOne - (if negative then 1 else 0)
        + (if xMajor || (dx =? dy)
           then if negative then - kBias else kBias else 0))
       y0 (increment dx dy) negative xMajor.
Proof.
  intros Hx0 Hx1 Hy0 Hy Hy1. unfold Setup.
  destruct (Z.ltb_spec y1 y0) as [? | _]; [lia |].
  unfold shl32, sub32. rewrite Z.shiftl_mul_pow2 by (unfold kFracBits; lia).
  change (2 ^ kFracBits) with 262144. rewrite kOne_eq, kBias_eq.
  rewrite (to_i32_id (x0 * 262144)) by (apply in_i32_small; lia).
  rewrite (to_i32_id (y1 - y0)) by (apply in_i32_small; lia).
  assert (Hinc : forall dx, 0 <= dx <= 256 ->
            (if negb (y1 - y0 =? 0)
             then to_i32 (umul (to_u32 dx) (udiv kOne (to_u32 (y1 - y0))))
             else to_i32 (umul (to_u32 dx) kOne)) = increment dx (y1 - y0)).
  { intros dx Hdx. pose proof (increment_bounds dx (y1 - y0) Hdx ltac:(lia)) as Hb.
    unfold increment in *. rewrite kOne_eq in *.
    destruct (Z.eqb_spec (y1 - y0) 0) as [E | E]; cbn [negb].
    - rewrite umul_to_i32 by (rewrite modulus_eq; lia).
      apply to_i32_id, in_i32_small. lia.
    - rewrite (to_u32_id (y1 - y0)) by (rewrite modulus_eq; lia).
      destruct (reciprocal_bounds (y1 - y0) ltac:(lia)) as [Hq _].
      rewrite kOne_eq in Hq. unfold udiv.
      rewrite umul_to_i32 by (rewrite modulus_eq; lia).
      apply to_i32_id, in_i32_small. lia. }
  destruct (Z.ltb_spec x1 x0) as [Hneg | Hpos]; cbv zeta.
  - rewrite (to_i32_id (x0 * 262144 - 1)) by (apply in_i32_small; lia).
    rewrite (to_i32_id (x0 - x1)) by (apply in_i32_small; lia).
    rewrite usub_to_i32.
    rewrite (to_i32_id (x0 * 262144 - 1 - 131072)) by (apply in_i32_small; lia).
    rewrite (Z.abs_neq (x1 - x0)) by lia.
    replace (- (x1 - x0)) with (x0 - x1) by lia.
    rewrite Hinc by lia.
    destruct (_ || _); f_equal; lia.
  - rewrite (to_i32_id (x1 - x0)) by (apply in_i32_small; lia).
    rewrite uadd_to_i32.
    rewrite (to_i32_id (x0 * 262144 + 131072)) by (apply in_i32_small; lia).
    rewrite (Z.abs_eq (x1 - x0)) by lia.
    rewrite Hinc by lia.
    destruct (_ || _); f_equal; lia.
Qed.

(** On the screen the increment is the unbounded product. *)
Lemma DX_in_screen x0 y0 x1 y1 :
  in_screen x0 y0 -> in_screen x1 y1 ->
  DX (Setup x0 y0 x1 y1) = increment (Z.abs (x1 - x0)) (Z.abs (y1 - y0)).
Proof.
  intros [Hx0 Hy0] [Hx1 Hy1].
  destruct (Z.le_gt_cases y0 y1) as [Hle | Hgt].
  - rewrite Setup_in_screen by lia. cbv zeta. unfold DX. cbn [m_dx].
    now rewrite (Z.abs_eq (y1 - y0)) by lia.
  - rewrite Setup_swap, Setup_in_screen by lia. cbv zeta. unfold DX. cbn [m_dx].
    rewrite <- (Z.abs_opp (x0 - x1)), (Z.abs_neq (y1 - y0)) by lia.
    now replace (- (x0 - x1)) with (x1 - x0) by lia;
      replace (- (y1 - y0)) with (y0 - y1) by lia.
Qed.

End ScreenDomain.

(** C1.  For 32-bit endpoints whose coordinate differences are representable,
    the configured increment is [dx_int * (ONE / dy_int)] in 32-bit
    arithmetic: the truncating quotient [ONE / dy_int] is taken first and then
    multiplied by [dx_int], where [dx_int] and [dy_int] are the magnitudes of
    the deltas after the top-to-bottom and left-to-right swaps.  When
    [dy_int = 0] the increment is [dx_int * ONE].  On the screen the product
    does not wrap.  The result is not the
    exact quotient [(dx_int << 18) / dy_int]: the 69x49 slope gets 369081,
    the exact quotient is 369141. *)
Theorem Setup_DX_division_first (x0 y0 x1 y1 : Z) :
  in_i32 x0 -> in_i32 y0 -> in_i32 x1 -> in_i32 y1 ->
  in_i32 (Z.abs (x1 - x0)) -> in_i32 (Z.abs (y1 - y0)) ->
  let dx_int := Z.abs (x1 - x0) in
  let dy_int := Z.abs (y1 - y0) in
  (dy_int <> 0 -> DX (Setup x0 y0 x1 y1) = mul32 dx_int (kOne / dy_int)) /\
  (dy_int = 0 -> DX (Setup x0 y0 x1 y1) = mul32 dx_int kOne) /\
  (in_screen x0 y0 -> in_screen x1 y1 ->
   DX (Setup x0 y0 x1 y1)
   = dx_int * (if dy_int =? 0 then kOne else kOne / dy_int)) /\
  DX (Setup 0 0 69 49) <> Z.shiftl 69 18 / 49.
Proof.
  intros Hx0 Hy0 Hx1 Hy1 Hdx Hdy dx_int dy_int.
  cut ((dy_int <> 0 -> DX (Setup x0 y0 x1 y1) = mul32 dx_int (kOne / dy_int)) /\
       (dy_int = 0 -> DX (Setup x0 y0 x1 y1) = mul32 dx_int kOne)).
  { intros [H1 H2]. split; [exact H1 | split; [exact H2 | split]].
    - intros S0 S1. apply (DX_in_screen x0 y0 x1 y1 S0 S1).
    - now vm_compute. }
  assert (Hu : forall d, 0 < d -> 0 <= kOne / d < modulus).
  { intros d Hd. rewrite kOne_eq, modulus_eq. split.
    - apply Z.div_pos; lia.
    - apply Z.div_lt_upper_bound; lia. }
  assert (Hdxv : DX (Setup x0 y0 x1 y1) =
                 if negb (dy_int =? 0)
                 then to_i32 (umul (to_u32 dx_int) (udiv kOne (to_u32 dy_int)))
                 else to_i32 (umul (to_u32 dx_int) kOne)).
  { unfold Setup, DX, sub32. subst dx_int dy_int.
    unfold in_i32, min_signed, max_signed in *.
    destruct (Z.ltb_spec y1 y0) as [Hy | Hy];
      [destruct (Z.ltb_spec x0 x1) as [Hx | Hx]
      |destruct (Z.ltb_spec x1 x0) as [Hx | Hx]];
      cbn [m_dx];
      repeat match goal with
             | |- context [to_i32 (?a - ?b)] =>
                 rewrite (to_i32_id (a - b))
                   by (unfold in_i32, min_signed, max_signed; lia)
             end;
      repeat match goal with
             | |- context [Z.abs ?e] =>
                 first [ rewrite (Z.abs_eq e) by lia
                       | rewrite (Z.abs_neq e) by lia ]
             end;
      repeat match goal with
             | |- context [- (?a - ?b)] =>
                 replace (- (a - b)) with (b - a) by lia
             end;
      reflexivity. }
  assert (Hdy0 : 0 <= dy_int) by apply Z.abs_nonneg.
  split; intros Hz; rewrite Hdxv.
  - destruct (Z.eqb_spec dy_int 0) as [E | _]; [contradiction | cbn [negb]].
    assert (Hq : to_u32 dy_int = dy_int).
    { apply to_u32_id. unfold in_i32, max_signed in Hdy. fold dy_int in Hdy.
      rewrite modulus_eq. lia. }
    rewrite Hq. unfold udiv, mul32. apply umul_to_i32.
    apply Hu; lia.
  - destruct (Z.eqb_spec dy_int 0) as [_ | E]; [cbn [negb] | contradiction].
    unfold mul32. apply umul_to_i32. rewrite kOne_eq, modulus_eq. lia.
Qed.

Lemma Setup_DX_division_first_witness :
  in_i32 0 /\ in_i32 69 /\ in_i32 49 /\
  DX (Setup 0 0 69 49) = mul32 69 (kOne / 49).
Proof.
  assert (H0 : in_i32 0) by (unfold in_i32, min_signed, max_signed; lia).
  assert (H69 : in_i32 69) by (unfold in_i32, min_signed, max_signed; lia).
  assert (H49 : in_i32 49) by (unfold in_i32, min_signed, max_signed; lia).
  split; [exact H0 | split; [exact H69 | split; [exact H49 |]]].
  exact (proj1 (Setup_DX_division_first 0 0 69 49 H0 H0 H69 H49 H69 H49)
               ltac:(discriminate)).
Defined.

(** ** Diagonals *)

Section Diagonal.

Variable n : Z.
Hypothesis Hn : 0 < n <= 256.

Lemma Setup_diagonal :
  Setup 0 0 n n = mk kBias 0 (n * (kOne / n)) false false.
Proof.
  rewrite Setup_in_screen by lia. cbv zeta.
  rewrite Z.sub_0_r, (Z.abs_eq n) by lia.
  destruct (Z.ltb_spec n 0); [lia |].
  rewrite Z.ltb_irrefl, Z.eqb_refl. cbn [orb].
  unfold increment. destruct (Z.eqb_spec n 0); [lia |].
  f_equal.
Qed.

(** The fixed-point position on scanline [y] lies in pixel [y]: the
    precision lost by the reciprocal, at most [y * (n - 1)] units, is
    covered by the 0.5 bias. *)
Lemma FracXStart_diagonal y :
  0 <= y < n ->
  FracXStart (Setup 0 0 n n) y = kBias + y * (n * (kOne / n)) /\
  y * kOne <= FracXStart (Setup 0 0 n n) y < (y + 1) * kOne.
Proof.
  intros Hy. rewrite Setup_diagonal.
  unfold FracXStart. cbn [m_y0 m_dx m_x0 m_negative].
  destruct (reciprocal_bounds n ltac:(lia)) as [Hq Hnq].
  rewrite kBias_eq, kOne_eq in *.
  unfold sub32, mul32, add32. rewrite Z.sub_0_r.
  assert (Hyq : 0 <= y * (n * (262144 / n)) <= 256 * 262144) by nia.
  rewrite (to_i32_id y) by (apply in_i32_small; lia).
  rewrite (to_i32_id (y * _)) by (apply in_i32_small; lia).
  rewrite to_i32_id by (apply in_i32_small; lia).
  split; [reflexivity |]. nia.
Qed.

End Diagonal.

(** C5.  On the diagonal from the origin to (n,n), 0 < n <= 256, every
    scanline y in [0,n) has [XStart = XEnd = y]; and the 64x64 diagonal is
    neither X-major nor negative and has increment ONE = 262144. *)
Theorem diagonal_spans (n : Z) :
  0 < n <= 256 ->
  (forall y, 0 <= y < n ->
             XStart (Setup 0 0 n n) y = y /\ XEnd (Setup 0 0 n n) y = y) /\
  IsXMajor (Setup 0 0 64 64) = false /\
  IsNegative (Setup 0 0 64 64) = false /\
  DX (Setup 0 0 64 64) = kOne /\ kOne = 262144.
Proof.
  intros Hn. split; [| repeat split; reflexivity].
  intros y Hy.
  destruct (FracXStart_diagonal n Hn y Hy) as [_ Hb].
  assert (Hend : FracXEnd (Setup 0 0 n n) y = FracXStart (Setup 0 0 n n) y).
  { apply FracXEnd_not_xMajor. now rewrite (Setup_diagonal n Hn). }
  unfold XEnd, XStart, sar32. rewrite Hend.
  rewrite Z.shiftr_div_pow2 by (unfold kFracBits; lia).
  change (2 ^ kFracBits) with 262144. rewrite kOne_eq in Hb.
  split; symmetry; apply Z.div_unique with
    (r := FracXStart (Setup 0 0 n n) y - 262144 * y); lia.
Qed.

Lemma diagonal_spans_witness :
  0 < 3 <= 256 /\
  XStart (Setup 0 0 3 3) 2 = 2 /\ XEnd (Setup 0 0 3 3) 2 = 2.
Proof.
  assert (H3 : 0 < 3 <= 256) by lia.
  split; [exact H3 |].
  apply (diagonal_spans 3 H3). lia.
Defined.

(** ** Positive X-major slopes *)

Section PositiveXMajor.

Variables x0 y0 x1 y1 : Z.
Hypothesis Hx0 : 0 <= x0 <= 256.
Hypothesis Hx1 : 0 <= x1 <= 256.
Hypothesis Hy0 : 0 <= y0.
Hypothesis Hy : y0 < y1.
Hypothesis Hy1 : y1 <= 192.
Hypothesis Hpos : x0 <= x1.
Hypothesis Hmajor : y1 - y0 < x1 - x0.

Let d := increment (x1 - x0) (y1 - y0).

Lemma Setup_positive_xmajor :
  Setup x0 y0 x1 y1 = mk (x0 * kOne + kBias) y0 d false true.
Proof.
  rewrite Setup_in_screen by lia. cbv zeta.
  rewrite (Z.abs_eq (x1 - x0)) by lia.
  destruct (Z.ltb_spec x1 x0); [lia |].
  destruct (Z.ltb_spec (y1 - y0) (x1 - x0)); [| lia].
  cbn [orb]. f_equal. lia.
Qed.

(** The increment of an X-major slope is at least 1.0, and the whole
    displacement stays within the column count. *)
Lemma increment_xmajor :
  kOne <= d /\ (y1 - y0) * d <= (x1 - x0) * kOne /\
  d <= ceil_div (x1 - x0) (y1 - y0) * kOne.
Proof.
  unfold d, increment, ceil_div.
  destruct (Z.eqb_spec (y1 - y0) 0); [lia |].
  destruct (reciprocal_bounds (y1 - y0) ltac:(lia)) as [Hq Hdq].
  rewrite kOne_eq in *.
  set (dy := y1 - y0) in *. set (dx := x1 - x0) in *.
  set (q := 262144 / dy) in *.
  assert (Hc : dx <= ((dx + dy - 1) / dy) * dy).
  { pose proof (Z.div_mod (dx + dy - 1) dy ltac:(lia)).
    pose proof (Z.mod_pos_bound (dx + dy - 1) dy ltac:(lia)). lia. }
  assert (0 <= (dx + dy - 1) / dy) by (apply Z.div_pos; lia).
  repeat split; nia.
Qed.

Lemma FracXStart_positive_xmajor y :
  y0 <= y <= y1 ->
  FracXStart (Setup x0 y0 x1 y1) y = x0 * kOne + kBias + (y - y0) * d /\
  0 <= (y - y0) * d <= 256 * kOne.
Proof.
  intros Hr. rewrite Setup_positive_xmajor.
  unfold FracXStart. cbn [m_y0 m_dx m_x0 m_negative].
  destruct increment_xmajor as (Hd1 & Hd2 & _).
  rewrite kOne_eq, kBias_eq in *.
  assert (Hb : 0 <= (y - y0) * d <= 256 * 262144) by nia.
  unfold sub32, mul32, add32.
  rewrite (to_i32_id (y - y0)) by (apply in_i32_small; lia).
  rewrite (to_i32_id ((y - y0) * d)) by (apply in_i32_small; lia).
  rewrite to_i32_id by (apply in_i32_small; lia).
  split; [reflexivity | exact Hb].
Qed.

Lemma FracXEnd_positive_xmajor y :
  y0 <= y <= y1 ->
  let fs := FracXStart (Setup x0 y0 x1 y1) y in
  FracXEnd (Setup x0 y0 x1 y1) y = fs - fs mod 512 + d - kOne.
Proof.
  intros Hr fs.
  destruct (FracXStart_positive_xmajor y Hr) as [Hfs Hb]. fold fs in Hfs.
  destruct increment_xmajor as (Hd1 & Hd2 & _).
  assert (Hm : m_xMajor (Setup x0 y0 x1 y1) = true)
    by now rewrite Setup_positive_xmajor.
  assert (Hn : m_negative (Setup x0 y0 x1 y1) = false)
    by now rewrite Setup_positive_xmajor.
  assert (Hd : m_dx (Setup x0 y0 x1 y1) = d)
    by now rewrite Setup_positive_xmajor.
  unfold FracXEnd. fold fs. rewrite Hm, Hn, Hd.
  rewrite end_positive_signed, MASK_eq, land_high.
  pose proof (Z.mod_pos_bound fs 512 ltac:(lia)).
  rewrite kOne_eq, kBias_eq in *.
  assert (d <= 256 * 262144) by nia.
  apply to_i32_id, in_i32_small. lia.
Qed.

Lemma progression_positive_xmajor y :
  y0 <= y -> y + 1 <= y1 ->
  let s := Setup x0 y0 x1 y1 in
  XStart s (y + 1) >= XEnd s y - 1 /\
  XStart s (y + 1) <= XStart s y + ceil_div (x1 - x0) (y1 - y0) + 1.
Proof.
  intros Hlo Hhi s. subst s.
  destruct (FracXStart_positive_xmajor y ltac:(lia)) as [Hs _].
  destruct (FracXStart_positive_xmajor (y + 1) ltac:(lia)) as [Hs' _].
  pose proof (FracXEnd_positive_xmajor y ltac:(lia)) as He. cbv zeta in He.
  destruct increment_xmajor as (Hd1 & _ & Hd3).
  unfold XStart, XEnd, sar32. rewrite He.
  rewrite !Z.shiftr_div_pow2 by (unfold kFracBits; lia).
  change (2 ^ kFracBits) with 262144.
  set (fs := FracXStart (Setup x0 y0 x1 y1) y) in *.
  set (fs' := FracXStart (Setup x0 y0 x1 y1) (y + 1)) in *.
  set (c := ceil_div (x1 - x0) (y1 - y0)) in *.
  assert (Hstep : fs' = fs + d) by lia.
  pose proof (Z.mod_pos_bound fs 512 ltac:(lia)).
  rewrite kOne_eq in *.
  split.
  - assert ((fs - fs mod 512 + d - 262144) / 262144 <= fs' / 262144)
      by (apply Z.div_le_mono; lia).
    lia.
  - assert (fs' / 262144 <= (fs + c * 262144) / 262144)
      by (apply Z.div_le_mono; lia).
    rewrite Z.div_add in * by lia. lia.
Qed.

End PositiveXMajor.

(** C6.  For a positive X-major slope between two points of the screen and two
    consecutive scanlines y, y+1 between the endpoints, the next span starts
    no further left than one column before the end of this one, and no further
    right than [ceil(dx_int / dy_int) + 1] columns after its start. *)
Theorem positive_xmajor_progression (x0 y0 x1 y1 y : Z) :
  in_screen x0 y0 -> in_screen x1 y1 ->
  IsXMajor (Setup x0 y0 x1 y1) = true ->
  IsNegative (Setup x0 y0 x1 y1) = false ->
  Z.min y0 y1 <= y -> y + 1 <= Z.max y0 y1 ->
  let s := Setup x0 y0 x1 y1 in
  let dx_int := Z.abs (x1 - x0) in
  let dy_int := Z.abs (y1 - y0) in
  XStart s (y + 1) >= XEnd s y - 1 /\
  XStart s (y + 1) <= XStart s y + ceil_div dx_int dy_int + 1.
Proof.
  intros [Hx0 Hy0] [Hx1 Hy1] Hmaj Hneg Hlo Hhi. cbv zeta.
  assert (Hcases : y0 < y1 \/ y1 < y0) by lia.
  destruct Hcases as [Hlt | Hlt].
  - rewrite Setup_in_screen in Hmaj, Hneg by lia.
    cbv zeta in Hmaj, Hneg. unfold IsXMajor, IsNegative in Hmaj, Hneg.
    cbn [m_xMajor m_negative] in Hmaj, Hneg.
    apply Z.ltb_ge in Hneg. apply Z.ltb_lt in Hmaj.
    rewrite (Z.abs_eq (x1 - x0)) in * by lia.
    rewrite (Z.abs_eq (y1 - y0)) by lia.
    apply progression_positive_xmajor; lia.
  - rewrite (Setup_swap x0 y0 x1 y1) in * by lia.
    rewrite Setup_in_screen in Hmaj, Hneg by lia.
    cbv zeta in Hmaj, Hneg. unfold IsXMajor, IsNegative in Hmaj, Hneg.
    cbn [m_xMajor m_negative] in Hmaj, Hneg.
    apply Z.ltb_ge in Hneg. apply Z.ltb_lt in Hmaj.
    rewrite (Z.abs_eq (x0 - x1)) in Hmaj by lia.
    rewrite (Z.abs_neq (x1 - x0)), (Z.abs_neq (y1 - y0)) by lia.
    replace (- (x1 - x0)) with (x0 - x1) by lia.
    replace (- (y1 - y0)) with (y0 - y1) by lia.
    apply progression_positive_xmajor; lia.
Qed.

Lemma positive_xmajor_progression_witness :
  in_screen 0 0 /\ in_screen 69 49 /\
  XStart (Setup 0 0 69 49) 38 >= XEnd (Setup 0 0 69 49) 37 - 1 /\
  XStart (Setup 0 0 69 49) 38
  <= XStart (Setup 0 0 69 49) 37 + ceil_div (Z.abs (69 - 0)) (Z.abs (49 - 0)) + 1.
Proof.
  assert (H0 : in_screen 0 0) by (unfold in_screen; lia).
  assert (H1 : in_screen 69 49) by (unfold in_screen; lia).
  split; [exact H0 | split; [exact H1 |]].
  apply (positive_xmajor_progression 0 0 69 49 37 H0 H1);
    [reflexivity | reflexivity | simpl; lia | simpl; lia].
Defined.

(** ** Faults in Setup *)

(** Whenever the checked reading succeeds, it agrees with [Setup]. *)
Lemma Setup_checked_sound x0 y0 x1 y1 s :
  Setup_checked x0 y0 x1 y1 = Some s -> Setup x0 y0 x1 y1 = s.
Proof.
  assert (Hchk : forall z v, checked z = Some v -> v = z /\ to_i32 z = z).
  { unfold checked. intros z v H.
    destruct (in_i32b z) eqn:E; [| discriminate].
    apply in_i32b_spec in E. injection H as <-. split; [reflexivity |].
    now apply to_i32_id. }
  unfold Setup_checked, Setup. intros H.
  destruct (if y1 <? y0 then _ else _) as [[[a0 b0] a1] b1].
  unfold checked_shl in H.
  destruct (0 <=? a0); [| discriminate].
  destruct (checked (Z.shiftl a0 kFracBits)) as [m |] eqn:E1; [| discriminate].
  apply Hchk in E1 as [-> E1]. cbn [mbind option_bind] in H.
  unfold shl32, sub32. rewrite E1.
  destruct (a1 <? a0).
  - destruct (checked (Z.shiftl a0 kFracBits - 1)) as [m |] eqn:E2;
      [| discriminate].
    apply Hchk in E2 as [-> E2]. cbn [mbind option_bind] in H. rewrite E2.
    destruct (checked (a0 - a1)) as [dx |] eqn:E3; [| discriminate].
    apply Hchk in E3 as [-> E3]. cbn [mbind option_bind] in H. rewrite E3.
    destruct (checked (b1 - b0)) as [dy |] eqn:E4; [| discriminate].
    apply Hchk in E4 as [-> E4]. cbn [mbind option_bind] in H. rewrite E4.
    destruct (negb (b1 - b0 =? 0)).
    + unfold checked_udiv in H.
      destruct (to_u32 (b1 - b0) =? 0); [discriminate |].
      cbn [mbind option_bind] in H. now injection H.
    + cbn [mbind option_bind] in H. now injection H.
  - cbn [mbind option_bind] in H.
    destruct (checked (a1 - a0)) as [dx |] eqn:E3; [| discriminate].
    apply Hchk in E3 as [-> E3]. cbn [mbind option_bind] in H. rewrite E3.
    destruct (checked (b1 - b0)) as [dy |] eqn:E4; [| discriminate].
    apply Hchk in E4 as [-> E4]. cbn [mbind option_bind] in H. rewrite E4.
    destruct (negb (b1 - b0 =? 0)).
    + unfold checked_udiv in H.
      destruct (to_u32 (b1 - b0) =? 0); [discriminate |].
      cbn [mbind option_bind] in H. now injection H.
    + cbn [mbind option_bind] in H. now injection H.
Qed.

Lemma checked_ok z : in_i32 z -> checked z = Some z.
Proof.
  intros Hz. unfold checked. apply in_i32b_spec in Hz. now rewrite Hz.
Qed.

Lemma DX_nonneg_in_screen x0 y0 x1 y1 :
  in_screen x0 y0 -> in_screen x1 y1 -> 0 <= DX (Setup x0 y0 x1 y1).
Proof.
  intros [Hx0 Hy0] [Hx1 Hy1].
  destruct (Z.le_gt_cases y0 y1) as [Hle | Hgt].
  - rewrite Setup_in_screen by lia. cbv zeta. unfold DX. cbn [m_dx].
    apply increment_bounds; lia.
  - rewrite Setup_swap, Setup_in_screen by lia. cbv zeta. unfold DX. cbn [m_dx].
    apply increment_bounds; lia.
Qed.

(** Top-to-bottom endpoints of the screen pass every check. *)
Lemma Setup_checked_succeeds x0 y0 x1 y1 :
  in_screen x0 y0 -> in_screen x1 y1 -> is_Some (Setup_checked x0 y0 x1 y1).
Proof.
  intros [Hx0 Hy0] [Hx1 Hy1]. unfold Setup_checked, checked_shl, checked_udiv.
  assert (Hshl : forall a, 0 <= a <= 256 -> Z.shiftl a kFracBits = a * 262144).
  { intros a _. now rewrite Z.shiftl_mul_pow2 by (unfold kFracBits; lia). }
  assert (Hu : forall dy, 0 <= dy <= 192 -> dy <> 0 -> (to_u32 dy =? 0) = false).
  { intros dy Hdy Hne. rewrite to_u32_id by (rewrite modulus_eq; lia).
    now apply Z.eqb_neq. }
  assert (Hsome : forall v : Slope.t, is_Some (Some v)) by eauto.
  destruct (Z.ltb_spec y1 y0) as [Hy | Hy];
    [destruct (Z.leb_spec 0 x1); [| lia]; destruct (Z.ltb_spec x0 x1)
    |destruct (Z.leb_spec 0 x0); [| lia]; destruct (Z.ltb_spec x1 x0)];
    rewrite Hshl by lia;
    repeat match goal with
           | |- context [checked ?z] =>
               rewrite (checked_ok z) by (apply in_i32_small; lia);
               cbn [mbind option_bind]
           end;
    match goal with
    | |- context [negb (?d =? 0)] =>
        destruct (Z.eqb_spec d 0); cbn [negb mbind option_bind];
        [| rewrite Hu by lia; cbn [mbind option_bind]]
    end;
    apply Hsome.
Qed.

(** C7.  For two distinct endpoints of the screen, [Setup] completes without
    an arithmetic fault: no operation on [int32_t] operands leaves the 32-bit
    range and the divisor is never zero, so the checked reading returns the
    slope that [Setup] computes; and that slope has a non-negative increment. *)
Theorem Setup_total_in_screen (x0 y0 x1 y1 : Z) :
  in_screen x0 y0 -> in_screen x1 y1 -> (x0, y0) <> (x1, y1) ->
  exists s, Setup_checked x0 y0 x1 y1 = Some s /\
            Setup x0 y0 x1 y1 = s /\
            DX s >= 0.
Proof.
  intros H0 H1 _.
  destruct (Setup_checked_succeeds x0 y0 x1 y1 H0 H1) as [s Hs].
  exists s. split; [exact Hs |].
  pose proof (Setup_checked_sound _ _ _ _ _ Hs) as <-.
  split; [reflexivity |].
  apply Z.le_ge. now apply DX_nonneg_in_screen.
Qed.

Lemma Setup_total_in_screen_witness :
  in_screen 256 192 /\ in_screen 0 0 /\ (256, 192) <> (0, 0) /\
  exists s, Setup_checked 256 192 0 0 = Some s /\
            Setup 256 192 0 0 = s /\ DX s >= 0.
Proof.
  assert (H0 : in_screen 256 192) by (unfold in_screen; lia).
  assert (H1 : in_screen 0 0) by (unfold in_screen; lia).
  assert (Hne : (256, 192) <> (0, 0)) by discriminate.
  split; [exact H0 | split; [exact H1 | split; [exact Hne |]]].
  exact (Setup_total_in_screen 256 192 0 0 H0 H1 Hne).
Defined.

(** ** The harness: table accesses *)

Import Capture Harness.

Section HarnessBounds.

Variable data : Data.

Lemma foldl_invariant {A B : Type} (P : A -> Prop) (Q : B -> Prop)
      (f : A -> B -> A) (l : list B) (a : A) :
  P a -> Forall Q l -> (forall a b, P a -> Q b -> P (f a b)) ->
  P (foldl f a l).
Proof.
  intros Ha Hl Hf. revert a Ha.
  induction Hl as [| b l Hb _ IH]; intros a Ha; cbn [foldl]; auto.
Qed.

Lemma add32_succ y : 0 <= y <= 193 -> add32 y 1 = y + 1.
Proof. intros Hy. unfold add32. apply to_i32_id, in_i32_small. lia. Qed.

(** The scanline loop stays inside the table as long as it starts on the
    screen and ends by scanline 192: that last scanline is either skipped or
    ends the loop before the access. *)
Lemma scanlines_in_bounds testX testY slope n y mismatch :
  0 <= testX <= 256 -> 0 <= testY <= 192 ->
  0 <= y -> y + Z.of_nat n <= 193 ->
  Forall lookup_in_bounds
         (fst (scanlines data testX testY slope n y mismatch)).
Proof.
  intros HX HY. revert y mismatch.
  induction n as [| n IH]; intros y mismatch Hy0 Hy1; cbn [scanlines].
  - constructor.
  - assert (Hreport : forall o : list event * bool,
              o = (let '(banner, m) := foundMismatch mismatch in
                   (banner ++ [SpanMissing testX testY y], m)) \/
              (exists e, o = (let '(banner, m) := foundMismatch mismatch in
                              (banner ++ [e], m)) /\ lookup_in_bounds e) \/
              o = ([], mismatch) ->
              Forall lookup_in_bounds (fst o)).
    { intros o [-> | [(e & -> & He) | ->]]; unfold foundMismatch;
        destruct mismatch; cbn [fst app]; repeat constructor; exact He. }
    assert (Hstep : forall (o : list event * bool),
              Forall lookup_in_bounds (fst o) -> y <> 192 ->
              Forall lookup_in_bounds
                (fst (let '(out, m) := o in
                      let '(rest, m) :=
                        scanlines data testX testY slope n (add32 y 1) m in
                      (Lookup testY testX y :: out ++ rest, m)))).
    { intros [out m] Hout Hne. rewrite add32_succ by lia.
      pose proof (IH (y + 1) m ltac:(lia) ltac:(lia)) as Hrest.
      destruct (scanlines data testX testY slope n (y + 1) m) as [rest m'].
      cbn [fst] in *. constructor.
      - cbn [lookup_in_bounds]. lia.
      - apply Forall_app. split; assumption. }
    destruct (IsNegative slope); cbv beta iota zeta.
    all: destruct (256 <=? _);
      [ rewrite add32_succ by lia; apply IH; lia |].
    all: destruct (Z.eqb_spec y 192) as [E | E]; [cbn [fst]; constructor |].
    all: apply Hstep; [| exact E].
    all: apply Hreport.
    all: destruct (negb (exists_ _)); [left; reflexivity | right].
    all: destruct (_ || _); [left | right; reflexivity].
    all: eexists; split; [reflexivity | exact I].
Qed.

Lemma testSlope_in_bounds testX testY x0 y0 x1 y1 mismatch :
  0 <= testX <= 256 -> 0 <= testY <= 192 ->
  0 <= y0 <= 192 -> 0 <= y1 <= 192 ->
  Forall lookup_in_bounds
         (fst (testSlope data testX testY x0 y0 x1 y1 mismatch)).
Proof.
  intros HX HY Hy0 Hy1. unfold testSlope.
  destruct (Z.ltb_spec y1 y0) as [Hlt | Hge].
  - destruct (Z.eqb_spec y1 y0) as [E | _]; [lia |].
    apply scanlines_in_bounds; lia.
  - destruct (Z.eqb_spec y0 y1) as [E | E].
    + rewrite add32_succ by lia. apply scanlines_in_bounds; lia.
    + apply scanlines_in_bounds; lia.
Qed.

(** A sweep position on the bottom edge against an anchor on the bottom
    edge: the loop runs for scanline 192 alone and never reaches the
    table. *)
Lemma testSlope_bottom_edge testX testY x0 x1 mismatch :
  testSlope data testX testY x0 192 x1 192 mismatch = ([], mismatch).
Proof.
  unfold testSlope. cbn [Z.ltb Z.eqb Z.compare Pos.compare Pos.compare_cont
                         Pos.eqb].
  change (add32 192 1) with 193.
  change (Z.to_nat (193 - 192)) with 1%nat.
  cbn [scanlines].
  destruct (IsNegative _); cbv beta iota zeta;
    destruct (256 <=? _); reflexivity.
Qed.

Lemma testSlopes_in_bounds x0 y0 :
  0 <= y0 <= 192 -> Forall lookup_in_bounds (testSlopes data x0 y0).
Proof.
  intros Hy0. unfold testSlopes.
  set (P := fun acc : list event * bool => Forall lookup_in_bounds (fst acc)).
  match goal with
  | |- context [foldl ?f ?a ?l] => assert (Hall : P (foldl f a l))
  end.
  { apply (foldl_invariant P (fun y1 => 0 <= y1 <= 192)).
    - constructor.
    - apply Forall_forall. intros y1 Hin. apply elem_of_seqZ in Hin. lia.
    - intros acc y1 Hacc Hy1.
      apply (foldl_invariant P (fun x1 => 0 <= x1 <= 256)).
      + exact Hacc.
      + apply Forall_forall. intros x1 Hin. apply elem_of_seqZ in Hin. lia.
      + intros [out m] x1 Hout Hx1.
        pose proof (testSlope_in_bounds x1 y1 x0 y0 x1 y1 m Hx1 Hy1 Hy0 Hy1)
          as Hts.
        destruct (testSlope data x1 y1 x0 y0 x1 y1 m) as [o m'].
        unfold P in *. cbn [fst] in *. apply Forall_app. split; assumption. }
  destruct (foldl _ _ _) as [out m]. unfold P in Hall. cbn [fst] in Hall.
  apply Forall_app. split; [exact Hall |].
  destruct m; repeat constructor.
Qed.

End HarnessBounds.

(** C10.  Whatever the capture, every access of the test loop to the table of
    captured spans is in bounds: the sweep indices are within the 193 x 257
    table and the scanline index is at most 191.  The scanline 192 that the
    [y0 == y1] adjustment adds for a sweep position on the bottom edge never
    reaches the table: either the skip for [startScrX >= 256] or the break for
    [y == 192] comes first. *)
Theorem test_lookups_in_bounds (data : Data) :
  Forall lookup_in_bounds (test data) /\
  forall testX testY x0 x1 mismatch,
    testSlope data testX testY x0 192 x1 192 mismatch = ([], mismatch).
Proof.
  split.
  - unfold test.
    destruct (type data) as [| [[p | p |] | [p | p |] |] | p];
      try constructor; apply testSlopes_in_bounds; lia.
  - apply testSlope_bottom_edge.
Qed.

(** The test loop does reach the table: the first sweep position of the
    top-left capture looks up scanline 0 of entry (0, 0). *)
Example testSlope_first_lookup :
  testSlope (mkData 0 0 0 0 0 ∅) 0 0 0 0 0 0 false
  = ([Lookup 0 0 0; FoundMismatch; SpanMissing 0 0 0], true).
Proof. vm_compute. reflexivity. Qed.

(** ** The capture parser: rejected files *)

Section CaptureFacts.

Lemma for_each_app {A S : Type} (body : A -> S -> flow S) l1 l2 s :
  for_each body (l1 ++ l2) s =
    match for_each body l1 s with
    | Next s' => for_each body l2 s'
    | Return m => Return m
    | OutOfBounds => OutOfBounds
    end.
Proof.
  revert s. induction l1 as [| a l1 IH]; intros s; cbn [for_each app].
  - reflexivity.
  - destruct (body a s); auto.
Qed.

(** The two nested loops visit the sweep positions in the order of
    [sweep]. *)
Lemma for_each_nested {S : Type} (body : Z -> Z -> S -> flow S) xs ys s :
  for_each (fun y => for_each (fun x => body x y) xs) ys s =
  for_each (fun p => body (fst p) (snd p)) (y ← ys; x ← xs; [(x, y)]) s.
Proof.
  revert s. induction ys as [| y ys IH]; intros s.
  - reflexivity.
  - rewrite bind_cons, for_each_app. cbn [for_each].
    assert (Hrow : forall s, for_each (fun p => body (fst p) (snd p))
                                      (x ← xs; [(x, y)]) s
                             = for_each (fun x => body x y) xs s).
    { clear. induction xs as [| x xs IHx]; intros s.
      - reflexivity.
      - rewrite bind_cons. cbn [app for_each fst snd].
        destruct (body x y s); auto. }
    rewrite Hrow. destruct (for_each _ xs s); auto.
Qed.

Lemma read_enough n bs :
  (n <= length bs)%nat ->
  read n (mkStream bs false) = (take n bs, mkStream (drop n bs) false).
Proof.
  intros Hn. unfold read. cbn [failbit pending].
  apply Nat.leb_le in Hn. now rewrite Hn.
Qed.

(** A block of spans inside the table, on a stream that holds all of it,
    consumes three bytes for each scanline. *)
Lemma read_spans_enough sweepY sweepX l :
  forall bs tbl,
    Forall (fun scanY => in_table sweepY sweepX scanY = true) l ->
    (3 * length l <= length bs)%nat ->
    exists tbl',
      for_each (read_span sweepY sweepX) l (mkStream bs false, tbl)
      = Next (mkStream (drop (3 * length l) bs) false, tbl').
Proof.
  induction l as [| scanY l IH]; intros bs tbl Hin Hlen.
  - exists tbl. cbn [for_each length]. now rewrite Nat.mul_0_r, drop_0.
  - apply Forall_cons in Hin as [Hhd Htl]. cbn [length] in Hlen.
    cbn [for_each]. unfold read_span at 1. rewrite Hhd.
    rewrite (read_enough 1 bs) by lia.
    rewrite (read_enough 1 (drop 1 bs)) by (rewrite length_drop; lia).
    rewrite (read_enough 1 (drop 1 (drop 1 bs)))
      by (rewrite !length_drop; lia).
    rewrite !drop_drop. cbn [Nat.add].
    destruct (IH (drop 3 bs) (<[(sweepY, sweepX, scanY) :=
                                mkSpan
                                  (load_bool (take 1 bs)
                                     (exists_ (span_at tbl sweepY sweepX scanY)))
                                  (load_u8 (take 1 (drop 1 bs))
                                     (start (span_at tbl sweepY sweepX scanY)))
                                  (load_u8 (take 1 (drop 2 bs))
                                     (end_ (span_at tbl sweepY sweepX scanY)))]> tbl)
                 Htl) as [tbl' Htbl'].
    { rewrite length_drop. lia. }
    exists tbl'. rewrite Htbl', drop_drop. cbn [length].
    now replace (3 * S (length l))%nat with (3 + 3 * length l)%nat by lia.
Qed.

Lemma record_range_in_table ty pX pY :
  0 <= pX <= 256 -> 0 <= pY <= 192 ->
  Forall (fun scanY => in_table pY pX scanY = true)
         (seqZ (record_startY ty pY)
               (record_endY ty pY - record_startY ty pY + 1)).
Proof.
  intros HX HY. apply Forall_forall. intros scanY Hin.
  apply elem_of_seqZ in Hin.
  assert (0 <= scanY <= 191).
  { revert Hin. unfold record_startY, record_endY.
    destruct (bottom ty); cbv zeta;
      repeat match goal with
             | |- context [192 <=? ?v] => destruct (Z.leb_spec 192 v)
             end; lia. }
  unfold in_table.
  repeat (apply andb_true_intro; split); apply Z.leb_le; lia.
Qed.

(** The record loop, over the sweep positions still to visit, returns with
    "Invalid file" when the record [k] positions ahead carries the wrong
    coordinate pair. *)
Lemma records_reject ty :
  forall (l : list (Z * Z)) (k : nat) (st : parser) (bs : list byte),
    input st = mkStream bs false ->
    (k < length l)%nat ->
    let lbls := (prevX st, prevY st) :: l in
    Forall (fun l => 0 <= fst l <= 256 /\ 0 <= snd l <= 192) (take k lbls) ->
    forall pX pY cx cy,
      lbls !! k = Some (pX, pY) ->
      bs !! sum_list (record_size ty <$> take k lbls) = Some cx ->
      bs !! S (sum_list (record_size ty <$> take k lbls)) = Some cy ->
      byte_val cx <> pX mod 256 \/ byte_val cy <> pY mod 256 ->
      for_each (fun p => read_record ty (fst p) (snd p)) l st
      = Return InvalidFile.
Proof.
  induction l as [| [x y] l IH]; intros k st bs Hin Hk lbls Htab pX pY cx cy
                                        Hlbl Hcx Hcy Hne;
    cbn [length] in Hk; [lia |].
  cbn [for_each fst snd]. unfold read_record at 1. rewrite Hin.
  assert (Hlen2 : (2 <= length bs)%nat).
  { apply lookup_lt_Some in Hcy. lia. }
  rewrite read_enough by exact Hlen2.
  destruct bs as [| c0 [| c1 bs']]; cbn [length] in Hlen2; try lia.
  cbn [take drop load_u8 fst snd].
  destruct k as [| k].
  - (* the record at hand *)
    subst lbls. cbn in Hlbl, Hcx, Hcy.
    injection Hlbl as <- <-. injection Hcx as <-. injection Hcy as <-.
    destruct (Z.eqb_spec (byte_val c0) (prevX st mod 256)) as [E0 | E0];
      [| reflexivity].
    destruct (Z.eqb_spec (byte_val c1) (prevY st mod 256)) as [E1 | E1];
      [| reflexivity].
    destruct Hne; contradiction.
  - (* a record further on *)
    destruct (negb _ || negb _); [reflexivity |].
    subst lbls. rewrite firstn_cons in Htab, Hcx, Hcy.
    rewrite fmap_cons in Hcx, Hcy. cbn [sum_list sum_list_with] in Hcx, Hcy.
    unfold id in Hcx, Hcy.
    apply Forall_cons in Htab as [[HpX HpY] Htab]. cbn [fst snd] in HpX, HpY.
    set (n := Z.to_nat (record_endY ty (prevY st)
                        - record_startY ty (prevY st) + 1)) in *.
    assert (Hsize : record_size ty (prevX st, prevY st) = (2 + 3 * n)%nat)
      by reflexivity.
    rewrite Hsize in Hcx, Hcy.
    assert (Hlen : (3 * n <= length bs')%nat).
    { apply lookup_lt_Some in Hcx. cbn [length] in Hcx. lia. }
    unfold for_range.
    destruct (read_spans_enough (prevY st) (prevX st)
                (seqZ (record_startY ty (prevY st))
                      (record_endY ty (prevY st)
                       - record_startY ty (prevY st) + 1))
                bs' (table st)
                (record_range_in_table ty _ _ HpX HpY))
      as [tbl' Hspans].
    { rewrite length_seqZ. exact Hlen. }
    rewrite drop_0, Hspans, length_seqZ. fold n.
    eapply (IH k _ (drop (3 * n) bs')).
    + reflexivity.
    + lia.
    + exact Htab.
    + exact Hlbl.
    + rewrite lookup_drop. exact Hcx.
    + rewrite lookup_drop, Nat.add_succ_r. exact Hcy.
    + exact Hne.
Qed.

(** A buffer that holds the whole header leaves the stream at offset 7. *)
Lemma read_header_enough bs :
  (7 <= length bs)%nat ->
  snd (read_header (mkStream bs false)) = mkStream (drop 7 bs) false.
Proof.
  intros Hlen.
  do 7 (destruct bs as [| ? bs]; [cbn [length] in Hlen; lia |]).
  reflexivity.
Qed.

End CaptureFacts.

(** C8.  [readFile] gives back a null pointer, and so no capture data for the
    test loop, whenever the type byte is outside {0,1,2,3}, reported as an
    invalid type, and whenever the type is valid and some record of the file,
    reached through table entries that exist, carries a coordinate pair other
    than [((u8)prevX, (u8)prevY)], reported as an invalid file. *)
Theorem readFile_abandons (coords0 : Z * Z) (buffer : list byte) :
  ~ (0 <= capture_type buffer <= 3) \/ (exists k, coord_mismatch buffer k) ->
  readFile coords0 (Some buffer)
  = Returned (if (0 <=? capture_type buffer) && (capture_type buffer <=? 3)
              then InvalidFile
              else InvalidType (capture_type buffer))
             None.
Proof.
  intros H. unfold readFile, capture_type, coord_mismatch in *.
  pose proof (read_header_enough buffer) as Hs.
  destruct (read_header (mkStream buffer false))
    as [[[[[ty mnX] mxX] mnY] mxY] s] eqn:Hh.
  cbn [fst snd] in *.
  destruct ((0 <=? ty) && (ty <=? 3)) eqn:Ety; [| reflexivity].
  destruct H as [Hbad | [k Hk]].
  { apply andb_true_iff in Ety as [E0 E3].
    apply Z.leb_le in E0, E3. lia. }
  destruct Hk as (Hlt & Htab & pX & pY & cx & cy & Hlbl & Hcx & Hcy & Hne).
  unfold record_offset, labels in *.
  assert (Hlen : (7 <= length buffer)%nat).
  { apply lookup_lt_Some in Hcx. lia. }
  rewrite (Hs Hlen).
  unfold for_range.
  rewrite (for_each_nested (fun x y => read_record ty x y)).
  fold (sweep mnX mxX mnY mxY).
  rewrite (records_reject ty (sweep mnX mxX mnY mxY) k
             (mkParser (mkStream (drop 7 buffer) false) coords0 0 0 ∅)
             (drop 7 buffer) eq_refl Hlt Htab pX pY cx cy Hlbl).
  - reflexivity.
  - rewrite lookup_drop. exact Hcx.
  - rewrite lookup_drop, Nat.add_succ_r. exact Hcy.
  - exact Hne.
Qed.

Lemma readFile_abandons_witness :
  coord_mismatch
    [x00; x00; x00; x01; x00; x00; x00; x00; x00; x01; x05; x05; x01; x00] 1 /\
  readFile (0, 0)
    (Some [x00; x00; x00; x01; x00; x00; x00; x00; x00; x01; x05; x05; x01; x00])
  = Returned InvalidFile None.
Proof.
  assert (Hk : coord_mismatch
                 [x00; x00; x00; x01; x00; x00; x00; x00; x00; x01; x05; x05; x01; x00] 1).
  { unfold coord_mismatch. cbn -[Z.modulo sweep labels record_offset].
    split; [vm_compute; lia |].
    split; [repeat constructor; cbn; lia |].
    exists 0, 0, x01, x00. repeat split. left. vm_compute. discriminate. }
  split; [exact Hk |].
  exact (readFile_abandons (0, 0)
           [x00; x00; x00; x01; x00; x00; x00; x00; x00; x01; x05; x05; x01; x00]
           (or_intror (ex_intro _ 1%nat Hk))).
Defined.

(** An invalid type byte is reported before any record is read. *)
Example readFile_invalid_type :
  readFile (0, 0) (Some [x04; x00; x00; x00; x01; x00; x00])
  = Returned (InvalidType 4) None.
Proof. reflexivity. Qed.

(** ** The interpolator on the screen: positions, order and gaps *)

Lemma to_i32_wraps z : exists k, to_i32 z = z + modulus * k.
Proof.
  exists (- ((z + 2 ^ 31) / modulus)). unfold to_i32.
  pose proof (Z.div_mod (z + 2 ^ 31) modulus ltac:(discriminate)). lia.
Qed.

Lemma congruent_mod a b c : a = b + modulus * c -> a mod modulus = b mod modulus.
Proof.
  intros ->. rewrite Z.mul_comm. apply Z_mod_plus_full.
Qed.

(** X1.  In 32-bit arithmetic the closed form of [FracXStart] steps like an
    incremental interpolator: one scanline further down the position moves by
    the increment, to the right on a positive slope and to the left on a
    negative one.  This holds for every slope and scanline, wrap-around
    included. *)
Theorem FracXStart_step (s : Slope.t) (y : Z) :
  FracXStart s (y + 1) =
    if IsNegative s then sub32 (FracXStart s y) (DX s)
    else add32 (FracXStart s y) (DX s).
Proof.
  unfold FracXStart, IsNegative, DX, sub32, add32, mul32.
  destruct (to_i32_wraps (y + 1 - m_y0 s)) as [k1 ->].
  destruct (to_i32_wraps ((y + 1 - m_y0 s + modulus * k1) * m_dx s)) as [k2 ->].
  destruct (to_i32_wraps (y - m_y0 s)) as [k3 ->].
  destruct (to_i32_wraps ((y - m_y0 s + modulus * k3) * m_dx s)) as [k4 ->].
  destruct (m_negative s); apply to_i32_cong.
  - destruct (to_i32_wraps
                (m_x0 s - ((y - m_y0 s + modulus * k3) * m_dx s + modulus * k4)))
      as [k5 ->].
    apply congruent_mod with (c := - k1 * m_dx s - k2 + k3 * m_dx s + k4 - k5).
    ring.
  - destruct (to_i32_wraps
                (m_x0 s + ((y - m_y0 s + modulus * k3) * m_dx s + modulus * k4)))
      as [k5 ->].
    apply congruent_mod with (c := k1 * m_dx s + k2 - k3 * m_dx s - k4 - k5).
    ring.
Qed.

Lemma shift_between fs a b :
  a * kOne <= fs < (b + 1) * kOne -> a <= sar32 fs kFracBits <= b.
Proof.
  rewrite kOne_eq. intros H. unfold sar32.
  rewrite Z.shiftr_div_pow2 by (unfold kFracBits; lia).
  change (2 ^ kFracBits) with 262144. split.
  - apply Z.div_le_lower_bound; lia.
  - apply Z.lt_succ_r. apply Z.div_lt_upper_bound; lia.
Qed.

Lemma shift_mono a b : a <= b -> sar32 a kFracBits <= sar32 b kFracBits.
Proof.
  intros H. unfold sar32.
  rewrite !Z.shiftr_div_pow2 by (unfold kFracBits; lia).
  apply Z.div_le_mono; [reflexivity | exact H].
Qed.

Lemma shift_add_one a : sar32 (a + kOne) kFracBits = sar32 a kFracBits + 1.
Proof.
  unfold sar32. rewrite !Z.shiftr_div_pow2 by (unfold kFracBits; lia).
  change (2 ^ kFracBits) with 262144. rewrite kOne_eq.
  replace (a + 262144) with (a + 1 * 262144) by lia.
  now rewrite Z.div_add by lia.
Qed.

(** Clearing or setting the low nine bits does not change the pixel. *)
Lemma shift_mask_low a :
  sar32 (a - a mod 512) kFracBits = sar32 a kFracBits /\
  sar32 (a + (511 - a mod 512)) kFracBits = sar32 a kFracBits.
Proof.
  unfold sar32. rewrite !Z.shiftr_div_pow2 by (unfold kFracBits; lia).
  change (2 ^ kFracBits) with 262144.
  pose proof (Z.div_mod a 262144 ltac:(lia)) as Ha.
  pose proof (Z.mod_pos_bound a 262144 ltac:(lia)) as Hb.
  pose proof (Z.mod_pos_bound a 512 ltac:(lia)) as Hc.
  assert (Hm : a mod 512 = (a mod 262144) mod 512).
  { replace 262144 with (512 * 512) by lia.
    rewrite Z.rem_mul_r by lia.
    rewrite (Z.mul_comm 512), Z_mod_plus_full.
    now rewrite Z.mod_mod by lia. }
  pose proof (Z.div_mod (a mod 262144) 512 ltac:(lia)) as Hd.
  pose proof (Z.mod_pos_bound (a mod 262144) 512 ltac:(lia)) as He.
  assert (Hq : 0 <= (a mod 262144) / 512 <= 511).
  { split; [apply Z.div_pos; lia |].
    apply Z.lt_succ_r. apply Z.div_lt_upper_bound; lia. }
  split; symmetry.
  - apply Z.div_unique with (r := a mod 262144 - a mod 512); lia.
  - apply Z.div_unique with (r := a mod 262144 + (511 - a mod 512)); lia.
Qed.

Section ScreenSlope.

Variables x0 y0 x1 y1 : Z.
Hypothesis Hx0 : 0 <= x0 <= 256.
Hypothesis Hx1 : 0 <= x1 <= 256.
Hypothesis Hy0 : 0 <= y0.
Hypothesis Hy : y0 <= y1.
Hypothesis Hy1 : y1 <= 256.

Let dx := Z.abs (x1 - x0).
Let dy := y1 - y0.
Let d := increment dx dy.

Lemma displacement_bounds k : 0 <= k <= dy -> 0 <= k * d <= dx * kOne.
Proof.
  intros Hk. unfold d, increment.
  assert (0 <= dx) by apply Z.abs_nonneg.
  destruct (Z.eqb_spec dy 0) as [E | E].
  - assert (k = 0) by lia. subst k. rewrite kOne_eq. lia.
  - assert (Hdy : 0 < dy <= 256) by (unfold dy in *; lia).
    destruct (reciprocal_bounds dy Hdy) as [Hq Hdq].
    rewrite kOne_eq in *.
    assert (0 <= k * (262144 / dy) <= 262144) by nia.
    replace (k * (dx * (262144 / dy))) with (dx * (k * (262144 / dy))) by ring.
    nia.
Qed.

Lemma fields_screen :
  m_y0 (Setup x0 y0 x1 y1) = y0 /\
  m_dx (Setup x0 y0 x1 y1) = d /\
  m_negative (Setup x0 y0 x1 y1) = (x1 <? x0) /\
  m_xMajor (Setup x0 y0 x1 y1) = (dy <? dx) /\
  (if x1 <? x0
   then x0 * kOne - 1 - kBias <= m_x0 (Setup x0 y0 x1 y1) <= x0 * kOne - 1
   else x0 * kOne <= m_x0 (Setup x0 y0 x1 y1) <= x0 * kOne + kBias).
Proof.
  rewrite Setup_in_screen by lia. cbv zeta. cbn [m_y0 m_dx m_negative m_xMajor m_x0].
  fold dx dy d. repeat split.
  rewrite kBias_eq. destruct (x1 <? x0), ((dy <? dx) || (dx =? dy)); lia.
Qed.

(** Between the endpoints [FracXStart] is the exact, unwrapped position. *)
Lemma FracXStart_screen y :
  y0 <= y <= y1 ->
  FracXStart (Setup x0 y0 x1 y1) y =
    if x1 <? x0 then m_x0 (Setup x0 y0 x1 y1) - (y - y0) * d
    else m_x0 (Setup x0 y0 x1 y1) + (y - y0) * d.
Proof.
  intros Hr. destruct fields_screen as (Ey & Ed & En & _ & Hm).
  unfold FracXStart. rewrite Ey, Ed, En.
  pose proof (displacement_bounds (y - y0) ltac:(unfold dy; lia)) as Hb.
  assert (0 <= dx <= 256) by (unfold dx; lia).
  rewrite kOne_eq, kBias_eq in *.
  unfold sub32, mul32, add32.
  rewrite (to_i32_id (y - y0)) by (apply in_i32_small; lia).
  rewrite (to_i32_id ((y - y0) * d)) by (apply in_i32_small; lia).
  destruct (x1 <? x0); apply to_i32_id, in_i32_small; lia.
Qed.

Lemma FracXStart_screen_range y :
  y0 <= y <= y1 ->
  - kOne <= FracXStart (Setup x0 y0 x1 y1) y <= 257 * kOne.
Proof.
  intros Hr. rewrite (FracXStart_screen y Hr).
  destruct fields_screen as (_ & _ & _ & _ & Hm).
  pose proof (displacement_bounds (y - y0) ltac:(unfold dy; lia)) as Hb.
  rewrite kOne_eq, kBias_eq in *.
  destruct (Z.ltb_spec x1 x0).
  - assert (dx = x0 - x1) by (unfold dx; lia). lia.
  - assert (dx = x1 - x0) by (unfold dx; lia). lia.
Qed.

(** Between the endpoints [FracXEnd] is exact as well. *)
Lemma FracXEnd_screen y :
  y0 <= y <= y1 ->
  FracXEnd (Setup x0 y0 x1 y1) y =
    let fs := FracXStart (Setup x0 y0 x1 y1) y in
    if dy <? dx then
      if x1 <? x0 then fs + (511 - fs mod 512) - d + kOne
      else fs - fs mod 512 + d - kOne
    else fs.
Proof.
  intros Hr. destruct fields_screen as (_ & Ed & En & Em & _).
  pose proof (FracXStart_screen_range y Hr) as Hfs.
  unfold FracXEnd. rewrite Em, En, Ed. cbv zeta.
  set (fs := FracXStart (Setup x0 y0 x1 y1) y) in *.
  pose proof (Z.mod_pos_bound fs 512 ltac:(lia)).
  assert (0 <= d <= 256 * kOne).
  { apply increment_bounds; unfold dx, dy; lia. }
  rewrite kOne_eq in *.
  destruct (dy <? dx); [| reflexivity].
  destruct (x1 <? x0).
  - rewrite end_negative_signed. change (Z.lnot MASK) with 511.
    rewrite land_low9, kOne_eq. apply to_i32_id, in_i32_small. lia.
  - rewrite end_positive_signed, MASK_eq, land_high, kOne_eq.
    apply to_i32_id, in_i32_small. lia.
Qed.

(** An X-major slope advances by at least one pixel per scanline. *)
Lemma increment_ge_one : dy < dx -> kOne <= d.
Proof.
  intros Hm. unfold d, increment.
  destruct (Z.eqb_spec dy 0) as [E | E].
  - rewrite kOne_eq. nia.
  - destruct (reciprocal_bounds dy ltac:(unfold dy in *; lia)) as [Hq Hdq].
    rewrite kOne_eq in *. nia.
Qed.

End ScreenSlope.

Lemma shift_sub_one a : sar32 (a - kOne) kFracBits = sar32 a kFracBits - 1.
Proof.
  pose proof (shift_add_one (a - kOne)) as H.
  replace (a - kOne + kOne) with a in H by lia. lia.
Qed.

(** Reflection of a fixed-point position about [w] columns. *)
Lemma shift_reflect w a :
  sar32 (w * kOne - 1 - a) kFracBits = w - 1 - sar32 a kFracBits.
Proof.
  unfold sar32. rewrite !Z.shiftr_div_pow2 by (unfold kFracBits; lia).
  change (2 ^ kFracBits) with 262144. rewrite kOne_eq.
  pose proof (Z.div_mod a 262144 ltac:(lia)) as Ha.
  pose proof (Z.mod_pos_bound a 262144 ltac:(lia)) as Hb.
  symmetry. apply Z.div_unique with (r := 262143 - a mod 262144); lia.
Qed.

Lemma mod512_reflect w a : (w * kOne - 1 - a) mod 512 = 511 - a mod 512.
Proof.
  rewrite kOne_eq.
  pose proof (Z.div_mod a 512 ltac:(lia)) as Ha.
  pose proof (Z.mod_pos_bound a 512 ltac:(lia)) as Hb.
  symmetry.
  apply Z.mod_unique with (q := w * 512 - 1 - a / 512); lia.
Qed.

Section ScreenSpans.

Variables x0 y0 x1 y1 : Z.
Hypothesis Hx0 : 0 <= x0 <= 256.
Hypothesis Hx1 : 0 <= x1 <= 256.
Hypothesis Hy0 : 0 <= y0.
Hypothesis Hy : y0 <= y1.
Hypothesis Hy1 : y1 <= 256.

Let s := Setup x0 y0 x1 y1.

Lemma flags_top_down :
  IsNegative s = (x1 <? x0) /\ IsXMajor s = (y1 - y0 <? Z.abs (x1 - x0)).
Proof.
  destruct (fields_screen x0 y0 x1 y1 Hx0 Hx1 Hy0 Hy Hy1)
    as (_ & _ & En & Em & _).
  split; assumption.
Qed.

Lemma XStart_top_down y :
  y0 <= y <= y1 ->
  let e := if IsNegative s then 1 else 0 in
  Z.min x0 x1 - e <= XStart s y <= Z.max x0 x1 - e.
Proof.
  intros Hr. destruct flags_top_down as [En _]. rewrite En. cbv zeta.
  unfold XStart, s. rewrite (FracXStart_screen x0 y0 x1 y1) by assumption.
  destruct (fields_screen x0 y0 x1 y1 Hx0 Hx1 Hy0 Hy Hy1)
    as (_ & _ & _ & _ & Hm).
  assert (Hb : 0 <= (y - y0) * increment (Z.abs (x1 - x0)) (y1 - y0)
               <= Z.abs (x1 - x0) * kOne)
    by (apply displacement_bounds; lia).
  rewrite kBias_eq in Hm. apply shift_between. rewrite kOne_eq in *.
  destruct (Z.ltb_spec x1 x0).
  - set (k := (y - y0) * _) in *.
    assert (Z.abs (x1 - x0) = x0 - x1) by lia. lia.
  - set (k := (y - y0) * _) in *.
    assert (Z.abs (x1 - x0) = x1 - x0) by lia. lia.
Qed.

Lemma span_order_top_down y :
  y0 <= y <= y1 ->
  if IsXMajor s
  then if IsNegative s then XEnd s y <= XStart s y else XStart s y <= XEnd s y
  else XEnd s y = XStart s y.
Proof.
  intros Hr. destruct flags_top_down as [En Em]. rewrite En, Em.
  unfold XEnd, XStart, s.
  rewrite (FracXEnd_screen x0 y0 x1 y1) by assumption. cbv zeta.
  set (fs := FracXStart (Setup x0 y0 x1 y1) y).
  destruct (Z.ltb_spec (y1 - y0) (Z.abs (x1 - x0))) as [Hm | Hm];
    [| reflexivity].
  assert (Hd : kOne <= increment (Z.abs (x1 - x0)) (y1 - y0))
    by (apply increment_ge_one; lia).
  destruct (shift_mask_low fs) as [Hlo Hhi].
  destruct (x1 <? x0).
  - rewrite <- Hhi. apply shift_mono. lia.
  - rewrite <- Hlo. apply shift_mono. lia.
Qed.

Lemma span_gap_top_down y :
  y0 <= y -> y + 1 <= y1 -> IsXMajor s = true ->
  if IsNegative s
  then XEnd s y - 2 <= XStart s (y + 1) <= XEnd s y - 1
  else XEnd s y + 1 <= XStart s (y + 1) <= XEnd s y + 2.
Proof.
  intros Hlo Hhi. destruct flags_top_down as [En Em]. rewrite En, Em.
  intros Hm. apply Z.ltb_lt in Hm.
  unfold XEnd, XStart, s.
  rewrite (FracXEnd_screen x0 y0 x1 y1) by (try assumption; lia). cbv zeta.
  rewrite (FracXStart_screen x0 y0 x1 y1 Hx0 Hx1 Hy0 Hy Hy1 (y + 1)) by lia.
  pose proof (FracXStart_screen x0 y0 x1 y1 Hx0 Hx1 Hy0 Hy Hy1 y ltac:(lia))
    as Hfs.
  set (fs := FracXStart (Setup x0 y0 x1 y1) y) in *.
  set (d := increment (Z.abs (x1 - x0)) (y1 - y0)) in *.
  set (m := m_x0 (Setup x0 y0 x1 y1)) in *.
  destruct (Z.ltb_spec (y1 - y0) (Z.abs (x1 - x0))) as [_ | ?]; [| lia].
  pose proof (Z.mod_pos_bound fs 512 ltac:(lia)) as Hmod.
  destruct (x1 <? x0).
  - replace (m - (y + 1 - y0) * d) with (fs - d) by lia.
    rewrite shift_add_one.
    pose proof (shift_mono (fs - d) (fs + (511 - fs mod 512) - d) ltac:(lia)).
    pose proof (shift_mono (fs + (511 - fs mod 512) - d - kOne) (fs - d)
                  ltac:(rewrite kOne_eq; lia)) as Hl.
    rewrite shift_sub_one in Hl. lia.
  - replace (m + (y + 1 - y0) * d) with (fs + d) by lia.
    rewrite shift_sub_one.
    pose proof (shift_mono (fs - fs mod 512 + d) (fs + d) ltac:(lia)).
    pose proof (shift_mono (fs + d) (fs - fs mod 512 + d + kOne)
                  ltac:(rewrite kOne_eq; lia)) as Hu.
    rewrite shift_add_one in Hu. lia.
Qed.

End ScreenSpans.

(** X2.  Between two endpoints of the screen the starting column of every
    scanline lies between the endpoint columns, one column further left on a
    negative slope: a positive slope never starts left of column 0 or right of
    column 256, and a negative slope never starts left of column -1. *)
Theorem XStart_within_endpoints (x0 y0 x1 y1 y : Z) :
  in_screen x0 y0 -> in_screen x1 y1 ->
  Z.min y0 y1 <= y <= Z.max y0 y1 ->
  let s := Setup x0 y0 x1 y1 in
  let e := if IsNegative s then 1 else 0 in
  Z.min x0 x1 - e <= XStart s y <= Z.max x0 x1 - e.
Proof.
  intros [Hx0 Hy0] [Hx1 Hy1] Hr.
  destruct (Z.le_gt_cases y0 y1) as [Hle | Hgt].
  - apply XStart_top_down; lia.
  - rewrite (Setup_swap x0 y0 x1 y1) by lia.
    rewrite (Z.min_comm x0 x1), (Z.max_comm x0 x1).
    apply XStart_top_down; lia.
Qed.

Lemma XStart_within_endpoints_witness :
  in_screen 0 2 /\ in_screen 1 0 /\
  Z.min 0 1 - 1 <= XStart (Setup 0 2 1 0) 2 <= Z.max 0 1 - 1.
Proof.
  assert (H0 : in_screen 0 2) by (unfold in_screen; lia).
  assert (H1 : in_screen 1 0) by (unfold in_screen; lia).
  split; [exact H0 | split; [exact H1 |]].
  exact (XStart_within_endpoints 0 2 1 0 2 H0 H1 ltac:(simpl; lia)).
Defined.

(** X3.  The order of a span's two ends, between endpoints of the screen: on
    an X-major slope the start is the leftmost pixel when the slope is
    positive and the rightmost when it is negative, so the span is never
    empty; on any other slope the span is a single pixel. *)
Theorem span_order (x0 y0 x1 y1 y : Z) :
  in_screen x0 y0 -> in_screen x1 y1 ->
  Z.min y0 y1 <= y <= Z.max y0 y1 ->
  let s := Setup x0 y0 x1 y1 in
  if IsXMajor s
  then if IsNegative s then XEnd s y <= XStart s y else XStart s y <= XEnd s y
  else XEnd s y = XStart s y.
Proof.
  intros [Hx0 Hy0] [Hx1 Hy1] Hr.
  destruct (Z.le_gt_cases y0 y1) as [Hle | Hgt].
  - apply span_order_top_down; lia.
  - rewrite (Setup_swap x0 y0 x1 y1) by lia.
    apply span_order_top_down; lia.
Qed.

Lemma span_order_witness :
  in_screen 256 0 /\ in_screen 187 49 /\
  XEnd (Setup 256 0 187 49) 33 <= XStart (Setup 256 0 187 49) 33.
Proof.
  assert (H0 : in_screen 256 0) by (unfold in_screen; lia).
  assert (H1 : in_screen 187 49) by (unfold in_screen; lia).
  split; [exact H0 | split; [exact H1 |]].
  exact (span_order 256 0 187 49 33 H0 H1 ltac:(simpl; lia)).
Defined.

(** X4.  On an X-major slope between endpoints of the screen, the span of the
    next scanline begins one or two columns past the end of this one, in the
    direction of the slope: consecutive spans never overlap, and a gap between
    them is never wider than one pixel. *)
Theorem span_gap_at_most_one (x0 y0 x1 y1 y : Z) :
  in_screen x0 y0 -> in_screen x1 y1 ->
  Z.min y0 y1 <= y -> y + 1 <= Z.max y0 y1 ->
  IsXMajor (Setup x0 y0 x1 y1) = true ->
  let s := Setup x0 y0 x1 y1 in
  if IsNegative s
  then XEnd s y - 2 <= XStart s (y + 1) <= XEnd s y - 1
  else XEnd s y + 1 <= XStart s (y + 1) <= XEnd s y + 2.
Proof.
  intros [Hx0 Hy0] [Hx1 Hy1] Hlo Hhi Hm.
  destruct (Z.le_gt_cases y0 y1) as [Hle | Hgt].
  - apply span_gap_top_down; try lia. exact Hm.
  - rewrite (Setup_swap x0 y0 x1 y1) in * by lia.
    apply span_gap_top_down; try lia. exact Hm.
Qed.

Lemma span_gap_at_most_one_witness :
  in_screen 256 0 /\ in_screen 187 49 /\
  XEnd (Setup 256 0 187 49) 37 - 2 <= XStart (Setup 256 0 187 49) 38
  <= XEnd (Setup 256 0 187 49) 37 - 1.
Proof.
  assert (H0 : in_screen 256 0) by (unfold in_screen; lia).
  assert (H1 : in_screen 187 49) by (unfold in_screen; lia).
  split; [exact H0 | split; [exact H1 |]].
  exact (span_gap_at_most_one 256 0 187 49 37 H0 H1
           ltac:(simpl; lia) ltac:(simpl; lia) eq_refl).
Defined.

(** X5.  A negative slope is the mirror image of its positive counterpart.
    For a positive slope from (x0,y0) down to (x1,y1) on the screen and the
    negative slope from (x1,y0) down to (x0,y1), the flags and the increment
    agree, and on every scanline between the endpoints the fixed-point ends
    are reflections of each other about [x0 + x1] columns less one unit, so
    the pixel columns are reflections about [x0 + x1 - 1], gaps included. *)
Theorem negative_mirror (x0 y0 x1 y1 y : Z) :
  in_screen x0 y0 -> in_screen x1 y1 -> x0 < x1 -> y0 <= y1 ->
  y0 <= y <= y1 ->
  let p := Setup x0 y0 x1 y1 in
  let n := Setup x1 y0 x0 y1 in
  IsNegative p = false /\ IsNegative n = true /\
  IsXMajor n = IsXMajor p /\ DX n = DX p /\
  FracXStart n y = (x0 + x1) * kOne - 1 - FracXStart p y /\
  FracXEnd n y = (x0 + x1) * kOne - 1 - FracXEnd p y /\
  XStart n y = x0 + x1 - 1 - XStart p y /\
  XEnd n y = x0 + x1 - 1 - XEnd p y.
Proof.
  intros [Hx0 Hy0] [Hx1 Hy1] Hx Hy Hr. cbv zeta.
  assert (Hp := Setup_in_screen x0 y0 x1 y1 Hx0 Hx1 ltac:(lia) Hy ltac:(lia)).
  assert (Hn := Setup_in_screen x1 y0 x0 y1 Hx1 Hx0 ltac:(lia) Hy ltac:(lia)).
  cbv zeta in Hp, Hn.
  rewrite (Z.abs_neq (x0 - x1)) in Hn by lia.
  replace (- (x0 - x1)) with (x1 - x0) in Hn by lia.
  rewrite (Z.abs_eq (x1 - x0)) in Hp by lia.
  destruct (Z.ltb_spec x1 x0) as [? | _]; [lia |].
  destruct (Z.ltb_spec x0 x1) as [_ | ?]; [| lia].
  set (d := increment (x1 - x0) (y1 - y0)) in *.
  set (xm := y1 - y0 <? x1 - x0) in *.
  assert (Es : FracXStart (Setup x1 y0 x0 y1) y
               = (x0 + x1) * kOne - 1 - FracXStart (Setup x0 y0 x1 y1) y).
  { rewrite (FracXStart_screen x1 y0 x0 y1) by lia.
    rewrite (FracXStart_screen x0 y0 x1 y1) by lia.
    destruct (Z.ltb_spec x1 x0) as [? | _]; [lia |].
    destruct (Z.ltb_spec x0 x1) as [_ | ?]; [| lia].
    rewrite (Z.abs_neq (x0 - x1)) by lia.
    replace (- (x0 - x1)) with (x1 - x0) by lia.
    rewrite (Z.abs_eq (x1 - x0)) by lia. fold d.
    rewrite Hp, Hn. cbn [m_x0]. rewrite kOne_eq, kBias_eq.
    destruct (xm || _); lia. }
  assert (Ee : FracXEnd (Setup x1 y0 x0 y1) y
               = (x0 + x1) * kOne - 1 - FracXEnd (Setup x0 y0 x1 y1) y).
  { rewrite (FracXEnd_screen x1 y0 x0 y1) by lia.
    rewrite (FracXEnd_screen x0 y0 x1 y1) by lia. cbv zeta.
    rewrite Es.
    destruct (Z.ltb_spec x1 x0) as [? | _]; [lia |].
    destruct (Z.ltb_spec x0 x1) as [_ | ?]; [| lia].
    rewrite (Z.abs_neq (x0 - x1)) by lia.
    replace (- (x0 - x1)) with (x1 - x0) by lia.
    rewrite (Z.abs_eq (x1 - x0)) by lia. fold d xm.
    destruct xm; [| reflexivity].
    rewrite mod512_reflect. lia. }
  repeat split.
  - now rewrite Hp.
  - now rewrite Hn.
  - now rewrite Hp, Hn.
  - now rewrite Hp, Hn.
  - exact Es.
  - exact Ee.
  - unfold XStart. rewrite Es. apply shift_reflect.
  - unfold XEnd. rewrite Ee. apply shift_reflect.
Qed.

Lemma negative_mirror_witness :
  in_screen 0 0 /\ in_screen 69 49 /\
  XStart (Setup 69 0 0 49) 37 = 0 + 69 - 1 - XStart (Setup 0 0 69 49) 37 /\
  XEnd (Setup 69 0 0 49) 37 = 0 + 69 - 1 - XEnd (Setup 0 0 69 49) 37.
Proof.
  assert (H0 : in_screen 0 0) by (unfold in_screen; lia).
  assert (H1 : in_screen 69 49) by (unfold in_screen; lia).
  split; [exact H0 | split; [exact H1 |]].
  pose proof (negative_mirror 0 0 69 49 37 H0 H1 ltac:(lia) ltac:(lia)
                ltac:(lia)) as H.
  cbv zeta in H. destruct H as (_ & _ & _ & _ & _ & _ & Hs & He).
  split; [exact Hs | exact He].
Defined.

(** ** The harness: what the verdict means *)

Import Verdict.

Section HarnessVerdict.

Variable data : Data.
Variables testX testY : Z.
Variable s : Slope.t.

(** The mismatch flag after one more scanline. *)
Lemma scanlines_flag n y mismatch :
  snd (scanlines data testX testY s (S n) y mismatch) =
    if 256 <=? fst (screen_span s y)
    then snd (scanlines data testX testY s n (add32 y 1) mismatch)
    else if y =? 192 then mismatch
    else snd (scanlines data testX testY s n (add32 y 1)
                (mismatch || span_differs data testX testY s y)).
Proof.
  cbn [scanlines]. unfold span_differs, screen_span.
  destruct (IsNegative s); cbv beta iota zeta; cbn [fst snd].
  all: destruct (256 <=? _); [reflexivity |].
  all: destruct (y =? 192); [reflexivity |].
  all: unfold foundMismatch.
  all: destruct (negb (exists_ _)); cbn [orb];
    [| destruct (negb (start _ =? _) || negb (end_ _ =? _)) ].
  all: destruct mismatch; cbn [orb]; cbv beta iota zeta.
  all: match goal with
       | |- context [scanlines data testX testY s ?k ?y' ?m] =>
           destruct (scanlines data testX testY s k y' m)
       end; reflexivity.
Qed.

Lemma scanlines_verdict n :
  forall y mismatch,
    0 <= y -> y + Z.of_nat n <= 193 ->
    snd (scanlines data testX testY s n y mismatch) = false <->
    mismatch = false /\
    forall y', y <= y' < y + Z.of_nat n -> y' <= 191 ->
               fst (screen_span s y') < 256 ->
               span_differs data testX testY s y' = false.
Proof.
  induction n as [| n IH]; intros y mismatch Hy0 Hy1.
  - cbn [scanlines snd]. split; [intros ->; split; [reflexivity | lia] | tauto].
  - rewrite scanlines_flag, add32_succ by lia.
    destruct (Z.leb_spec 256 (fst (screen_span s y))) as [Hskip | Hvis].
    + rewrite IH by lia. split; intros [Hm Hall]; (split; [exact Hm |]).
      * intros y' Hr H191 Hv.
        destruct (Z.eq_dec y' y) as [-> | Hne]; [lia |]. apply Hall; lia.
      * intros y' Hr H191 Hv. apply Hall; lia.
    + destruct (Z.eqb_spec y 192) as [E | E].
      * split; [intros ->; split; [reflexivity | lia] | tauto].
      * rewrite IH by lia. rewrite orb_false_iff.
        split.
        -- intros [[Hm Hd] Hall]. split; [exact Hm |].
           intros y' Hr H191 Hv.
           destruct (Z.eq_dec y' y) as [-> | Hne]; [exact Hd |].
           apply Hall; lia.
        -- intros [Hm Hall]. split; [split; [exact Hm |] |].
           ++ apply Hall; lia.
           ++ intros y' Hr H191 Hv. apply Hall; lia.
Qed.

End HarnessVerdict.

Lemma span_differs_false data testX testY s y :
  span_differs data testX testY s y = false <->
  let span := span_at (lines data) testY testX y in
  exists_ span = true /\ (start span, end_ span) = screen_span s y.
Proof.
  unfold span_differs. cbv zeta.
  rewrite !orb_false_iff, !negb_false_iff, !Z.eqb_eq.
  destruct (screen_span s y) as [a b]. cbn [fst snd].
  split.
  - intros (He & -> & ->). now split.
  - intros (He & E). injection E as -> ->. now repeat split.
Qed.

Lemma testSlope_scanlines data testX testY x0 y0 x1 y1 mismatch :
  0 <= y0 <= 192 -> 0 <= y1 <= 192 ->
  testSlope data testX testY x0 y0 x1 y1 mismatch =
    scanlines data testX testY (tested_slope x0 y0 x1 y1)
      (Z.to_nat (Z.max (Z.max y0 y1) (Z.min y0 y1 + 1) - Z.min y0 y1))
      (Z.min y0 y1) mismatch.
Proof.
  intros Hy0 Hy1. unfold testSlope, tested_slope.
  destruct (Z.ltb_spec y1 y0) as [Hlt | Hge].
  - destruct (Z.eqb_spec y1 y0) as [E | _]; [lia |].
    now replace (Z.max (Z.max y0 y1) (Z.min y0 y1 + 1)) with y0 by lia;
      replace (Z.min y0 y1) with y1 by lia.
  - destruct (Z.eqb_spec y0 y1) as [E | E].
    + rewrite add32_succ by lia.
      now replace (Z.max (Z.max y0 y1) (Z.min y0 y1 + 1)) with (y1 + 1) by lia;
        replace (Z.min y0 y1) with y0 by lia.
    + now replace (Z.max (Z.max y0 y1) (Z.min y0 y1 + 1)) with y1 by lia;
        replace (Z.min y0 y1) with y0 by lia.
Qed.

(** X6.  What the mismatch flag of [testSlope] means, for an anchor and a sweep
    position on screen scanlines.  The flag comes back clear exactly when it
    went in clear and, on every scanline of the edge above scanline 192 whose
    span starts left of column 256, the capture holds a span with the very
    ends the interpolator generates; a flag that went in set stays set. *)
Theorem testSlope_verdict (data : Data) (testX testY x0 y0 x1 y1 : Z)
        (mismatch : bool) :
  0 <= y0 <= 192 -> 0 <= y1 <= 192 ->
  snd (testSlope data testX testY x0 y0 x1 y1 mismatch) = false <->
  mismatch = false /\
  forall y,
    Z.min y0 y1 <= y < Z.max (Z.max y0 y1) (Z.min y0 y1 + 1) ->
    y <= 191 ->
    fst (screen_span (tested_slope x0 y0 x1 y1) y) < 256 ->
    let span := span_at (lines data) testY testX y in
    exists_ span = true /\
    (start span, end_ span) = screen_span (tested_slope x0 y0 x1 y1) y.
Proof.
  intros Hy0 Hy1. rewrite testSlope_scanlines by assumption.
  rewrite scanlines_verdict by lia.
  rewrite Z2Nat.id by lia.
  split; intros [Hm Hall]; (split; [exact Hm |]); intros y Hr H191 Hv.
  - apply span_differs_false. apply Hall; lia.
  - apply span_differs_false. apply Hall; lia.
Qed.

Lemma testSlope_verdict_witness :
  0 <= 0 <= 192 /\
  (snd (testSlope (mkData 0 0 0 0 0 ∅) 0 0 0 0 0 0 true) = false <->
   true = false /\
   forall y,
     Z.min 0 0 <= y < Z.max (Z.max 0 0) (Z.min 0 0 + 1) ->
     y <= 191 ->
     fst (screen_span (tested_slope 0 0 0 0) y) < 256 ->
     let span := span_at (lines (mkData 0 0 0 0 0 ∅)) 0 0 y in
     exists_ span = true /\
     (start span, end_ span) = screen_span (tested_slope 0 0 0 0) y).
Proof.
  assert (H0 : 0 <= 0 <= 192) by lia.
  split; [exact H0 |].
  exact (testSlope_verdict (mkData 0 0 0 0 0 ∅) 0 0 0 0 0 0 true H0 H0).
Defined.

Section HarnessOutput.

Variable data : Data.

Lemma scanlines_output testX testY s n :
  forall y mismatch,
    output_invariant mismatch (scanlines data testX testY s n y mismatch).
Proof.
  unfold output_invariant, count.
  induction n as [| n IH]; intros y mismatch.
  - cbn. destruct mismatch; auto.
  - cbn [scanlines].
    destruct (IsNegative s); cbv beta iota zeta.
    all: destruct (256 <=? _); [apply IH |].
    all: destruct (y =? 192); [cbn; destruct mismatch; auto |].
    all: unfold foundMismatch.
    all: destruct (negb (exists_ _));
      [| destruct (negb (start _ =? _) || negb (end_ _ =? _)) ].
    all: destruct mismatch; cbv beta iota zeta.
    all: match goal with
         | |- context [scanlines data ?tx ?ty ?sl ?k ?y' ?m] =>
             destruct (IH y' m) as (H1 & H2 & H3);
             destruct (scanlines data tx ty sl k y' m) as [rest m2]
         end.
    all: cbn [fst snd app List.filter existsb is_report is_banner is_all_ok
              orb length] in *.
    all: subst m2; cbn [orb] in *.
    all: repeat split; try assumption; try reflexivity.
    all: try (rewrite H2; reflexivity).
    all: try (destruct (existsb is_report rest); assumption).
Qed.

Lemma testSlope_output testX testY x0 y0 x1 y1 mismatch :
  output_invariant mismatch (testSlope data testX testY x0 y0 x1 y1 mismatch).
Proof.
  unfold testSlope.
  destruct (y1 <? y0); [destruct (y1 =? y0) | destruct (y0 =? y1)];
    apply scanlines_output.
Qed.

Lemma count_app p (l1 l2 : list event) :
  count p (l1 ++ l2) = (count p l1 + count p l2)%nat.
Proof. unfold count. now rewrite List.filter_app, length_app. Qed.

(** The output accumulated over the sweep positions. *)
Lemma sweep_output x0 y0 :
  let acc :=
    foldl (fun acc y1 =>
             foldl (fun '(out, mismatch) x1 =>
                      let '(o, mismatch) :=
                        testSlope data x1 y1 x0 y0 x1 y1 mismatch in
                      (out ++ o, mismatch))
                   acc (seqZ 0 257))
          ([], false) (seqZ 0 193) in
  snd acc = existsb is_report (fst acc) /\
  count is_banner (fst acc) = (if snd acc then 1 else 0)%nat /\
  existsb is_all_ok (fst acc) = false.
Proof.
  cbv zeta.
  set (J := fun acc : list event * bool =>
              snd acc = existsb is_report (fst acc) /\
              count is_banner (fst acc) = (if snd acc then 1 else 0)%nat /\
              existsb is_all_ok (fst acc) = false).
  apply (foldl_invariant J (fun _ : Z => True)).
  - repeat split.
  - apply Forall_forall. auto.
  - intros acc y1 Hacc _.
    apply (foldl_invariant J (fun _ : Z => True)).
    + exact Hacc.
    + apply Forall_forall. auto.
    + intros [out m] x1 (J1 & J2 & J3) _.
      pose proof (testSlope_output x1 y1 x0 y0 x1 y1 m) as (H1 & H2 & H3).
      destruct (testSlope data x1 y1 x0 y0 x1 y1 m) as [o m'].
      unfold J. cbn [fst snd] in *.
      rewrite !existsb_app, count_app, J2, H2, J3, H3, <- J1, H1.
      repeat split. destruct m; cbn; [reflexivity |].
      now destruct (existsb is_report o).
Qed.

End HarnessOutput.

(** X7.  The output of [testSlopes] for one anchor carries one verdict: either
    no scanline is reported, the banner is not printed and the output ends
    with the one line that says all is well; or some scanline is reported, the
    banner is printed exactly once and that line is not printed. *)
Theorem testSlopes_one_verdict (data : Data) (x0 y0 : Z) :
  let out := testSlopes data x0 y0 in
  if existsb is_report out
  then count is_banner out = 1%nat /\ count is_all_ok out = 0%nat
  else count is_banner out = 0%nat /\ count is_all_ok out = 1%nat /\
       last out = Some AllOK.
Proof.
  cbv zeta. unfold testSlopes.
  pose proof (sweep_output data x0 y0) as H. cbv zeta in H.
  destruct (foldl _ _ _) as [out m]. cbn [fst snd] in H.
  destruct H as (H1 & H2 & H3).
  assert (Hok : count is_all_ok out = 0%nat).
  { clear -H3. unfold count. induction out as [| e out IH]; [reflexivity |].
    cbn [existsb List.filter] in *. apply orb_false_iff in H3 as [He Ho].
    rewrite He. now apply IH. }
  rewrite existsb_app, !count_app, <- H1, H2, Hok.
  destruct m; cbn.
  - split; reflexivity.
  - split; [reflexivity | split; [reflexivity |]].
    apply last_snoc.
Qed.

(** ** The generator: the span of a row *)

Import Generator.

Section RowScan.

Variable vram : Z -> Z.
Variable checkY : Z.

Lemma lit_dec x :
  (Z.land (vram (checkY * WIDTH + x)) 32767 =? 0) = false <-> lit vram checkY x.
Proof. unfold lit. now rewrite Z.eqb_neq. Qed.

(** Once a lit pixel is found, the scan runs to the first dark pixel or to the
    end of the row. *)
Lemma scan_row_found n :
  forall a f l,
    1 <= a -> a + Z.of_nat n <= 256 ->
    let r := scan_row vram checkY (seqZ a (Z.of_nat n)) (mkScan true f l) in
    found r = true /\ first r = f /\
    ((last_ r = l /\ forall x, a <= x < a + Z.of_nat n -> lit vram checkY x) \/
     (a <= last_ r + 1 < a + Z.of_nat n /\
      (forall x, a <= x <= last_ r -> lit vram checkY x) /\
      ~ lit vram checkY (last_ r + 1))).
Proof.
  induction n as [| n IH]; intros a f l Ha Hn; cbv zeta.
  - cbn. repeat split. left. split; [reflexivity | lia].
  - rewrite seqZ_cons by lia. cbn [scan_row found negb first].
    replace (Z.pred (Z.of_nat (S n))) with (Z.of_nat n) by lia.
    destruct (Z.land (vram (checkY * WIDTH + a)) 32767 =? 0) eqn:E.
    + cbn [found first last_]. repeat split. right.
      rewrite Z.mod_small by lia. apply Z.eqb_eq in E.
      replace (a - 1 + 1) with a by lia.
      split; [lia |]. split; [intros x Hx; lia |]. unfold lit. tauto.
    + apply lit_dec in E.
      destruct (IH (Z.succ a) f l ltac:(lia) ltac:(lia))
        as (Hf & Hfi & [[Hl Hall] | (Hr & Hall & Hd)]); cbv zeta in *.
      * repeat split; try assumption. left. split; [exact Hl |].
        intros x Hx. destruct (Z.eq_dec x a) as [-> | Hne]; [exact E |].
        apply Hall. lia.
      * repeat split; try assumption. right. split; [lia |].
        split; [| exact Hd].
        intros x Hx. destruct (Z.eq_dec x a) as [-> | Hne]; [exact E |].
        apply Hall. lia.
Qed.

(** Before a lit pixel is found, the scan skips dark pixels. *)
Lemma scan_row_search n :
  forall a f0 l0,
    0 <= a -> a + Z.of_nat n <= 256 ->
    let r := scan_row vram checkY (seqZ a (Z.of_nat n)) (mkScan false f0 l0) in
    if found r then
      a <= first r < a + Z.of_nat n /\
      (forall x, a <= x < first r -> ~ lit vram checkY x) /\
      lit vram checkY (first r) /\
      ((last_ r = l0 /\
        forall x, first r < x < a + Z.of_nat n -> lit vram checkY x) \/
       (first r <= last_ r /\ last_ r + 1 < a + Z.of_nat n /\
        (forall x, first r < x <= last_ r -> lit vram checkY x) /\
        ~ lit vram checkY (last_ r + 1)))
    else
      first r = f0 /\ last_ r = l0 /\
      forall x, a <= x < a + Z.of_nat n -> ~ lit vram checkY x.
Proof.
  induction n as [| n IH]; intros a f0 l0 Ha Hn; cbv zeta.
  - cbn. repeat split. lia.
  - rewrite seqZ_cons by lia. cbn [scan_row found first last_ negb].
    replace (Z.pred (Z.of_nat (S n))) with (Z.of_nat n) by lia.
    destruct (Z.land (vram (checkY * WIDTH + a)) 32767 =? 0) eqn:E;
      cbn [negb].
    + apply Z.eqb_eq in E.
      specialize (IH (Z.succ a) f0 l0 ltac:(lia) ltac:(lia)). cbv zeta in IH.
      destruct (found _).
      * destruct IH as (Hr & Hdark & Hlit & Hrun).
        split; [lia |]. split; [| split; [exact Hlit |]].
        -- intros x Hx. destruct (Z.eq_dec x a) as [-> | Hne].
           ++ unfold lit. tauto.
           ++ apply Hdark. lia.
        -- destruct Hrun as [[Hl Hall] | (H1 & H2 & H3 & H4)].
           ++ left. split; [exact Hl |]. intros x Hx. apply Hall. lia.
           ++ right. repeat split; try assumption; lia.
      * destruct IH as (Hf & Hl & Hdark). repeat split; try assumption.
        intros x Hx. destruct (Z.eq_dec x a) as [-> | Hne].
        -- unfold lit. tauto.
        -- apply Hdark. lia.
    + apply lit_dec in E. rewrite Z.mod_small by lia.
      destruct (scan_row_found n (Z.succ a) a l0 ltac:(lia) ltac:(lia))
        as (Hf & Hfi & Hrun); cbv zeta in *.
      rewrite Hf, Hfi. split; [lia |]. split; [intros x Hx; lia |].
      split; [exact E |].
      destruct Hrun as [[Hl Hall] | (H1 & H2 & H3)].
      * left. split; [exact Hl |]. intros x Hx. apply Hall. lia.
      * right. split; [lia |]. split; [lia |]. split; [| exact H3].
        intros x Hx. apply H2. lia.
Qed.

End RowScan.

(** X9.  The span that [countAndWrite] records for a row is the first run of
    lit pixels between the two columns it is given: when one is found, every
    pixel before [first] is dark, every pixel from [first] to [last] is lit,
    and the run ends at the last column or at a dark pixel; when none is
    found, the whole range is dark and the two columns themselves are
    written. *)
Theorem count_row_first_run (vram : Z -> Z) (startX endX checkY : Z) :
  0 <= startX <= 255 -> 0 <= endX <= 255 ->
  let r := count_row vram startX endX checkY in
  if found r then
    startX <= first r <= last_ r /\ last_ r <= endX /\
    (forall x, startX <= x < first r -> ~ lit vram checkY x) /\
    (forall x, first r <= x <= last_ r -> lit vram checkY x) /\
    (last_ r < endX -> ~ lit vram checkY (last_ r + 1))
  else
    first r = startX /\ last_ r = endX /\
    forall x, startX <= x <= endX -> ~ lit vram checkY x.
Proof.
  intros Hs He. cbv zeta. unfold count_row.
  rewrite (Z.mod_small startX), (Z.mod_small endX) by lia.
  destruct (Z.le_gt_cases startX endX) as [Hle | Hgt].
  - pose proof (scan_row_search vram checkY (Z.to_nat (endX - startX + 1))
                  startX startX endX ltac:(lia) ltac:(lia)) as H.
    cbv zeta in H. rewrite Z2Nat.id in H by lia.
    set (r := scan_row vram checkY _ _) in *.
    destruct (found r).
    + destruct H as (Hr & Hdark & Hlit & [[Hl Hall] | (H1 & H2 & H3 & H4)]).
      * rewrite Hl. repeat split; try lia; try assumption.
        intros x Hx. destruct (Z.eq_dec x (first r)) as [-> | Hne];
          [exact Hlit | apply Hall; lia].
      * repeat split; try lia; try assumption.
        -- intros x Hx. destruct (Z.eq_dec x (first r)) as [-> | Hne];
             [exact Hlit | apply H3; lia].
        -- intros _. exact H4.
    + destruct H as (Hf & Hl & Hdark). repeat split; try assumption.
      intros x Hx. apply Hdark. lia.
  - rewrite seqZ_nil by lia. cbn. repeat split. intros x Hx. lia.
Qed.

Lemma count_row_first_run_witness :
  0 <= 0 <= 255 /\ 0 <= 3 <= 255 /\
  let vram := fun i => if (1 <=? i) && (i <=? 2) then 1 else 0 in
  let r := count_row vram 0 3 0 in
  found r = true /\ first r = 1 /\ last_ r = 2 /\
  (forall x, first r <= x <= last_ r -> lit vram 0 x).
Proof.
  assert (H0 : 0 <= 0 <= 255) by lia.
  assert (H3 : 0 <= 3 <= 255) by lia.
  split; [exact H0 | split; [exact H3 |]].
  pose proof (count_row_first_run
                (fun i => if (1 <=? i) && (i <=? 2) then 1 else 0) 0 3 0 H0 H3)
    as H.
  cbv zeta in *.
  change (found (count_row (fun i => if (1 <=? i) && (i <=? 2) then 1 else 0)
                   0 3 0)) with true in H.
  cbv iota in H. destruct H as (_ & _ & _ & Hlit & _).
  repeat split. exact Hlit.
Defined.

(** ** The capture parser: accepted files *)

Lemma byte_val_of z : byte_val (byte_of z) = z mod 256.
Proof.
  unfold byte_val, byte_of.
  pose proof (Z.mod_pos_bound z 256 ltac:(lia)) as Hz.
  destruct (Byte.of_N (Z.to_N (z mod 256))) as [b |] eqn:E.
  - apply Byte.to_of_N in E. rewrite E. lia.
  - apply Byte.of_N_None_iff in E. lia.
Qed.

Lemma byte_val_range b : 0 <= byte_val b <= 255.
Proof. unfold byte_val. pose proof (Byte.to_N_bounded b). lia. Qed.

Lemma read_header_bytes ty mnX mxX mnY mxY rest :
  0 <= ty < 256 -> 0 <= mnX < 65536 -> 0 <= mxX < 65536 ->
  0 <= mnY < 256 -> 0 <= mxY < 256 ->
  read_header (mkStream (header_bytes ty mnX mxX mnY mxY ++ rest) false)
  = (ty, mnX, mxX, mnY, mxY, mkStream rest false).
Proof.
  intros Ht HmnX HmxX HmnY HmxY.
  unfold header_bytes, u16_bytes, read_header. cbn [app].
  repeat (rewrite read_enough by (cbn [length]; lia);
          cbn [take drop]; cbv beta iota zeta).
  cbn [load_u8 load_u16]. rewrite !byte_val_of.
  assert (Hu16 : forall z, 0 <= z < 65536 ->
                           (z mod 65536) mod 256 + 256 * ((z mod 65536 / 256) mod 256) = z).
  { intros z Hz. rewrite (Z.mod_small z 65536) by lia.
    rewrite (Z.mod_small (z / 256)).
    - pose proof (Z.div_mod z 256 ltac:(lia)). lia.
    - split; [apply Z.div_pos; lia | apply Z.div_lt_upper_bound; lia]. }
  rewrite !Hu16 by assumption.
  now rewrite !Z.mod_small by lia.
Qed.

(** A block of spans inside the table never stops the parser, whatever is
    left of the stream. *)
Lemma read_spans_total sweepY sweepX l :
  Forall (fun scanY => in_table sweepY sweepX scanY = true) l ->
  forall st, exists st', for_each (read_span sweepY sweepX) l st = Next st'.
Proof.
  induction 1 as [| scanY l Hhd _ IH]; intros [s tbl].
  - eexists. reflexivity.
  - cbn [for_each]. unfold read_span at 1. rewrite Hhd.
    destruct (read 1 s) as [e s1]. destruct (read 1 s1) as [a s2].
    destruct (read 1 s2) as [b s3]. apply IH.
Qed.

(** The record loop runs through records that carry their labels, and leaves
    the stream after them. *)
Lemma records_accept ty :
  forall (l : list (Z * Z)) (recs : list (list byte)) (st : parser)
         (rest : list byte),
    input st = mkStream (concat recs ++ rest) false ->
    Forall (fun l => 0 <= fst l <= 256 /\ 0 <= snd l <= 192)
           ((Capture.prevX st, Capture.prevY st) :: l) ->
    Forall2 (record_ok ty) (take (length l) ((Capture.prevX st, Capture.prevY st) :: l)) recs ->
    exists st',
      for_each (fun p => read_record ty (fst p) (snd p)) l st = Next st' /\
      input st' = mkStream rest false /\
      Some (Capture.prevX st', Capture.prevY st') = last ((Capture.prevX st, Capture.prevY st) :: l).
Proof.
  induction l as [| [x y] l IH]; intros recs st rest Hin Htab Hrecs.
  - cbn [length take] in Hrecs. apply Forall2_nil_inv_l in Hrecs. subst recs.
    exists st. cbn [for_each concat app] in *. repeat split; assumption.
  - cbn [length] in Hrecs. rewrite firstn_cons in Hrecs.
    apply Forall2_cons_inv_l in Hrecs
      as (rec & recs' & (cx & cy & spans & -> & Hcx & Hcy & Hlen) & Hrecs & ->).
    cbn [fst snd] in Hcx, Hcy.
    apply Forall_cons in Htab as [[HpX HpY] Htab]. cbn [fst snd] in HpX, HpY.
    cbn [for_each fst snd]. unfold read_record at 1. rewrite Hin.
    cbn [concat app]. rewrite read_enough by (cbn [length]; lia).
    cbn [take drop load_u8 fst snd]. rewrite drop_0, <- app_assoc.
    rewrite Hcx, Hcy, !Z.eqb_refl. cbn [negb orb].
    unfold record_size in Hlen. cbn [length snd] in Hlen.
    set (n := Z.to_nat (record_endY ty (Capture.prevY st)
                        - record_startY ty (Capture.prevY st) + 1)) in *.
    unfold for_range.
    destruct (read_spans_enough (Capture.prevY st) (Capture.prevX st)
                (seqZ (record_startY ty (Capture.prevY st))
                      (record_endY ty (Capture.prevY st)
                       - record_startY ty (Capture.prevY st) + 1))
                (spans ++ concat recs' ++ rest) (table st)
                (record_range_in_table ty _ _ HpX HpY))
      as [tbl' Hspans].
    { rewrite length_seqZ, length_app. fold n. lia. }
    rewrite Hspans, length_seqZ. fold n.
    replace (3 * n)%nat with (length spans) by lia.
    rewrite drop_app_length.
    destruct (IH recs' (mkParser (mkStream (concat recs' ++ rest) false)
                                 (Capture.prevX st mod 256,
                                  Capture.prevY st mod 256) x y tbl')
                 rest eq_refl Htab Hrecs)
      as (st' & Hrun & Hst' & Hlast).
    exists st'. repeat split; assumption.
Qed.

Lemma sweep_elem mnX mxX mnY mxY x y :
  (x, y) ∈ sweep mnX mxX mnY mxY -> mnX <= x <= mxX /\ mnY <= y <= mxY.
Proof.
  unfold sweep. intros H.
  apply list_elem_of_bind in H as (y' & H & Hy).
  apply list_elem_of_bind in H as (x' & H & Hx).
  apply list_elem_of_singleton in H. injection H as -> ->.
  apply elem_of_seqZ in Hx, Hy. lia.
Qed.

Lemma labels_in_table mnX mxX mnY mxY :
  0 <= mnX -> mxX <= 256 -> 0 <= mnY -> mxY <= 192 ->
  Forall (fun l => 0 <= fst l <= 256 /\ 0 <= snd l <= 192)
         (labels mnX mxX mnY mxY).
Proof.
  intros HmnX HmxX HmnY HmxY. unfold labels. constructor.
  - cbn. lia.
  - apply Forall_forall. intros [x y] Hin.
    apply sweep_elem in Hin. cbn. lia.
Qed.

(** A valid header within the table, then one record for each sweep position
    carrying the coordinates of the position before, then anything at all:
    [readFile] returns the data. *)
Lemma readFile_accepts_records coords0 ty mnX mxX mnY mxY recs rest :
  0 <= ty <= 3 -> 0 <= mnX < 65536 -> 0 <= mxX <= 256 ->
  0 <= mnY < 256 -> 0 <= mxY <= 192 ->
  Forall2 (record_ok ty)
          (take (length (sweep mnX mxX mnY mxY)) (labels mnX mxX mnY mxY))
          recs ->
  exists tbl,
    readFile coords0
             (Some (header_bytes ty mnX mxX mnY mxY ++ concat recs ++ rest))
    = Returned OK (Some (mkData ty mnX mxX mnY mxY tbl)).
Proof.
  intros Hty HmnX HmxX HmnY HmxY Hrecs. unfold readFile.
  rewrite read_header_bytes by lia.
  destruct (Z.leb_spec 0 ty); [| lia]. destruct (Z.leb_spec ty 3); [| lia].
  cbn [andb]. unfold for_range.
  rewrite (for_each_nested (fun x y => read_record ty x y)).
  fold (sweep mnX mxX mnY mxY).
  pose proof (labels_in_table mnX mxX mnY mxY ltac:(lia) ltac:(lia)
                ltac:(lia) ltac:(lia)) as Htab.
  destruct (records_accept ty (sweep mnX mxX mnY mxY) recs
              (mkParser (mkStream (concat recs ++ rest) false) coords0 0 0 ∅)
              rest eq_refl Htab Hrecs)
    as (st' & Hrun & Hin & Hlast).
  rewrite Hrun.
  assert (Hlbl : 0 <= Capture.prevX st' <= 256 /\ 0 <= Capture.prevY st' <= 192).
  { symmetry in Hlast. apply last_Some_elem_of in Hlast.
    cbn [Capture.prevX Capture.prevY] in Hlast.
    exact (proj1 (Forall_forall _ _) Htab _ Hlast). }
  edestruct (read_spans_total (Capture.prevY st') (Capture.prevX st'))
    as [[s tbl] Hfinal]; [| rewrite Hfinal; eexists; reflexivity].
  apply Forall_forall. intros scanY Hs. apply elem_of_seqZ in Hs.
  assert (0 <= scanY <= 191) by (destruct (bottom ty); lia).
  unfold in_table.
  repeat (apply andb_true_intro; split); apply Z.leb_le; lia.
Qed.

(** X8.  A capture file is loaded whenever its header names a valid type and
    bounds within the table and each record carries the coordinates of the
    position before its own, modulo 256, with three bytes for each scanline of
    its range.  What follows the records does not matter: the trailing block
    may be complete, cut short or missing, and the data is returned all the
    same with the header's fields. *)
Theorem readFile_accepts (coords0 : Z * Z) (ty mnX mxX mnY mxY : Z)
        (recs : list (list byte)) (rest : list byte) :
  0 <= ty <= 3 -> 0 <= mnX < 65536 -> 0 <= mxX <= 256 ->
  0 <= mnY < 256 -> 0 <= mxY <= 192 ->
  Forall2 (record_ok ty)
          (take (length (sweep mnX mxX mnY mxY)) (labels mnX mxX mnY mxY))
          recs ->
  exists tbl,
    readFile coords0
             (Some (header_bytes ty mnX mxX mnY mxY ++ concat recs ++ rest))
    = Returned OK (Some (mkData ty mnX mxX mnY mxY tbl)).
Proof. apply readFile_accepts_records. Qed.

Lemma readFile_accepts_witness :
  Forall2 (record_ok 0) (take (length (sweep 7 7 0 0)) (labels 7 7 0 0))
          [[x00; x00; x01; x05; x09]] /\
  exists tbl,
    readFile (1, 1)
             (Some (header_bytes 0 7 7 0 0 ++ concat [[x00; x00; x01; x05; x09]]
                      ++ []))
    = Returned OK (Some (mkData 0 7 7 0 0 tbl)).
Proof.
  assert (H : Forall2 (record_ok 0)
                (take (length (sweep 7 7 0 0)) (labels 7 7 0 0))
                [[x00; x00; x01; x05; x09]]).
  { repeat constructor. exists x00, x00, [x01; x05; x09]. now repeat split. }
  split; [exact H |].
  exact (readFile_accepts (1, 1) 0 7 7 0 0 [[x00; x00; x01; x05; x09]] []
           ltac:(lia) ltac:(lia) ltac:(lia) ltac:(lia) ltac:(lia) H).
Defined.

(** ** The generator and the parser: round trip *)

Lemma foldl_nested {W : Type} (f : Z -> Z -> W -> W) xs ys w :
  foldl (fun w y => foldl (fun w x => f x y w) w xs) w ys =
  foldl (fun w p => f (fst p) (snd p) w) w (y ← ys; x ← xs; [(x, y)]).
Proof.
  revert w. induction ys as [| y ys IH]; intros w.
  - reflexivity.
  - rewrite bind_cons, foldl_app. cbn [foldl]. rewrite IH. f_equal.
    clear. revert w. induction xs as [| x xs IHx]; intros w.
    + reflexivity.
    + rewrite bind_cons. cbn [app foldl fst snd]. apply IHx.
Qed.

Lemma length_write_spans cfg vram pX pY :
  length (write_spans cfg vram pX pY) =
  (3 * Z.to_nat (record_endY (TEST_TYPE cfg) pY
                 - record_startY (TEST_TYPE cfg) pY + 1))%nat.
Proof.
  unfold write_spans, record_endY, record_startY, bottom, HEIGHT.
  cbv zeta. change (192 - 1) with 191.
  set (b := negb (Z.land (TEST_TYPE cfg) 2 =? 0)).
  assert (Hlen : forall (l : list Z) (f : Z -> list byte),
             (forall y, length (f y) = 3%nat) ->
             length (l ≫= f) = (3 * length l)%nat).
  { intros l f Hf. induction l as [| y l IH]; [reflexivity |].
    rewrite bind_cons, length_app, Hf, IH. cbn [length]. lia. }
  rewrite Hlen by reflexivity. rewrite length_seqZ.
  do 2 f_equal.
  destruct b; repeat match goal with
                     | |- context [192 <=? ?v] => destruct (Z.leb_spec 192 v)
                     end; lia.
Qed.

(** Each pass of the sweep loops appends one record that carries the previous
    position. *)
Lemma write_records cfg vram :
  forall (l : list (Z * Z)) (w : writer),
    let w' := foldl (fun w p => write_record cfg vram (fst p) (snd p) w) w l in
    exists recs,
      written w' = written w ++ concat recs /\
      Forall2 (record_ok (TEST_TYPE cfg))
              (take (length l) ((Generator.prevX w, Generator.prevY w) :: l))
              recs.
Proof.
  induction l as [| [x y] l IH]; intros w; cbv zeta.
  - exists []. cbn. split; [now rewrite app_nil_r | constructor].
  - cbn [foldl fst snd length]. rewrite firstn_cons.
    destruct (IH (write_record cfg vram x y w)) as (recs & Hw & Hrecs).
    cbv zeta in Hw. cbn [write_record written Generator.prevX Generator.prevY]
      in Hw, Hrecs.
    eexists (_ :: recs). split.
    + rewrite Hw. cbn [concat]. now rewrite <- app_assoc.
    + constructor; [| exact Hrecs].
      eexists _, _, _. split; [reflexivity |].
      cbn [fst snd]. rewrite !byte_val_of. repeat split.
      cbn [length app]. rewrite length_write_spans. reflexivity.
Qed.

(** The file that [generate] writes, seen as the parser reads it. *)
Lemma generate_layout cfg vram :
  exists recs rest,
    generate cfg vram
    = header_bytes (TEST_TYPE cfg) (Generator.minX cfg) (Generator.maxX cfg)
                   (Generator.minY cfg) (Generator.maxY cfg)
        ++ concat recs ++ rest /\
    Forall2 (record_ok (TEST_TYPE cfg))
            (take (length (sweep (Generator.minX cfg) (Generator.maxX cfg)
                                 (Generator.minY cfg) (Generator.maxY cfg)))
                  (labels (Generator.minX cfg) (Generator.maxX cfg)
                          (Generator.minY cfg) (Generator.maxY cfg)))
            recs.
Proof.
  unfold generate. cbv zeta.
  rewrite (foldl_nested (write_record cfg vram)).
  fold (sweep (Generator.minX cfg) (Generator.maxX cfg)
              (Generator.minY cfg) (Generator.maxY cfg)).
  match goal with
  | |- context [foldl ?f ?w ?l] =>
      destruct (write_records cfg vram l w) as (recs & Hw & Hrecs);
      cbv zeta in Hw
  end.
  eexists recs, _. split.
  - rewrite Hw. cbn [written]. rewrite <- !app_assoc. reflexivity.
  - exact Hrecs.
Qed.

(** X10.  Round trip of the capture format.  For a valid type and bounds within
    the table, whatever frames the hardware captures, the file that the
    on-device [generate] writes is loaded by [readFile]: no record is
    rejected, and the data comes back with the generator's type and bounds. *)
Theorem generate_loads (coords0 : Z * Z) (cfg : config) (vram : nat -> Z -> Z) :
  0 <= TEST_TYPE cfg <= 3 ->
  0 <= Generator.minX cfg < 65536 -> 0 <= Generator.maxX cfg <= 256 ->
  0 <= Generator.minY cfg < 256 -> 0 <= Generator.maxY cfg <= 192 ->
  exists tbl,
    readFile coords0 (Some (generate cfg vram))
    = Returned OK
        (Some (mkData (TEST_TYPE cfg) (Generator.minX cfg) (Generator.maxX cfg)
                      (Generator.minY cfg) (Generator.maxY cfg) tbl)).
Proof.
  intros Hty HmnX HmxX HmnY HmxY.
  destruct (generate_layout cfg vram) as (recs & rest & -> & Hrecs).
  now apply readFile_accepts_records.
Qed.

Lemma generate_loads_witness :
  exists tbl,
    readFile (9, 9)
             (Some (generate (mkConfig 3 0 256 0 192) (fun _ _ => 0)))
    = Returned OK (Some (mkData 3 0 256 0 192 tbl)).
Proof.
  exact (generate_loads (9, 9) (mkConfig 3 0 256 0 192) (fun _ _ => 0)
           ltac:(simpl; lia) ltac:(simpl; lia) ltac:(simpl; lia)
           ltac:(simpl; lia) ltac:(simpl; lia)).
Defined.

(** ** The generator and the parser: what the table holds *)

Import Content.

Section TableContent.

Implicit Types (tbl : gmap (Z * Z * Z) Span) (s : istream).

(** One span read from a stream that holds its three bytes. *)
Lemma read_span_content pY pX sy t more tbl :
  in_table pY pX sy = true ->
  read_span pY pX sy (mkStream (flat [t] ++ more) false, tbl)
  = Next (mkStream more false, <[(pY, pX, sy) := decode_span t]> tbl).
Proof.
  intros Hin. unfold read_span. rewrite Hin.
  destruct t as [[e a] b]. unfold flat. cbn [mbind list_bind fst snd app].
  rewrite (read_enough 1) by (cbn [length]; lia). cbn [take drop].
  rewrite (read_enough 1) by (cbn [length]; lia). cbn [take drop].
  rewrite (read_enough 1) by (cbn [length]; lia). cbn [take drop].
  reflexivity.
Qed.

(** A span block changes no entry of another position or scanline. *)
Lemma read_span_frame pY pX sy st st' key :
  read_span pY pX sy st = Next st' -> key <> (pY, pX, sy) ->
  snd st' !! key = snd st !! key.
Proof.
  destruct st as [s tbl]. unfold read_span.
  destruct (in_table pY pX sy); [| discriminate].
  destruct (read 1 s) as [e s1]. destruct (read 1 s1) as [a s2].
  destruct (read 1 s2) as [b s3].
  intros H Hne. injection H as <-. cbn [snd].
  now apply lookup_insert_ne.
Qed.

Lemma read_spans_frame pY pX l :
  forall st st' key,
    for_each (read_span pY pX) l st = Next st' ->
    (forall sy, sy ∈ l -> key <> (pY, pX, sy)) ->
    snd st' !! key = snd st !! key.
Proof.
  induction l as [| sy l IH]; intros st st' key Hrun Hkey.
  - cbn in Hrun. now injection Hrun as <-.
  - cbn [for_each] in Hrun.
    destruct (read_span pY pX sy st) as [st1 | |] eqn:E1; try discriminate.
    rewrite (IH st1 st' key Hrun).
    + apply (read_span_frame pY pX sy st st1 key E1).
      apply Hkey. left.
    + intros sy' Hin. apply Hkey. now right.
Qed.

(** A block of spans stores the spans of the file in order, one for each
    scanline, as long as the stream holds them. *)
Lemma read_spans_content pY pX l :
  forall triples more tbl st',
    NoDup l ->
    Forall (fun sy => in_table pY pX sy = true) l ->
    (length l <= length triples)%nat \/ more = [] ->
    for_each (read_span pY pX) l (mkStream (flat triples ++ more) false, tbl)
    = Next st' ->
    forall i sy t,
      l !! i = Some sy -> triples !! i = Some t ->
      snd st' !! (pY, pX, sy) = Some (decode_span t).
Proof.
  induction l as [| sy0 l IH]; intros triples more tbl st' Hnd Hin Hlen Hrun
                                      i sy t Hl Ht.
  - discriminate.
  - apply NoDup_cons in Hnd as [Hnotin Hnd].
    apply Forall_cons in Hin as [Hin0 Hin].
    destruct triples as [| t0 triples]; [discriminate |].
    cbn [for_each] in Hrun.
    change (flat (t0 :: triples)) with (flat [t0] ++ flat triples) in Hrun.
    rewrite <- app_assoc, (read_span_content pY pX sy0 t0) in Hrun
      by exact Hin0.
    destruct i as [| i].
    + injection Hl as <-. injection Ht as <-.
      rewrite (read_spans_frame pY pX l _ st' _ Hrun).
      * cbn [snd]. apply lookup_insert_eq.
      * intros sy' Hin' E. injection E as <-. contradiction.
    + cbn in Hl, Ht.
      assert (Hlen' : (length l <= length triples)%nat \/ more = []).
      { destruct Hlen as [Hlen | ->];
          [left; cbn [length] in Hlen; lia | now right]. }
      exact (IH triples more _ st' Hnd Hin Hlen' Hrun i sy t Hl Ht).
Qed.

(** A record touches the entries of its own label only. *)
Lemma read_record_frame ty x y st st' :
  read_record ty x y st = Next st' ->
  Capture.prevX st' = x /\ Capture.prevY st' = y /\
  forall key,
    (forall sy, key <> (Capture.prevY st, Capture.prevX st, sy)) ->
    table st' !! key = table st !! key.
Proof.
  unfold read_record. destruct (read 2 (input st)) as [got s].
  destruct (negb _ || negb _); [discriminate |].
  unfold for_range.
  destruct (for_each _ _ _) as [[s' tbl'] | |] eqn:E; try discriminate.
  intros H. injection H as <-. cbn [Capture.prevX Capture.prevY table].
  repeat split. intros key Hkey.
  apply (read_spans_frame _ _ _ _ _ key E). intros sy _. apply Hkey.
Qed.

Lemma records_frame ty :
  forall (l : list (Z * Z)) st st' key,
    for_each (fun p => read_record ty (fst p) (snd p)) l st = Next st' ->
    (forall lbl sy,
        lbl ∈ take (length l) ((Capture.prevX st, Capture.prevY st) :: l) ->
        key <> (snd lbl, fst lbl, sy)) ->
    table st' !! key = table st !! key.
Proof.
  induction l as [| [x y] l IH]; intros st st' key Hrun Hkey.
  - cbn in Hrun. now injection Hrun as <-.
  - cbn [for_each fst snd] in Hrun.
    destruct (read_record ty x y st) as [st1 | |] eqn:E1; try discriminate.
    destruct (read_record_frame ty x y st st1 E1) as (Ex & Ey & Hframe).
    cbn [length] in Hkey. rewrite firstn_cons in Hkey.
    rewrite (IH st1 st' key Hrun).
    + apply Hframe. intros sy.
      apply (Hkey (Capture.prevX st, Capture.prevY st) sy). left.
    + intros lbl sy Hin. apply Hkey. right. now rewrite <- Ex, <- Ey.
Qed.

(** A record stores the spans it carries under its own label. *)
Lemma read_record_content ty x y st st' cx cy triples more :
  input st = mkStream (cx :: cy :: flat triples ++ more) false ->
  0 <= Capture.prevX st <= 256 -> 0 <= Capture.prevY st <= 192 ->
  (Z.to_nat (record_endY ty (Capture.prevY st)
             - record_startY ty (Capture.prevY st) + 1)
   <= length triples)%nat ->
  read_record ty x y st = Next st' ->
  forall i t,
    triples !! i = Some t ->
    Z.of_nat i <= record_endY ty (Capture.prevY st)
                  - record_startY ty (Capture.prevY st) ->
    table st' !! (Capture.prevY st, Capture.prevX st,
                  record_startY ty (Capture.prevY st) + Z.of_nat i)
    = Some (decode_span t).
Proof.
  intros Hin HpX HpY Hlen. unfold read_record. rewrite Hin.
  rewrite read_enough by (cbn [length]; lia). cbn [take drop]. rewrite drop_0.
  destruct (negb _ || negb _); [discriminate |].
  unfold for_range.
  destruct (for_each _ _ _) as [[s' tbl'] | |] eqn:E; try discriminate.
  intros H i t Ht Hi. injection H as <-. cbn [table].
  apply (read_spans_content _ _ _ triples more (table st) (s', tbl')
           (NoDup_seqZ _ _) (record_range_in_table ty _ _ HpX HpY)
           ltac:(left; rewrite length_seqZ; exact Hlen) E i).
  - apply lookup_seqZ. split; [reflexivity | lia].
  - exact Ht.
Qed.

Lemma length_flat triples : length (flat triples) = (3 * length triples)%nat.
Proof.
  unfold flat. induction triples as [| t triples IH]; [reflexivity |].
  rewrite bind_cons, length_app, IH. cbn [length]. lia.
Qed.

(** After the record loop, the entries of a label hold the spans of its
    record, provided no later record carries the same label. *)
Lemma records_content ty :
  forall (l : list (Z * Z)) (recs : list (list byte)) (st st' : parser)
         (rest : list byte) (k : nat) pX pY cx cy triples,
    input st = mkStream (concat recs ++ rest) false ->
    Forall (fun l => 0 <= fst l <= 256 /\ 0 <= snd l <= 192)
           ((Capture.prevX st, Capture.prevY st) :: l) ->
    Forall2 (record_ok ty)
            (take (length l) ((Capture.prevX st, Capture.prevY st) :: l)) recs ->
    for_each (fun p => read_record ty (fst p) (snd p)) l st = Next st' ->
    ((Capture.prevX st, Capture.prevY st) :: l) !! k = Some (pX, pY) ->
    recs !! k = Some (cx :: cy :: flat triples) ->
    (forall j lbl,
        (k < j)%nat ->
        take (length l) ((Capture.prevX st, Capture.prevY st) :: l) !! j
        = Some lbl ->
        lbl <> (pX, pY)) ->
    forall i t,
      triples !! i = Some t ->
      Z.of_nat i <= record_endY ty pY - record_startY ty pY ->
      table st' !! (pY, pX, record_startY ty pY + Z.of_nat i)
      = Some (decode_span t).
Proof.
  induction l as [| [x y] l IH];
    intros recs st st' rest k pX pY cx cy triples Hin Htab Hrecs Hrun Hlbl Hrec
           Hlater i t Ht Hi.
  - cbn [length take] in Hrecs. apply Forall2_nil_inv_l in Hrecs. subst recs.
    discriminate.
  - cbn [length] in Hrecs, Hlater. rewrite firstn_cons in Hrecs, Hlater.
    apply Forall2_cons_inv_l in Hrecs as (rec & recs' & Hok & Hrecs & ->).
    cbn [for_each fst snd] in Hrun.
    destruct (read_record ty x y st) as [st1 | |] eqn:E1; try discriminate.
    destruct (records_accept ty [(x, y)] [rec] st (concat recs' ++ rest))
      as (st1' & Hrun1 & Hin1 & _).
    { rewrite Hin. cbn [concat]. now rewrite app_nil_r, app_assoc. }
    { apply Forall_cons in Htab as [H0 Htab].
      apply Forall_cons in Htab as [H1 _]. now repeat constructor. }
    { cbn [length take]. now repeat constructor. }
    cbn [for_each fst snd] in Hrun1. rewrite E1 in Hrun1.
    injection Hrun1 as <-.
    destruct (read_record_frame ty x y st st1 E1) as (Ex & Ey & _).
    apply Forall_cons in Htab as [[HpX HpY] Htab]. cbn [fst snd] in HpX, HpY.
    destruct k as [| k].
    + injection Hlbl as <- <-. injection Hrec as ->.
      destruct Hok as (cx' & cy' & spans & E & _ & _ & Hlen).
      injection E as <- <- <-.
      unfold record_size in Hlen. cbn [length snd] in Hlen.
      rewrite length_flat in Hlen.
      rewrite (records_frame ty l st1 st' _ Hrun).
      * apply (read_record_content ty x y st st1 cx cy triples
                 (concat recs' ++ rest)); try assumption; try lia.
        rewrite Hin. cbn [concat app]. now rewrite <- app_assoc.
      * intros lbl sy Hin' E. rewrite Ex, Ey in Hin'.
        apply list_elem_of_lookup in Hin' as [j Hj].
        apply (Hlater (S j) lbl ltac:(lia) Hj).
        destruct lbl as [a b]. cbn [fst snd] in E. now injection E as -> ->.
    + cbn in Hlbl, Hrec.
      apply (IH recs' st1 st' rest k pX pY cx cy triples); try assumption.
      * now rewrite Ex, Ey.
      * now rewrite Ex, Ey.
      * now rewrite Ex, Ey.
      * intros j lbl Hj Hlk. rewrite Ex, Ey in Hlk.
        apply (Hlater (S j) lbl ltac:(lia) Hlk).
Qed.

End TableContent.

Section RoundTripContent.

Variable cfg : config.
Variable vram : nat -> Z -> Z.

Let ty := TEST_TYPE cfg.

(** The span bytes of a record, as triples. *)
Lemma write_spans_flat frame pX pY :
  write_spans cfg frame pX pY =
  flat ((fun sy => span_bytes (recorded_span cfg frame pX sy))
          <$> seqZ (record_startY ty pY)
                   (record_endY ty pY - record_startY ty pY + 1)).
Proof.
  assert (Hs : record_startY ty pY
               = if negb (Z.land (TEST_TYPE cfg) 2 =? 0)
                 then Z.min pY (HEIGHT - 1) else 0).
  { unfold record_startY, bottom, HEIGHT, ty. change (192 - 1) with 191.
    destruct (negb _); cbv zeta;
      repeat match goal with
             | |- context [192 <=? ?v] => destruct (Z.leb_spec 192 v)
             end; lia. }
  assert (He : record_endY ty pY
               = if negb (Z.land (TEST_TYPE cfg) 2 =? 0)
                 then HEIGHT - 1 else Z.min pY (HEIGHT - 1)).
  { unfold record_endY, bottom, HEIGHT, ty. change (192 - 1) with 191.
    destruct (negb _); cbv zeta;
      repeat match goal with
             | |- context [192 <=? ?v] => destruct (Z.leb_spec 192 v)
             end; lia. }
  rewrite Hs, He. unfold write_spans. cbv zeta.
  generalize (seqZ (if negb (Z.land (TEST_TYPE cfg) 2 =? 0)
                    then Z.min pY (HEIGHT - 1) else 0)
                   ((if negb (Z.land (TEST_TYPE cfg) 2 =? 0)
                     then HEIGHT - 1 else Z.min pY (HEIGHT - 1))
                    - (if negb (Z.land (TEST_TYPE cfg) 2 =? 0)
                       then Z.min pY (HEIGHT - 1) else 0) + 1)).
  intros l. unfold flat. induction l as [| sy l IH]; [reflexivity |].
  rewrite bind_cons, fmap_cons, bind_cons, IH. reflexivity.
Qed.

(** The sweep loops, record by record: which frame and which position each
    record is written for, and where the loops end. *)
Lemma write_records_content :
  forall (l : list (Z * Z)) (w : writer),
    let w' := foldl (fun w p => write_record cfg vram (fst p) (snd p) w) w l in
    exists recs,
      written w' = written w ++ concat recs /\
      Forall2 (record_ok ty)
              (take (length l) ((Generator.prevX w, Generator.prevY w) :: l))
              recs /\
      frames w' = (frames w + length l)%nat /\
      Some (Generator.prevX w', Generator.prevY w')
      = last ((Generator.prevX w, Generator.prevY w) :: l) /\
      forall j pX pY,
        (j < length l)%nat ->
        ((Generator.prevX w, Generator.prevY w) :: l) !! j = Some (pX, pY) ->
        recs !! j
        = Some (byte_of pX :: byte_of pY
                  :: write_spans cfg (vram (frames w + j)) pX pY).
Proof.
  induction l as [| [x y] l IH]; intros w; cbv zeta.
  - exists []. cbn.
    split; [now rewrite app_nil_r |]. split; [constructor |].
    repeat split; [lia | intros; lia].
  - cbn [foldl fst snd length]. rewrite firstn_cons.
    destruct (IH (write_record cfg vram x y w))
      as (recs & Hw & Hok & Hf & Hlast & Hj).
    cbv zeta in Hw, Hf, Hlast, Hj.
    cbn [write_record written frames Generator.prevX Generator.prevY]
      in Hw, Hok, Hf, Hlast, Hj.
    eexists (_ :: recs). split; [| split; [| split; [| split]]].
    + rewrite Hw. cbn [concat]. now rewrite <- app_assoc.
    + constructor; [| exact Hok].
      eexists _, _, _. split; [reflexivity |].
      cbn [fst snd]. rewrite !byte_val_of. repeat split.
      cbn [length app]. rewrite length_write_spans. reflexivity.
    + rewrite Hf. lia.
    + rewrite Hlast. now rewrite last_cons_cons.
    + intros j pX pY Hlt Hl. destruct j as [| j].
      * injection Hl as <- <-. cbn. now rewrite Nat.add_0_r.
      * cbn in Hl. rewrite lookup_cons.
        rewrite (Hj j pX pY ltac:(lia) Hl).
        now replace (S (frames w) + j)%nat with (frames w + S j)%nat by lia.
Qed.

End RoundTripContent.

Lemma scan_row_range vram checkY columns :
  forall st,
    0 <= first st <= 255 -> 0 <= last_ st <= 255 ->
    0 <= first (scan_row vram checkY columns st) <= 255 /\
    0 <= last_ (scan_row vram checkY columns st) <= 255.
Proof.
  induction columns as [| x columns IH]; intros st Hf Hl; cbn [scan_row].
  - split; assumption.
  - pose proof (Z.mod_pos_bound x 256 ltac:(lia)).
    pose proof (Z.mod_pos_bound (x - 1) 256 ltac:(lia)).
    destruct (negb (found st)); [destruct (negb _) | destruct (_ =? 0)];
      try apply IH; cbn [first last_]; try assumption; lia.
Qed.

Lemma decode_recorded cfg frame pX sy :
  decode_span (span_bytes (recorded_span cfg frame pX sy))
  = span_of_scan (recorded_span cfg frame pX sy).
Proof.
  unfold recorded_span, count_row. cbv zeta.
  match goal with
  | |- context [scan_row ?v ?c ?l ?st] =>
      destruct (scan_row_range v c l st) as [Hf Hl];
      [ cbn [first];
        match goal with
        | |- _ <= ?a mod 256 <= _ =>
            pose proof (Z.mod_pos_bound a 256 ltac:(lia)); lia
        end
      | cbn [last_];
        match goal with
        | |- _ <= ?a mod 256 <= _ =>
            pose proof (Z.mod_pos_bound a 256 ltac:(lia)); lia
        end
      | set (r := scan_row v c l st) in * ]
  end.
  unfold decode_span, span_bytes, span_of_scan. cbn [fst snd].
  rewrite !byte_val_of, (Z.mod_small (first r)), (Z.mod_small (last_ r)) by lia.
  now destruct (found r).
Qed.

Lemma NoDup_sweep mnX mxX mnY mxY : NoDup (sweep mnX mxX mnY mxY).
Proof.
  unfold sweep. apply NoDup_bind.
  - intros y1 y2 p _ _ H1 H2.
    apply list_elem_of_bind in H1 as (x1 & H1 & _).
    apply list_elem_of_bind in H2 as (x2 & H2 & _).
    apply list_elem_of_singleton in H1, H2. congruence.
  - intros y _. apply NoDup_bind.
    + intros x1 x2 p _ _ H1 H2.
      apply list_elem_of_singleton in H1, H2. congruence.
    + intros x _. apply NoDup_singleton.
    + apply NoDup_seqZ.
  - apply NoDup_seqZ.
Qed.

(** How [readFile] builds the table it returns: the record loop over the
    sweep positions, then the trailing block under the last label. *)
Lemma readFile_table coords0 ty mnX mxX mnY mxY recs rest d :
  0 <= ty <= 3 -> 0 <= mnX < 65536 -> 0 <= mxX <= 256 ->
  0 <= mnY < 256 -> 0 <= mxY <= 192 ->
  Forall2 (record_ok ty)
          (take (length (sweep mnX mxX mnY mxY)) (labels mnX mxX mnY mxY))
          recs ->
  readFile coords0
           (Some (header_bytes ty mnX mxX mnY mxY ++ concat recs ++ rest))
  = Returned OK (Some d) ->
  exists st' fin,
    for_each (fun p => read_record ty (fst p) (snd p)) (sweep mnX mxX mnY mxY)
             (mkParser (mkStream (concat recs ++ rest) false) coords0 0 0 ∅)
    = Next st' /\
    input st' = mkStream rest false /\
    Some (Capture.prevX st', Capture.prevY st') = last (labels mnX mxX mnY mxY) /\
    for_each (read_span (Capture.prevY st') (Capture.prevX st'))
             (seqZ (if bottom ty then Z.min mnY 191 else 0)
                   ((if bottom ty then 191 else Z.min mxY 191)
                    - (if bottom ty then Z.min mnY 191 else 0) + 1))
             (input st', table st')
    = Next fin /\
    lines d = snd fin.
Proof.
  intros Hty HmnX HmxX HmnY HmxY Hrecs. unfold readFile.
  rewrite read_header_bytes by lia.
  destruct (Z.leb_spec 0 ty); [| lia]. destruct (Z.leb_spec ty 3); [| lia].
  cbn [andb]. unfold for_range.
  rewrite (for_each_nested (fun x y => read_record ty x y)).
  fold (sweep mnX mxX mnY mxY).
  pose proof (labels_in_table mnX mxX mnY mxY ltac:(lia) ltac:(lia)
                ltac:(lia) ltac:(lia)) as Htab.
  destruct (records_accept ty (sweep mnX mxX mnY mxY) recs
              (mkParser (mkStream (concat recs ++ rest) false) coords0 0 0 ∅)
              rest eq_refl Htab Hrecs)
    as (st' & Hrun & Hin & Hlast).
  rewrite Hrun.
  destruct (for_each (read_span _ _) _ _) as [[s tbl] | |] eqn:E;
    try discriminate.
  intros Hret. injection Hret as <-.
  exists st', (s, tbl). repeat split; assumption.
Qed.

(** The file that [generate] writes, record by record. *)
Lemma generate_layout_content cfg vram :
  let ty := TEST_TYPE cfg in
  let swp := sweep (Generator.minX cfg) (Generator.maxX cfg)
                   (Generator.minY cfg) (Generator.maxY cfg) in
  let lbls := labels (Generator.minX cfg) (Generator.maxX cfg)
                     (Generator.minY cfg) (Generator.maxY cfg) in
  exists recs lastX lastY,
    generate cfg vram
    = header_bytes ty (Generator.minX cfg) (Generator.maxX cfg)
                   (Generator.minY cfg) (Generator.maxY cfg)
        ++ concat recs
        ++ write_spans cfg (vram (length swp)) lastX lastY /\
    Forall2 (record_ok ty) (take (length swp) lbls) recs /\
    Some (lastX, lastY) = last lbls /\
    forall j pX pY,
      (j < length swp)%nat -> lbls !! j = Some (pX, pY) ->
      recs !! j
      = Some (byte_of pX :: byte_of pY :: write_spans cfg (vram j) pX pY).
Proof.
  cbv zeta. unfold generate. cbv zeta.
  rewrite (foldl_nested (write_record cfg vram)).
  fold (sweep (Generator.minX cfg) (Generator.maxX cfg)
              (Generator.minY cfg) (Generator.maxY cfg)).
  match goal with
  | |- context [foldl ?f ?w ?l] =>
      destruct (write_records_content cfg vram l w)
        as (recs & Hw & Hok & Hf & Hlast & Hj);
      cbv zeta in Hw, Hf, Hlast, Hj;
      cbn [written frames Generator.prevX Generator.prevY] in Hw, Hok, Hf, Hlast, Hj;
      destruct (foldl f w l) as [fr lX lY wr]
  end.
  cbn [written frames Generator.prevX Generator.prevY] in *.
  exists recs, lX, lY. subst fr wr. split; [| split; [| split]].
  - rewrite <- !app_assoc. reflexivity.
  - exact Hok.
  - exact Hlast.
  - exact Hj.
Qed.

(** The entry of the table for a sweep position that is not the last. *)
Lemma generated_entry (coords0 : Z * Z) (cfg : config)
        (vram : nat -> Z -> Z) (d : Data) (k : nat) (x y sy : Z) :
  0 <= TEST_TYPE cfg <= 3 ->
  0 <= Generator.minX cfg < 65536 -> 0 <= Generator.maxX cfg <= 256 ->
  0 <= Generator.minY cfg < 256 -> 0 <= Generator.maxY cfg <= 192 ->
  readFile coords0 (Some (generate cfg vram)) = Returned OK (Some d) ->
  sweep (Generator.minX cfg) (Generator.maxX cfg)
        (Generator.minY cfg) (Generator.maxY cfg) !! k = Some (x, y) ->
  (S k < length (sweep (Generator.minX cfg) (Generator.maxX cfg)
                       (Generator.minY cfg) (Generator.maxY cfg)))%nat ->
  record_startY (TEST_TYPE cfg) y <= sy <= record_endY (TEST_TYPE cfg) y ->
  span_at (lines d) y x sy
  = span_of_scan (recorded_span cfg (vram (S k)) x sy).
Proof.
  intros Hty HmnX HmxX HmnY HmxY Hread Hk HSk Hsy.
  destruct (generate_layout_content cfg vram)
    as (recs & lX & lY & Hgen & Hok & _ & Hj).
  cbv zeta in *. rewrite Hgen in Hread.
  set (swp := sweep (Generator.minX cfg) (Generator.maxX cfg)
                    (Generator.minY cfg) (Generator.maxY cfg)) in *.
  set (lbls := labels (Generator.minX cfg) (Generator.maxX cfg)
                      (Generator.minY cfg) (Generator.maxY cfg)) in *.
  destruct (readFile_table _ _ _ _ _ _ _ _ _ Hty HmnX HmxX HmnY HmxY Hok Hread)
    as (st' & fin & Hrun & Hin & Hlast & Hfin & Hlines).
  fold swp lbls in Hrun, Hlast.
  pose proof (NoDup_sweep (Generator.minX cfg) (Generator.maxX cfg)
                (Generator.minY cfg) (Generator.maxY cfg)) as Hnd.
  fold swp in Hnd.
  pose proof (Hj (S k) x y HSk Hk) as Hrec. rewrite write_spans_flat in Hrec.
  set (i := Z.to_nat (sy - record_startY (TEST_TYPE cfg) y)).
  assert (Hkey : record_startY (TEST_TYPE cfg) y + Z.of_nat i = sy)
    by (unfold i; lia).
  assert (Hentry : table st' !! (y, x, sy)
                   = Some (decode_span
                             (span_bytes (recorded_span cfg (vram (S k)) x sy)))).
  { rewrite <- Hkey at 1.
    eapply (records_content (TEST_TYPE cfg) swp recs
              (mkParser (mkStream (concat recs ++ _) false) coords0 0 0 ∅)
              st' _ (S k) x y _ _ _ eq_refl).
    - apply labels_in_table; lia.
    - exact Hok.
    - exact Hrun.
    - exact Hk.
    - exact Hrec.
    - intros j lbl Hlt Hl Heq. subst lbl.
      apply lookup_take_Some in Hl as [Hl Hjn].
      destruct j as [| j]; [lia |]. cbn in Hl.
      pose proof (NoDup_lookup _ _ _ _ Hnd Hl Hk). lia.
    - rewrite list_lookup_fmap, lookup_seqZ_lt by lia. cbn [fmap option_fmap option_map].
      now rewrite Hkey.
    - lia. }
  unfold span_at. rewrite Hlines.
  rewrite (read_spans_frame _ _ _ _ _ (y, x, sy) Hfin).
  - cbn [snd]. rewrite Hentry. cbn [default]. apply decode_recorded.
  - intros sy' _ E. injection E as E1 E2 _.
    rewrite last_lookup in Hlast. unfold lbls, labels in Hlast.
    cbn [length pred] in Hlast. fold swp in Hlast.
    destruct (length swp) as [| n] eqn:En; [lia |].
    cbn in Hlast. symmetry in Hlast. rewrite <- E1, <- E2 in Hlast.
    pose proof (NoDup_lookup _ _ _ _ Hnd Hlast Hk). lia.
Qed.

(** X11.  Round trip of the captured spans.  When the file that [generate]
    wrote is loaded, every sweep position but the last has in the table, on
    every scanline of its range, exactly the span the generator found in the
    frame it captured for that position: the frame drawn after the position
    next in the sweep. *)
Theorem generate_content (coords0 : Z * Z) (cfg : config)
        (vram : nat -> Z -> Z) (d : Data) (k : nat) (x y sy : Z) :
  0 <= TEST_TYPE cfg <= 3 ->
  0 <= Generator.minX cfg < 65536 -> 0 <= Generator.maxX cfg <= 256 ->
  0 <= Generator.minY cfg < 256 -> 0 <= Generator.maxY cfg <= 192 ->
  readFile coords0 (Some (generate cfg vram)) = Returned OK (Some d) ->
  sweep (Generator.minX cfg) (Generator.maxX cfg)
        (Generator.minY cfg) (Generator.maxY cfg) !! k = Some (x, y) ->
  (S k < length (sweep (Generator.minX cfg) (Generator.maxX cfg)
                       (Generator.minY cfg) (Generator.maxY cfg)))%nat ->
  record_startY (TEST_TYPE cfg) y <= sy <= record_endY (TEST_TYPE cfg) y ->
  span_at (lines d) y x sy
  = span_of_scan (recorded_span cfg (vram (S k)) x sy).
Proof. apply generated_entry. Qed.

Lemma generate_content_witness :
  let cfg := mkConfig 0 0 2 0 0 in
  let vram := fun (_ : nat) (i : Z) => if i =? 1 then 1 else 0 in
  exists d,
    readFile (0, 0) (Some (generate cfg vram)) = Returned OK (Some d) /\
    span_at (lines d) 0 1 0 = span_of_scan (recorded_span cfg (vram 2%nat) 1 0).
Proof.
  intros cfg vram.
  assert (E : exists d,
             readFile (0, 0) (Some (generate cfg vram)) = Returned OK (Some d))
    by (vm_compute; eexists; reflexivity).
  destruct E as [d E]. exists d. split; [exact E |].
  apply (generate_content (0, 0) cfg vram d 1 1 0);
    [ simpl; lia | simpl; lia | simpl; lia | simpl; lia | simpl; lia
    | exact E | reflexivity | vm_compute; lia | vm_compute; split; discriminate ].
Defined.

(** The entries of the table for the last sweep position. *)
Lemma generated_entry_last (coords0 : Z * Z) (cfg : config)
        (vram : nat -> Z -> Z) (d : Data) (x y i : Z) :
  0 <= TEST_TYPE cfg <= 3 ->
  0 <= Generator.minX cfg < 65536 -> 0 <= Generator.maxX cfg <= 256 ->
  0 <= Generator.minY cfg < 256 -> 0 <= Generator.maxY cfg <= 192 ->
  readFile coords0 (Some (generate cfg vram)) = Returned OK (Some d) ->
  last (sweep (Generator.minX cfg) (Generator.maxX cfg)
              (Generator.minY cfg) (Generator.maxY cfg)) = Some (x, y) ->
  let n := length (sweep (Generator.minX cfg) (Generator.maxX cfg)
                         (Generator.minY cfg) (Generator.maxY cfg)) in
  let written_from := record_startY (TEST_TYPE cfg) y in
  let written_to := record_endY (TEST_TYPE cfg) y in
  let read_from :=
    if bottom (TEST_TYPE cfg) then Z.min (Generator.minY cfg) 191 else 0 in
  let read_to :=
    if bottom (TEST_TYPE cfg) then 191 else Z.min (Generator.maxY cfg) 191 in
  0 <= i -> written_from + i <= written_to -> read_from + i <= read_to ->
  span_at (lines d) y x (read_from + i)
  = span_of_scan (recorded_span cfg (vram n) x (written_from + i)).
Proof.
  intros Hty HmnX HmxX HmnY HmxY Hread Hl. cbv zeta. intros Hi Hw Hr.
  destruct (generate_layout_content cfg vram)
    as (recs & lX & lY & Hgen & Hok & Hlast & _).
  cbv zeta in *. rewrite Hgen in Hread.
  set (swp := sweep (Generator.minX cfg) (Generator.maxX cfg)
                    (Generator.minY cfg) (Generator.maxY cfg)) in *.
  destruct (readFile_table _ _ _ _ _ _ _ _ _ Hty HmnX HmxX HmnY HmxY Hok Hread)
    as (st' & fin & _ & Hin & Hlast' & Hfin & Hlines).
  assert (Hlbl : last (labels (Generator.minX cfg) (Generator.maxX cfg)
                              (Generator.minY cfg) (Generator.maxY cfg))
                 = Some (x, y)).
  { unfold labels. fold swp. rewrite last_cons, Hl. reflexivity. }
  rewrite Hlbl in Hlast, Hlast'. injection Hlast as -> ->.
  injection Hlast' as Ex Ey. rewrite Ex, Ey, Hin in Hfin.
  rewrite write_spans_flat in Hfin.
  rewrite <- (app_nil_r (flat _)) in Hfin.
  unfold span_at. rewrite Hlines.
  assert (Hxy : 0 <= x <= 256 /\ 0 <= y <= 192).
  { apply last_Some_elem_of in Hl. apply sweep_elem in Hl. lia. }
  erewrite (read_spans_content y x _ _ [] _ fin (NoDup_seqZ _ _) _
              (or_intror eq_refl) Hfin (Z.to_nat i) (_ + i)).
  - cbn [default]. apply decode_recorded.
  - apply lookup_seqZ. split; [lia |]. destruct (bottom _); lia.
  - rewrite list_lookup_fmap, lookup_seqZ_lt by lia.
    cbn [fmap option_fmap option_map]. do 3 f_equal. lia.
  Unshelve.
  apply Forall_forall. intros scanY Hs. apply elem_of_seqZ in Hs.
  assert (0 <= scanY <= 191) by (destruct (bottom (TEST_TYPE cfg)); lia).
  unfold in_table.
  repeat (apply andb_true_intro; split); apply Z.leb_le; lia.
Qed.

(** X12.  The spans of the last sweep position.  The generator writes them for
    the scanlines of that position, the parser stores them one after the other
    from the first scanline of its own trailing range: the i-th span written
    is the entry of the i-th scanline read.  For the top corners the two
    ranges start at scanline 0 and the entries are in place; for the bottom
    corners the parser starts at [min(minY, 191)] where the generator started
    at [min(y, 191)]. *)
Theorem generate_content_last (coords0 : Z * Z) (cfg : config)
        (vram : nat -> Z -> Z) (d : Data) (x y i : Z) :
  0 <= TEST_TYPE cfg <= 3 ->
  0 <= Generator.minX cfg < 65536 -> 0 <= Generator.maxX cfg <= 256 ->
  0 <= Generator.minY cfg < 256 -> 0 <= Generator.maxY cfg <= 192 ->
  readFile coords0 (Some (generate cfg vram)) = Returned OK (Some d) ->
  last (sweep (Generator.minX cfg) (Generator.maxX cfg)
              (Generator.minY cfg) (Generator.maxY cfg)) = Some (x, y) ->
  let n := length (sweep (Generator.minX cfg) (Generator.maxX cfg)
                         (Generator.minY cfg) (Generator.maxY cfg)) in
  let written_from := record_startY (TEST_TYPE cfg) y in
  let written_to := record_endY (TEST_TYPE cfg) y in
  let read_from :=
    if bottom (TEST_TYPE cfg) then Z.min (Generator.minY cfg) 191 else 0 in
  let read_to :=
    if bottom (TEST_TYPE cfg) then 191 else Z.min (Generator.maxY cfg) 191 in
  0 <= i -> written_from + i <= written_to -> read_from + i <= read_to ->
  span_at (lines d) y x (read_from + i)
  = span_of_scan (recorded_span cfg (vram n) x (written_from + i)).
Proof. apply generated_entry_last. Qed.

Lemma generate_content_last_witness :
  let cfg := mkConfig 2 0 0 0 1 in
  let vram := fun (_ : nat) (i : Z) => if i =? 256 then 1 else 0 in
  exists d,
    readFile (0, 0) (Some (generate cfg vram)) = Returned OK (Some d) /\
    span_at (lines d) 1 0 0 = span_of_scan (recorded_span cfg (vram 2%nat) 0 1).
Proof.
  intros cfg vram.
  assert (E : exists d,
             readFile (0, 0) (Some (generate cfg vram)) = Returned OK (Some d))
    by (vm_compute; eexists; reflexivity).
  destruct E as [d E]. exists d. split; [exact E |].
  apply (generate_content_last (0, 0) cfg vram d 0 1 0);
    [ simpl; lia | simpl; lia | simpl; lia | simpl; lia | simpl; lia
    | exact E | reflexivity | lia | vm_compute; discriminate
    | vm_compute; discriminate ].
Defined.

(** ** The interpolator on the scanlines the harness visits *)

Section VisitedScanlines.

Variables x0 y0 x1 y1 : Z.
Hypothesis Hx0 : 0 <= x0 <= 256.
Hypothesis Hx1 : 0 <= x1 <= 256.
Hypothesis Hy0 : 0 <= y0.
Hypothesis Hy : y0 < y1.
Hypothesis Hy1 : y1 <= 256.

Let dx := Z.abs (x1 - x0).
Let dy := y1 - y0.
Let q := kOne / dy.
Let d := increment dx dy.

Lemma increment_top_down :
  d = dx * q /\ 1024 <= q /\ dy * q <= kOne /\ 0 <= dx <= 256.
Proof.
  unfold d, increment, q.
  destruct (Z.eqb_spec dy 0) as [E | _]; [unfold dy in E; lia |].
  destruct (reciprocal_bounds dy ltac:(unfold dy; lia)) as [Hq Hdq].
  repeat split; try lia; unfold dx; lia.
Qed.

(** A slope that is not X-major moves by at most one pixel per scanline. *)
Lemma increment_le_one : dx <= dy -> 0 <= d <= kOne.
Proof.
  intros Hm. destruct increment_top_down as (-> & Hq & Hdq & Hdx).
  rewrite kOne_eq in *. nia.
Qed.

Lemma non_xmajor_step_top_down y :
  y0 <= y -> y + 1 <= y1 -> IsXMajor (Setup x0 y0 x1 y1) = false ->
  if IsNegative (Setup x0 y0 x1 y1)
  then XStart (Setup x0 y0 x1 y1) y - 1 <= XStart (Setup x0 y0 x1 y1) (y + 1)
       <= XStart (Setup x0 y0 x1 y1) y
  else XStart (Setup x0 y0 x1 y1) y <= XStart (Setup x0 y0 x1 y1) (y + 1)
       <= XStart (Setup x0 y0 x1 y1) y + 1.
Proof.
  intros Hlo Hhi.
  destruct (flags_top_down x0 y0 x1 y1 Hx0 Hx1 Hy0 ltac:(lia) Hy1) as [En Em].
  rewrite En, Em. intros Hm. apply Z.ltb_ge in Hm.
  pose proof (increment_le_one Hm) as Hd.
  unfold XStart.
  rewrite (FracXStart_screen x0 y0 x1 y1) by lia.
  rewrite (FracXStart_screen x0 y0 x1 y1 Hx0 Hx1 Hy0 ltac:(lia) Hy1 (y + 1))
    by lia.
  fold dx dy d.
  set (m := m_x0 (Setup x0 y0 x1 y1)).
  destruct (x1 <? x0).
  - replace (m - (y + 1 - y0) * d) with (m - (y - y0) * d - d) by lia.
    split.
    + rewrite <- shift_sub_one. apply shift_mono. lia.
    + apply shift_mono. lia.
  - replace (m + (y + 1 - y0) * d) with (m + (y - y0) * d + d) by lia.
    split.
    + apply shift_mono. lia.
    + rewrite <- shift_add_one. apply shift_mono. lia.
Qed.

End VisitedScanlines.

(** X13.  A slope that is not X-major has no gaps: between endpoints of the
    screen the one pixel of the next scanline is in the same column as the
    pixel of this one or in the column next to it, in the direction of the
    slope. *)
Theorem non_xmajor_step (x0 y0 x1 y1 y : Z) :
  in_screen x0 y0 -> in_screen x1 y1 ->
  Z.min y0 y1 <= y -> y + 1 <= Z.max y0 y1 ->
  IsXMajor (Setup x0 y0 x1 y1) = false ->
  let s := Setup x0 y0 x1 y1 in
  if IsNegative s
  then XStart s y - 1 <= XStart s (y + 1) <= XStart s y
  else XStart s y <= XStart s (y + 1) <= XStart s y + 1.
Proof.
  intros [Hx0 Hy0] [Hx1 Hy1] Hlo Hhi Hm.
  destruct (Z.lt_ge_cases y0 y1) as [Hlt | Hge].
  - apply non_xmajor_step_top_down; try lia. exact Hm.
  - rewrite (Setup_swap x0 y0 x1 y1) in * by lia.
    apply non_xmajor_step_top_down; try lia. exact Hm.
Qed.

Lemma non_xmajor_step_witness :
  in_screen 0 0 /\ in_screen 10 100 /\
  XStart (Setup 0 0 10 100) 9 <= XStart (Setup 0 0 10 100) 10
  <= XStart (Setup 0 0 10 100) 9 + 1.
Proof.
  assert (H0 : in_screen 0 0) by (unfold in_screen; lia).
  assert (H1 : in_screen 10 100) by (unfold in_screen; lia).
  split; [exact H0 | split; [exact H1 |]].
  exact (non_xmajor_step 0 0 10 100 9 H0 H1 ltac:(simpl; lia) ltac:(simpl; lia)
           eq_refl).
Defined.

Section VisitedSpans.

Variables x0 y0 x1 y1 : Z.
Hypothesis Hx0 : 0 <= x0 <= 256.
Hypothesis Hx1 : 0 <= x1 <= 256.
Hypothesis Hy0 : 0 <= y0.
Hypothesis Hy : y0 < y1.
Hypothesis Hy1 : y1 <= 256.

Let s := Setup x0 y0 x1 y1.

(** The leftmost pixel of a negative slope that is not X-major, above the
    last scanline: the step still to come keeps it at or right of the lower
    endpoint. *)
Lemma negative_single_pixel_left y :
  y0 <= y < y1 -> x1 < x0 -> x0 - x1 <= y1 - y0 ->
  x1 <= XStart s y.
Proof.
  intros Hr Hneg Hm. unfold XStart, s.
  rewrite (FracXStart_screen x0 y0 x1 y1) by lia.
  rewrite Setup_in_screen by lia. cbv zeta. cbn [m_x0].
  destruct (Z.ltb_spec x1 x0) as [_ | ?]; [| lia].
  rewrite (Z.abs_neq (x1 - x0)) by lia.
  replace (- (x1 - x0)) with (x0 - x1) by lia.
  destruct (Z.ltb_spec (y1 - y0) (x0 - x1)) as [? | _]; [lia |].
  cbn [orb].
  pose proof (displacement_bounds x0 y0 x1 y1) as Hb.
  rewrite (Z.abs_neq (x1 - x0)) in Hb by lia.
  replace (- (x1 - x0)) with (x0 - x1) in Hb by lia.
  pose proof (Hb ltac:(lia) ltac:(lia) ltac:(lia) (y - y0) ltac:(lia)) as Hb0.
  specialize (Hb ltac:(lia) ltac:(lia) ltac:(lia) (y + 1 - y0) ltac:(lia)).
  set (d := increment (x0 - x1) (y1 - y0)) in *.
  assert (Hd : 1 + (if x0 - x1 =? y1 - y0 then kBias else 0) <= d).
  { unfold d, increment.
    destruct (Z.eqb_spec (y1 - y0) 0) as [? | _]; [lia |].
    destruct (reciprocal_bounds (y1 - y0) ltac:(lia)) as [Hq Hdq].
    rewrite kOne_eq, kBias_eq in *.
    destruct (Z.eqb_spec (x0 - x1) (y1 - y0)) as [E | E].
    - rewrite E. lia.
    - nia. }
  apply shift_between with (b := x0).
  rewrite kOne_eq, kBias_eq in *.
  destruct (x0 - x1 =? y1 - y0); lia.
Qed.

(** On a scanline above the last one the span lies between the endpoint
    columns, its left end first. *)
Lemma visited_span_top_down y :
  y0 <= y < y1 ->
  Z.min x0 x1 <= fst (screen_span s y) /\
  fst (screen_span s y) <= snd (screen_span s y) /\
  snd (screen_span s y) <= Z.max x0 x1.
Proof.
  intros Hr.
  pose proof (span_order_top_down x0 y0 x1 y1 Hx0 Hx1 Hy0 ltac:(lia) Hy1 y
                ltac:(lia)) as Hord.
  pose proof (XStart_top_down x0 y0 x1 y1 Hx0 Hx1 Hy0 ltac:(lia) Hy1 y
                ltac:(lia)) as Hst.
  pose proof (XStart_top_down x0 y0 x1 y1 Hx0 Hx1 Hy0 ltac:(lia) Hy1 (y + 1)
                ltac:(lia)) as Hst'.
  pose proof (span_gap_top_down x0 y0 x1 y1 Hx0 Hx1 Hy0 ltac:(lia) Hy1 y
                ltac:(lia) ltac:(lia)) as Hgap.
  destruct (flags_top_down x0 y0 x1 y1 Hx0 Hx1 Hy0 ltac:(lia) Hy1) as [En Em].
  cbv zeta in *. fold s in Hord, Hst, Hst', Hgap, En, Em.
  unfold screen_span.
  destruct (IsXMajor s) eqn:Exm.
  - specialize (Hgap eq_refl).
    destruct (IsNegative s); cbn [fst snd]; lia.
  - destruct (IsNegative s) eqn:Eneg; cbn [fst snd].
    + symmetry in En, Em. apply Z.ltb_lt in En. apply Z.ltb_ge in Em.
      rewrite (Z.abs_neq (x1 - x0)) in Em by lia.
      pose proof (negative_single_pixel_left y Hr En ltac:(lia)) as Hleft.
      fold s in Hleft. lia.
    + lia.
Qed.

End VisitedSpans.

(** X14.  The spans the harness compares are well formed.  For an anchor and a
    sweep position on the screen, on every scanline that the loop of
    [testSlope] visits, the span of the slope it configures lies between the
    two endpoint columns with its left end first: the off-screen column -1
    of the last scanline of a negative slope is never compared. *)
Theorem tested_span_within_endpoints (x0 y0 x1 y1 y : Z) :
  in_screen x0 y0 -> in_screen x1 y1 ->
  Z.min y0 y1 <= y < Z.max (Z.max y0 y1) (Z.min y0 y1 + 1) ->
  let span := screen_span (tested_slope x0 y0 x1 y1) y in
  Z.min x0 x1 <= fst span /\ fst span <= snd span /\ snd span <= Z.max x0 x1.
Proof.
  intros [Hx0 Hy0] [Hx1 Hy1] Hr. cbv zeta. unfold tested_slope.
  destruct (Z.ltb_spec y1 y0) as [Hlt | Hge].
  - destruct (Z.eqb_spec y1 y0) as [E | _]; [lia |].
    rewrite (Z.min_comm x0 x1), (Z.max_comm x0 x1).
    apply visited_span_top_down; lia.
  - destruct (Z.eqb_spec y0 y1) as [E | E].
    + rewrite add32_succ by lia. apply visited_span_top_down; lia.
    + apply visited_span_top_down; lia.
Qed.

Lemma tested_span_within_endpoints_witness :
  in_screen 0 2 /\ in_screen 1 0 /\
  let span := screen_span (tested_slope 0 2 1 0) 1 in
  Z.min 0 1 <= fst span /\ fst span <= snd span /\ snd span <= Z.max 0 1.
Proof.
  assert (H0 : in_screen 0 2) by (unfold in_screen; lia).
  assert (H1 : in_screen 1 0) by (unfold in_screen; lia).
  split; [exact H0 | split; [exact H1 |]].
  exact (tested_span_within_endpoints 0 2 1 0 1 H0 H1 ltac:(simpl; lia)).
Defined.
(** * The screen capture tools *)

Import ScreenCap.

Lemma foldl_const_iter {T A : Type} (f : T -> T) (l : list A) (st : T) :
  foldl (fun st _ => f st) st l = Nat.iter (length l) f st.
Proof.
  revert st. induction l as [| a l IH]; intros st; cbn [foldl length].
  - reflexivity.
  - rewrite IH. symmetry. apply Nat.iter_succ_r.
Qed.

Lemma foldl_nested_iter {T A B : Type} (f : T -> T) (xs : list A) (ys : list B)
      (st : T) :
  foldl (fun st _ => foldl (fun st _ => f st) st xs) st ys
  = Nat.iter (length ys * length xs) f st.
Proof.
  revert st. induction ys as [| y ys IH]; intros st; cbn [foldl length].
  - reflexivity.
  - rewrite IH, foldl_const_iter.
    replace (S (length ys) * length xs)%nat
      with (length ys * length xs + length xs)%nat by lia.
    symmetry. apply Nat.iter_add.
Qed.

(** The number of pixels of a capture. *)
Lemma pixel_count :
  (length (seqZ 0 192) * length (seqZ 0 256))%nat = Z.to_nat 49152.
Proof. rewrite !length_seqZ. lia. Qed.

Lemma iter_bind_None {T : Type} (f : T -> option T) n :
  Nat.iter n (fun st => st ≫= f) None = None.
Proof.
  induction n as [| n IH]; [reflexivity |].
  rewrite Nat.iter_succ, IH. reflexivity.
Qed.

Lemma length_words bytes : length (words bytes) = (length bytes / 2)%nat.
Proof.
  induction bytes as [bytes IH] using (well_founded_induction
    (well_founded_ltof _ (@length byte))).
  destruct bytes as [| lo [| hi rest]]; [reflexivity | reflexivity |].
  cbn [words length]. rewrite IH by (unfold ltof; cbn; lia).
  change (S (S (length rest))) with (2 + length rest)%nat.
  replace (2 + length rest)%nat with (length rest + 1 * 2)%nat by lia.
  rewrite Nat.div_add by lia. lia.
Qed.

(** While two bytes are left for every pixel, each step stores a word and
    writes its pixel. *)
Lemma convert_words n : forall bytes clr out,
  (2 * n <= length bytes)%nat ->
  Nat.iter n (fun st => st ≫= convert_pixel)
           (Some (mkStream bytes false, clr, out))
  = Some (mkStream (drop (2 * n) bytes) false,
          match last (take n (words bytes)) with
          | Some w => Some w
          | None => clr
          end,
          out ++ concat (pixel <$> take n (words bytes))).
Proof.
  induction n as [| n IH]; intros bytes clr out Hlen.
  - cbn [take last fmap list_fmap concat]. rewrite drop_0, app_nil_r.
    reflexivity.
  - rewrite Nat.iter_succ_r.
    destruct bytes as [| lo [| hi rest]]; cbn [length] in Hlen; try lia.
    cbn [mbind option_bind convert_pixel read failbit pending length Nat.leb
         take drop load_clr load_u16].
    rewrite drop_0, IH by lia.
    replace (2 * S n)%nat with (S (S (2 * n))) by lia.
    cbn [drop words take fmap list_fmap concat]. rewrite last_cons.
    rewrite <- app_assoc.
    destruct (last (take n (words rest))); reflexivity.
Qed.

(** Once the stream has failed nothing more is stored: the last colour is
    written again. *)
Lemma convert_failed m : forall p c out,
  Nat.iter m (fun st => st ≫= convert_pixel) (Some (mkStream p true, Some c, out))
  = Some (mkStream p true, Some c, out ++ concat (replicate m (pixel c))).
Proof.
  induction m as [| m IH]; intros p c out.
  - cbn [replicate concat]. rewrite app_nil_r. reflexivity.
  - rewrite Nat.iter_succ_r.
    cbn [mbind option_bind convert_pixel read failbit load_clr load_u16].
    rewrite IH. cbn [replicate concat]. rewrite <- app_assoc. reflexivity.
Qed.

(** The step at which the input runs out. *)
Lemma convert_short tail clr out :
  (length tail < 2)%nat ->
  Some (mkStream tail false, clr, out) ≫= convert_pixel
  = match clr with
    | Some v =>
        Some (mkStream [] true, Some (load_u16 tail v),
              out ++ pixel (load_u16 tail v))
    | None => None
    end.
Proof.
  intros Hlen.
  destruct tail as [| lo [| hi rest]]; cbn [length] in Hlen; try lia;
    destruct clr; reflexivity.
Qed.

Lemma convertScreenCap_missing : convertScreenCap None = None.
Proof.
  unfold convertScreenCap. rewrite foldl_nested_iter, pixel_count.
  destruct (Z.to_nat 49152) as [| n] eqn:E; [lia |].
  rewrite Nat.iter_succ_r. cbn [open mbind option_bind convert_pixel read failbit load_clr].
  rewrite iter_bind_None. reflexivity.
Qed.

(** The run of [convertScreenCap] on a file of any length. *)
Lemma convertScreenCap_run bytes :
  let ws := words bytes in
  let n := Z.to_nat 49152 in
  convertScreenCap (Some bytes)
  = match last (take n ws) with
    | Some w =>
        let c := load_u16 (drop (2 * length ws) bytes) w in
        Some (tga_header 2 24
              ++ concat (pixel <$> take n ws ++ replicate (n - length ws) c))
    | None => None
    end.
Proof.
  cbv zeta. unfold convertScreenCap.
  rewrite foldl_nested_iter, pixel_count. cbn [open].
  set (n := Z.to_nat 49152). assert (Hn : (0 < n)%nat) by (unfold n; lia).
  clearbody n.
  pose proof (length_words bytes) as Hw.
  pose proof (Nat.div_mod_eq (length bytes) 2) as Hdm.
  pose proof (Nat.mod_upper_bound (length bytes) 2 ltac:(lia)) as Hmod.
  destruct (Nat.le_gt_cases n (length (words bytes))) as [Hfull | Hcut].
  - rewrite convert_words by lia. cbn [fmap option_fmap option_map snd].
    replace (n - length (words bytes))%nat with 0%nat by lia.
    cbn [replicate]. rewrite app_nil_r.
    destruct (last (take n (words bytes))) as [w |] eqn:El.
    + reflexivity.
    + apply last_None in El. apply (f_equal length) in El.
      rewrite length_take in El. cbn in El. lia.
  - assert (exists m, n = (S m + length (words bytes))%nat) as [m ->]
      by (exists (n - length (words bytes) - 1)%nat; lia).
    rewrite Nat.iter_add, convert_words by lia.
    rewrite !take_ge by lia.
    rewrite Nat.iter_succ_r, convert_short by (rewrite length_drop; lia).
    destruct (last (words bytes)) as [w |] eqn:El.
    + rewrite convert_failed. cbn [fmap option_fmap option_map snd].
      rewrite fmap_app, concat_app, fmap_replicate.
      replace (S m + length (words bytes) - length (words bytes))%nat
        with (S m) by lia.
      cbn [replicate concat]. rewrite <- !app_assoc. reflexivity.
    + rewrite iter_bind_None. reflexivity.
Qed.

Lemma channel_mod clr shift :
  0 <= shift -> channel clr shift = (clr / 2 ^ shift) mod 32.
Proof.
  intros Hs. unfold channel. rewrite Z.shiftr_div_pow2 by exact Hs.
  change 31 with (Z.ones 5). rewrite Z.land_ones by lia. reflexivity.
Qed.

Lemma expand_small c : 0 <= c < 32 -> expand c = 8 * c + c / 4.
Proof.
  intros Hc.
  assert (H : forall n : nat, (n < 32)%nat ->
                expand (Z.of_nat n) = 8 * Z.of_nat n + Z.of_nat n / 4).
  { intros n Hn. do 32 (destruct n as [| n]; [reflexivity |]). lia. }
  rewrite <- (Z2Nat.id c) by lia. apply H. lia.
Qed.

(** The bytes of a pixel in arithmetic: each channel is the five bits of the
    colour followed by a copy of their top three bits. *)
Lemma pixel_bytes clr :
  let r5 := clr mod 32 in
  let g5 := (clr / 32) mod 32 in
  let b5 := (clr / 1024) mod 32 in
  pixel clr = [byte_of (8 * b5 + b5 / 4); byte_of (8 * g5 + g5 / 4);
               byte_of (8 * r5 + r5 / 4)].
Proof.
  cbv zeta. unfold pixel. rewrite !channel_mod by lia.
  change (2 ^ 0) with 1. change (2 ^ 5) with 32. change (2 ^ 10) with 1024.
  rewrite Z.div_1_r.
  assert (Hsmall : forall c, 0 <= c < 32 -> expand (c mod 256) mod 256 = 8 * c + c / 4).
  { intros c Hc. rewrite (Z.mod_small c 256) by lia. rewrite expand_small by lia.
    apply Z.mod_small. Z.div_mod_to_equations. lia. }
  rewrite !Hsmall by (apply Z.mod_pos_bound; lia). reflexivity.
Qed.

Lemma length_pixel clr : length (pixel clr) = 3%nat.
Proof. reflexivity. Qed.

Lemma length_concat_pixels (ws : list Z) :
  length (concat (pixel <$> ws)) = (3 * length ws)%nat.
Proof.
  induction ws as [| w ws IH]; [reflexivity |].
  rewrite fmap_cons. cbn [concat]. rewrite length_app, length_pixel, IH.
  cbn [length]. lia.
Qed.

Lemma length_tga_header image_type bpp : length (tga_header image_type bpp) = 18%nat.
Proof. reflexivity. Qed.

Lemma decode_pixel_pixel clr : decode_pixel (pixel clr) = clr mod 32768.
Proof.
  rewrite pixel_bytes. cbv zeta. unfold decode_pixel.
  rewrite !byte_val_of.
  assert (Hsmall : forall c, 0 <= c < 32 -> ((8 * c + c / 4) mod 256) / 8 = c).
  { intros c Hc. Z.div_mod_to_equations. lia. }
  rewrite !Hsmall by (apply Z.mod_pos_bound; lia).
  Z.div_mod_to_equations. lia.
Qed.

Lemma pixel_mod clr : pixel (clr mod 32768) = pixel clr.
Proof.
  rewrite !pixel_bytes. cbv zeta.
  assert (E0 : (clr mod 32768) mod 32 = clr mod 32)
    by (Z.div_mod_to_equations; lia).
  assert (E1 : (clr mod 32768 / 32) mod 32 = (clr / 32) mod 32)
    by (Z.div_mod_to_equations; lia).
  assert (E2 : (clr mod 32768 / 1024) mod 32 = (clr / 1024) mod 32)
    by (Z.div_mod_to_equations; lia).
  rewrite E0, E1, E2. reflexivity.
Qed.

(** On a full capture every pixel is read from the file. *)
Lemma convert_full_image bytes :
  98304 <= Z.of_nat (length bytes) ->
  convertScreenCap (Some bytes)
  = Some (tga_header 2 24
          ++ concat (pixel <$> take (Z.to_nat 49152) (words bytes))).
Proof.
  intros Hlen. rewrite convertScreenCap_run. cbv zeta.
  pose proof (length_words bytes) as Hw.
  pose proof (Nat.div_mod_eq (length bytes) 2) as Hdm.
  pose proof (Nat.mod_upper_bound (length bytes) 2 ltac:(lia)) as Hmod.
  destruct (last (take (Z.to_nat 49152) (words bytes))) as [w |] eqn:El.
  - replace (Z.to_nat 49152 - length (words bytes))%nat with 0%nat by lia.
    cbn [replicate]. rewrite app_nil_r. reflexivity.
  - apply last_None in El. apply (f_equal length) in El.
    rewrite length_take in El. cbn [length] in El. lia.
Qed.

(** X15.  The pixel that [convertScreenCap] writes keeps the colour, bit 15
    apart.  The top five bits of the red, green and blue bytes are the three
    channels of the colour word, so the low 15 bits of the word are read back
    from the pixel, and bit 15 has no influence on it. *)
Theorem pixel_round_trip (clr : Z) :
  decode_pixel (pixel clr) = clr mod 32768 /\
  pixel (clr mod 32768) = pixel clr.
Proof. split; [apply decode_pixel_pixel | apply pixel_mod]. Qed.

(** X16.  On a capture of at least 256 x 192 words, [convertScreenCap] writes
    the 18-byte header of a 256 x 192 true-colour image followed by the pixel
    of each of the first 49152 little-endian words of the file, in the order
    of the file: 147474 bytes, whatever follows in the file. *)
Theorem convertScreenCap_full (bytes : list byte) :
  98304 <= Z.of_nat (length bytes) ->
  exists out,
    convertScreenCap (Some bytes) = Some out /\
    out = tga_header 2 24
          ++ concat (pixel <$> take (Z.to_nat 49152) (words bytes)) /\
    Z.of_nat (length out) = 18 + 3 * (256 * 192).
Proof.
  intros Hlen. eexists. split; [| split; [reflexivity |]].
  - apply convert_full_image, Hlen.
  - rewrite length_app, length_tga_header, length_concat_pixels, length_take.
    pose proof (length_words bytes) as Hw.
    pose proof (Nat.div_mod_eq (length bytes) 2) as Hdm.
    pose proof (Nat.mod_upper_bound (length bytes) 2 ltac:(lia)) as Hmod.
    lia.
Qed.

Lemma convertScreenCap_full_witness :
  98304 <= Z.of_nat (length (replicate (Z.to_nat 98304) x00)) /\
  exists out,
    convertScreenCap (Some (replicate (Z.to_nat 98304) x00)) = Some out /\
    out = tga_header 2 24
          ++ concat (pixel <$> take (Z.to_nat 49152)
                                    (words (replicate (Z.to_nat 98304) x00))) /\
    Z.of_nat (length out) = 18 + 3 * (256 * 192).
Proof.
  assert (H : 98304 <= Z.of_nat (length (replicate (Z.to_nat 98304) x00)))
    by (rewrite length_replicate; lia).
  split; [exact H |].
  exact (convertScreenCap_full (replicate (Z.to_nat 98304) x00) H).
Defined.

(** X17.  On a capture that ends early, with at least one whole word,
    [convertScreenCap] still writes a full image: the pixels of the words that
    are there, then the last colour stored for every pixel that is left, an
    odd last byte of the file having replaced the low byte of that colour. *)
Theorem convertScreenCap_truncated (bytes : list byte) :
  2 <= Z.of_nat (length bytes) < 98304 ->
  exists w out,
    last (words bytes) = Some w /\
    convertScreenCap (Some bytes) = Some out /\
    let c := match drop (2 * length (words bytes)) bytes with
             | lo :: _ => byte_val lo + 256 * (w / 256)
             | [] => w
             end in
    out = tga_header 2 24
          ++ concat (pixel <$> words bytes
                               ++ replicate (Z.to_nat 49152 - length (words bytes)) c) /\
    Z.of_nat (length out) = 18 + 3 * (256 * 192).
Proof.
  intros Hlen.
  pose proof (length_words bytes) as Hw.
  pose proof (Nat.div_mod_eq (length bytes) 2) as Hdm.
  pose proof (Nat.mod_upper_bound (length bytes) 2 ltac:(lia)) as Hmod.
  destruct (last (words bytes)) as [w |] eqn:El.
  2:{ apply last_None in El. rewrite El in Hw. cbn [length] in Hw. lia. }
  exists w. eexists. split; [reflexivity |]. split.
  - rewrite convertScreenCap_run. cbv zeta.
    rewrite take_ge by lia. rewrite El. reflexivity.
  - cbv zeta.
    assert (Ec : load_u16 (drop (2 * length (words bytes)) bytes) w
                 = match drop (2 * length (words bytes)) bytes with
                   | lo :: _ => byte_val lo + 256 * (w / 256)
                   | [] => w
                   end).
    { assert (Hd : (length (drop (2 * length (words bytes)) bytes) < 2)%nat)
        by (rewrite length_drop; lia).
      destruct (drop (2 * length (words bytes)) bytes) as [| lo [| hi t]];
        cbn [length] in Hd; try lia; reflexivity. }
    rewrite Ec. split; [reflexivity |].
    rewrite length_app, length_tga_header, length_concat_pixels, length_app,
      length_replicate.
    lia.
Qed.

Lemma convertScreenCap_truncated_witness :
  exists w out,
    last (words [x34; x12; xff]) = Some w /\
    convertScreenCap (Some [x34; x12; xff]) = Some out /\
    let c := match drop (2 * length (words [x34; x12; xff])) [x34; x12; xff] with
             | lo :: _ => byte_val lo + 256 * (w / 256)
             | [] => w
             end in
    out = tga_header 2 24
          ++ concat (pixel <$> words [x34; x12; xff]
                               ++ replicate (Z.to_nat 49152
                                             - length (words [x34; x12; xff])) c) /\
    Z.of_nat (length out) = 18 + 3 * (256 * 192).
Proof.
  exact (convertScreenCap_truncated [x34; x12; xff] ltac:(cbn [length]; lia)).
Defined.

(** X18.  [convertScreenCap] uses the colour variable before it has a value
    exactly when the capture is missing or shorter than one word; in every
    other case it writes an image of 147474 bytes, whatever the length of the
    capture. *)
Theorem convertScreenCap_defined (file : option (list byte)) :
  (convertScreenCap file = None <->
   forall bytes, file = Some bytes -> Z.of_nat (length bytes) < 2) /\
  (forall out, convertScreenCap file = Some out ->
               Z.of_nat (length out) = 18 + 3 * (256 * 192)).
Proof.
  destruct file as [bytes |].
  2:{ rewrite convertScreenCap_missing. split; [split |]; try discriminate.
      reflexivity. }
  rewrite convertScreenCap_run. cbv zeta.
  pose proof (length_words bytes) as Hw.
  pose proof (Nat.div_mod_eq (length bytes) 2) as Hdm.
  pose proof (Nat.mod_upper_bound (length bytes) 2 ltac:(lia)) as Hmod.
  destruct (last (take (Z.to_nat 49152) (words bytes))) as [w |] eqn:El.
  - assert (Hne : words bytes <> []) by (intros E; rewrite E in El; discriminate).
    assert (Hpos : (0 < length (words bytes))%nat)
      by (destruct (words bytes); [congruence | cbn [length]; lia]).
    split; [split |].
    + discriminate.
    + intros H. specialize (H bytes eq_refl). lia.
    + intros o Ho. apply (inj Some) in Ho. subst o.
      rewrite length_app, length_tga_header, length_concat_pixels, length_app,
        length_take, length_replicate.
      lia.
  - apply last_None in El. apply (f_equal length) in El.
    rewrite length_take in El. cbn [length] in El.
    split; [split |]; try discriminate.
    + intros _ b Hb. apply (inj Some) in Hb. subst b. lia.
    + reflexivity.
Qed.

Lemma words_u16 (f : Z -> Z) (l : list Z) :
  words (i ← l; u16_bytes (f i)) = (fun i => f i mod 65536) <$> l.
Proof.
  induction l as [| i l IH]; [reflexivity |].
  rewrite bind_cons, fmap_cons. unfold u16_bytes at 1.
  cbn [app words]. rewrite IH, !byte_val_of. f_equal.
  Z.div_mod_to_equations. lia.
Qed.

Lemma length_screencap_file vram :
  length (screencap_file vram) = Z.to_nat 98304.
Proof.
  unfold screencap_file.
  assert (H : forall l : list Z,
             length (i ← l; u16_bytes (vram i)) = (2 * length l)%nat).
  { induction l as [| i l IH]; [reflexivity |].
    rewrite bind_cons, length_app, IH. cbn [u16_bytes length]. lia. }
  rewrite H, length_seqZ. lia.
Qed.

(** The [i]-th block of a concatenation of blocks of one size. *)
Lemma concat_block {A B : Type} (f : A -> list B) (k : nat) (l : list A) :
  (forall a, length (f a) = k) ->
  forall (i : nat) (a : A),
    l !! i = Some a -> take k (drop (k * i) (concat (f <$> l))) = f a.
Proof.
  intros Hk. induction l as [| a0 l IH]; intros i a Hi.
  - rewrite lookup_nil in Hi. discriminate.
  - rewrite fmap_cons. cbn [concat]. destruct i as [| i].
    + cbn [lookup list_lookup] in Hi. injection Hi as ->.
      rewrite Nat.mul_0_r, drop_0. apply take_app_length'. symmetry. apply Hk.
    + rewrite lookup_cons in Hi.
      replace (k * S i)%nat with (k + k * i)%nat by lia.
      rewrite drop_app_add' by (symmetry; apply Hk). apply IH, Hi.
Qed.

Lemma pixel_black clr : pixel clr = [x00; x00; x00] <-> clr mod 32768 = 0.
Proof.
  split; intros H.
  - rewrite <- decode_pixel_pixel, H. reflexivity.
  - rewrite <- pixel_mod, H. reflexivity.
Qed.

(** X19.  The screen capture that the generator saves is converted pixel for
    pixel.  The three bytes of the image at column [x] of row [y] are the
    pixel of the word [VRAM_A[y * 256 + x]]; they read back as that word
    without bit 15, and they are black exactly when the pixel is not lit for
    [countAndWrite]. *)
Theorem screencap_image (vram : Z -> Z) (x y : Z) :
  0 <= x < 256 -> 0 <= y < 192 ->
  exists out,
    convertScreenCap (Some (screencap_file vram)) = Some out /\
    let p := take 3 (drop (Z.to_nat (18 + 3 * (y * 256 + x))) out) in
    p = pixel (vram (y * WIDTH + x)) /\
    decode_pixel p = Z.land (vram (y * WIDTH + x)) 32767 /\
    (p = [x00; x00; x00] <-> ~ lit vram y x).
Proof.
  intros Hx Hy. eexists. split.
  - apply convert_full_image. rewrite length_screencap_file. lia.
  - cbv zeta. unfold screencap_file. rewrite words_u16.
    rewrite (take_ge _ (Z.to_nat 49152))
      by (rewrite length_fmap, length_seqZ; lia).
    replace (Z.to_nat (18 + 3 * (y * 256 + x)))
      with (18 + 3 * Z.to_nat (y * 256 + x))%nat by lia.
    rewrite drop_app_add' by reflexivity.
    rewrite (concat_block pixel 3 _ length_pixel (Z.to_nat (y * 256 + x))
                          (vram (y * 256 + x) mod 65536)).
    2:{ rewrite list_lookup_fmap, lookup_seqZ_lt by lia.
        cbn [fmap option_fmap option_map]. f_equal. f_equal. f_equal. lia. }
    assert (Ep : pixel (vram (y * 256 + x) mod 65536) = pixel (vram (y * 256 + x))).
    { rewrite <- (pixel_mod (vram (y * 256 + x) mod 65536)),
        <- (pixel_mod (vram (y * 256 + x))).
      f_equal. Z.div_mod_to_equations. lia. }
    assert (El : Z.land (vram (y * 256 + x)) 32767 = vram (y * 256 + x) mod 32768).
    { change 32767 with (Z.ones 15). rewrite Z.land_ones by lia. reflexivity. }
    unfold lit, WIDTH. rewrite Ep, El.
    split; [reflexivity |]. split; [apply decode_pixel_pixel |].
    rewrite pixel_black. split; [intros -> H; apply H; reflexivity |].
    intros H. destruct (Z.eq_dec (vram (y * 256 + x) mod 32768) 0); tauto.
Qed.

Lemma screencap_image_witness :
  exists out,
    convertScreenCap (Some (screencap_file (fun i => i))) = Some out /\
    let p := take 3 (drop (Z.to_nat (18 + 3 * (2 * 256 + 5))) out) in
    p = pixel ((fun i => i) (2 * WIDTH + 5)) /\
    decode_pixel p = Z.land ((fun i => i) (2 * WIDTH + 5)) 32767 /\
    (p = [x00; x00; x00] <-> ~ lit (fun i => i) 2 5).
Proof.
  exact (screencap_image (fun i => i) 5 2 ltac:(lia) ltac:(lia)).
Defined.

(** While two bytes are left for every pixel, [uniqueColors] prints a line
    for each colour that is new to the set, and nothing else. *)
Lemma unique_words n : forall bytes clr (clrs : gset Z) out,
  (2 * n <= length bytes)%nat ->
  exists clr' clrs' out',
    Nat.iter n (fun st => st ≫= list_colour)
             (Some (mkStream bytes false, clr, clrs, out))
    = Some (mkStream (drop (2 * n) bytes) false, clr', clrs', out ++ out') /\
    NoDup (line_clr <$> out') /\
    (forall c, c ∈ line_clr <$> out' <->
               c ∈ take n (words bytes) /\ c ∉ clrs) /\
    (forall c, c ∈ clrs' <-> c ∈ clrs \/ c ∈ take n (words bytes)) /\
    Forall (fun l => l = describe (line_clr l)) out'.
Proof.
  induction n as [| n IH]; intros bytes clr clrs out Hlen.
  - exists clr, clrs, []. rewrite drop_0, app_nil_r.
    cbn [take fmap list_fmap]. split; [reflexivity |].
    split; [constructor |]. split; [| split; [| constructor]].
    + intros c. split; [intros H; inversion H | intros [H _]; inversion H].
    + intros c. split; [tauto | intros [H | H]; [exact H | inversion H]].
  - rewrite Nat.iter_succ_r.
    destruct bytes as [| lo [| hi rest]]; cbn [length] in Hlen; try lia.
    cbn [mbind option_bind list_colour read failbit pending length Nat.leb
         take drop load_clr load_u16].
    rewrite drop_0.
    replace (2 * S n)%nat with (S (S (2 * n))) by lia.
    cbn [drop words take].
    set (w := byte_val lo + 256 * byte_val hi).
    destruct (decide (w ∈ clrs)) as [Hin | Hnew].
    + destruct (IH rest (Some w) clrs out ltac:(lia))
        as (clr' & clrs' & out' & E & Hnd & Hout & Hset & Hdesc).
      exists clr', clrs', out'. split; [exact E |].
      split; [exact Hnd |]. split; [| split; [| exact Hdesc]].
      * intros c. rewrite Hout, elem_of_cons.
        destruct (decide (c = w)) as [-> | Hne]; tauto.
      * intros c. rewrite Hset, elem_of_cons.
        destruct (decide (c = w)) as [-> | Hne]; tauto.
    + destruct (IH rest (Some w) ({[w]} ∪ clrs) (out ++ [describe w]) ltac:(lia))
        as (clr' & clrs' & out' & E & Hnd & Hout & Hset & Hdesc).
      exists clr', clrs', (describe w :: out').
      split; [rewrite E, <- app_assoc; reflexivity |].
      rewrite fmap_cons. change (line_clr (describe w)) with w.
      split; [| split; [| split]].
      * constructor; [| exact Hnd]. rewrite Hout. intros [_ Hc]. apply Hc.
        apply elem_of_union_l, elem_of_singleton. reflexivity.
      * intros c. rewrite !elem_of_cons, Hout, elem_of_union, elem_of_singleton.
        destruct (decide (c = w)) as [-> | Hne]; tauto.
      * intros c. rewrite Hset, elem_of_cons, elem_of_union, elem_of_singleton.
        tauto.
      * constructor; [reflexivity | exact Hdesc].
Qed.

(** X20.  On a capture of at least 256 x 192 words, [uniqueColors] prints one
    line for each colour word among the first 49152 words of the file and no
    other line: no colour is listed twice, and every line shows the channels
    and the expansions of its own colour. *)
Theorem uniqueColors_lists (bytes : list byte) :
  98304 <= Z.of_nat (length bytes) ->
  exists lines,
    uniqueColors (Some bytes) = Some lines /\
    NoDup (line_clr <$> lines) /\
    (forall c, c ∈ line_clr <$> lines <->
               c ∈ take (Z.to_nat 49152) (words bytes)) /\
    (forall l, l ∈ lines -> l = describe (line_clr l)).
Proof.
  intros Hlen. unfold uniqueColors.
  rewrite foldl_nested_iter, pixel_count. cbn [open].
  destruct (unique_words (Z.to_nat 49152) bytes None ∅ [] ltac:(lia))
    as (clr' & clrs' & out' & E & Hnd & Hout & _ & Hdesc).
  exists out'. split.
  { etransitivity; [apply (f_equal (fmap snd)); exact E | reflexivity]. }
  split; [exact Hnd |]. split.
  - intros c. rewrite Hout. split; [tauto |].
    intros H. split; [exact H | apply not_elem_of_empty].
  - intros l Hl. rewrite Forall_forall in Hdesc. apply Hdesc, Hl.
Qed.

Lemma uniqueColors_lists_witness :
  98304 <= Z.of_nat (length (replicate (Z.to_nat 98304) xff)) /\
  exists lines,
    uniqueColors (Some (replicate (Z.to_nat 98304) xff)) = Some lines /\
    NoDup (line_clr <$> lines) /\
    (forall c, c ∈ line_clr <$> lines <->
               c ∈ take (Z.to_nat 49152)
                        (words (replicate (Z.to_nat 98304) xff))) /\
    (forall l, l ∈ lines -> l = describe (line_clr l)).
Proof.
  assert (H : 98304 <= Z.of_nat (length (replicate (Z.to_nat 98304) xff)))
    by (rewrite length_replicate; lia).
  split; [exact H |].
  exact (uniqueColors_lists (replicate (Z.to_nat 98304) xff) H).
Defined.

(** * The renderings of the captured spans *)

Import Images.

Section Painting.

Context {A : Type}.

(** Storing one value at each index of a list of indices. *)
Lemma foldl_insert_lookup (v : A) (xs : list Z) :
  forall (row : list A) (x : Z),
    Forall (fun x' => 0 <= x') xs -> 0 <= x ->
    (Z.to_nat x < length row)%nat ->
    foldl (fun row x' => <[Z.to_nat x' := v]> row) row xs !! Z.to_nat x
    = if decide (x ∈ xs) then Some v else row !! Z.to_nat x.
Proof.
  induction xs as [| x0 xs IH]; intros row x Hxs Hx Hlen; cbn [foldl].
  - destruct (decide (x ∈ [])) as [H | _]; [inversion H | reflexivity].
  - inversion Hxs as [| ? ? Hx0 Hxs']; subst.
    rewrite IH by (rewrite ?length_insert; assumption).
    destruct (decide (x ∈ xs)) as [Hin | Hout].
    + rewrite decide_True by (apply elem_of_cons; tauto). reflexivity.
    + destruct (decide (x = x0)) as [-> | Hne].
      * rewrite decide_True by (apply elem_of_cons; tauto).
        apply list_lookup_insert_eq. exact Hlen.
      * rewrite decide_False by (rewrite elem_of_cons; tauto).
        apply list_lookup_insert_ne. lia.
Qed.

Lemma length_foldl_insert (v : A) (xs : list Z) (row : list A) :
  length (foldl (fun row x' => <[Z.to_nat x' := v]> row) row xs) = length row.
Proof.
  revert row. induction xs as [| x0 xs IH]; intros row; cbn [foldl].
  - reflexivity.
  - rewrite IH. apply length_insert.
Qed.

(** Altering each index of a list of distinct indices once. *)
Lemma foldl_alter_lookup (g : Z -> A -> A) (ys : list Z) :
  forall (l : list A) (y : Z),
    NoDup ys -> Forall (fun y' => 0 <= y') ys -> 0 <= y ->
    foldl (fun l y' => alter (g y') (Z.to_nat y') l) l ys !! Z.to_nat y
    = if decide (y ∈ ys) then g y <$> l !! Z.to_nat y else l !! Z.to_nat y.
Proof.
  induction ys as [| y0 ys IH]; intros l y Hnd Hys Hy; cbn [foldl].
  - destruct (decide (y ∈ [])) as [H | _]; [inversion H | reflexivity].
  - inversion Hnd as [| ? ? Hy0 Hnd']; subst.
    inversion Hys as [| ? ? Hpos Hys']; subst.
    rewrite IH by assumption.
    destruct (decide (y = y0)) as [-> | Hne].
    + rewrite decide_False by exact Hy0.
      rewrite decide_True by (apply elem_of_cons; tauto).
      apply list_lookup_alter_eq.
    + rewrite list_lookup_alter_ne by lia.
      destruct (decide (y ∈ ys)) as [Hin | Hout].
      * rewrite decide_True by (apply elem_of_cons; tauto). reflexivity.
      * rewrite decide_False by (rewrite elem_of_cons; tauto). reflexivity.
Qed.

(** An element of a concatenation of rows of one length. *)
Lemma concat_lookup (k : nat) (rows : list (list A)) (i j : nat) (row : list A) :
  Forall (fun r => length r = k) rows ->
  rows !! i = Some row -> (j < k)%nat ->
  concat rows !! (k * i + j)%nat = row !! j.
Proof.
  intros Hk. revert i. induction Hk as [| r rows Hr _ IH]; intros i Hi Hj.
  - rewrite lookup_nil in Hi. discriminate.
  - cbn [concat]. destruct i as [| i].
    + cbn [lookup list_lookup] in Hi. injection Hi as ->.
      rewrite Nat.mul_0_r, Nat.add_0_l. apply lookup_app_l. lia.
    + rewrite lookup_cons in Hi.
      rewrite lookup_app_r by lia.
      replace (k * S i + j - length r)%nat with (k * i + j)%nat by lia.
      apply IH; assumption.
Qed.

Lemma length_concat_const (rows : list (list A)) (k : nat) :
  Forall (fun r => length r = k) rows ->
  length (concat rows) = (k * length rows)%nat.
Proof.
  induction 1 as [| r rows Hr _ IH]; cbn [concat length]; [lia |].
  rewrite length_app, IH, Hr. lia.
Qed.

End Painting.

Lemma draw_span_lookup (span : Span) (x : Z) :
  0 <= start span -> 0 <= x < 256 ->
  draw_span span (replicate 256 x00) !! Z.to_nat x
  = Some (if exists_ span && (start span <=? x) && (x <=? end_ span)
          then xff else x00).
Proof.
  intros Hs Hx. unfold draw_span.
  assert (Hz : replicate 256 x00 !! Z.to_nat x = Some x00)
    by (apply lookup_replicate_2; lia).
  destruct (exists_ span); cbn [andb]; [| exact Hz].
  rewrite foldl_insert_lookup.
  - destruct (decide (x ∈ seqZ (start span) (end_ span - start span + 1)))
      as [Hin | Hout].
    + apply elem_of_seqZ in Hin.
      replace (start span <=? x) with true by (symmetry; apply Z.leb_le; lia).
      replace (x <=? end_ span) with true by (symmetry; apply Z.leb_le; lia).
      reflexivity.
    + rewrite elem_of_seqZ in Hout. rewrite Hz.
      destruct (Z.leb_spec (start span) x); [| reflexivity].
      destruct (Z.leb_spec x (end_ span)); [lia | reflexivity].
  - apply Forall_forall. intros x' Hx'. apply elem_of_seqZ in Hx'. lia.
  - lia.
  - rewrite length_replicate. lia.
Qed.

Lemma length_draw_span span row : length (draw_span span row) = length row.
Proof.
  unfold draw_span. destruct (exists_ span); [| reflexivity].
  apply length_foldl_insert.
Qed.

Lemma render_row tbl sizeY sizeX y :
  0 <= y < 192 ->
  render tbl sizeY sizeX !! Z.to_nat y
  = Some (draw_span (span_at tbl sizeY sizeX y) (replicate 256 x00)).
Proof.
  intros Hy. unfold render.
  rewrite (foldl_alter_lookup (fun y => draw_span (span_at tbl sizeY sizeX y))).
  - rewrite decide_True by (apply elem_of_seqZ; lia).
    rewrite lookup_replicate_2 by lia. reflexivity.
  - apply NoDup_seqZ.
  - apply Forall_forall. intros y' Hy'. apply elem_of_seqZ in Hy'. lia.
  - lia.
Qed.

Lemma render_rows tbl sizeY sizeX :
  length (render tbl sizeY sizeX) = 192%nat /\
  Forall (fun r => length r = 256%nat) (render tbl sizeY sizeX).
Proof.
  unfold render.
  apply (foldl_invariant
           (fun pixels => length pixels = 192%nat /\
                          Forall (fun r => length r = 256%nat) pixels)
           (fun _ => True)).
  - split; [apply length_replicate |].
    apply Forall_replicate. apply length_replicate.
  - apply Forall_forall. intros; exact I.
  - intros pixels y [Hl Hr] _. split.
    + rewrite length_alter. exact Hl.
    + apply Forall_alter; [exact Hr |].
      intros r _ Hlen. rewrite length_draw_span. exact Hlen.
Qed.

(** X21.  The image that [writeImages] renders for one position of the
    table.  After the 18-byte header of a 256 x 192 greyscale image the file
    holds one byte for each pixel, row by row: the byte at column [x] of row
    [y] is 255 when the span of scanline [y] exists and [x] lies between its
    start and its end, and 0 otherwise; a span whose end is before its start
    draws nothing. *)
Theorem image_pixel (tbl : gmap (Z * Z * Z) Span) (sizeY sizeX x y : Z) :
  0 <= x < 256 -> 0 <= y < 192 ->
  let span := span_at tbl sizeY sizeX y in
  0 <= start span <= 255 -> 0 <= end_ span <= 255 ->
  Z.of_nat (length (image_bytes tbl sizeY sizeX)) = 18 + 256 * 192 /\
  image_bytes tbl sizeY sizeX !! Z.to_nat (18 + (256 * y + x))
  = Some (if exists_ span && (start span <=? x) && (x <=? end_ span)
          then xff else x00).
Proof.
  intros Hx Hy span Hs He. unfold image_bytes.
  destruct (render_rows tbl sizeY sizeX) as [Hlen Hrows].
  split.
  - rewrite length_app, length_tga_header.
    rewrite (length_concat_const (render tbl sizeY sizeX) 256 Hrows), Hlen. lia.
  - rewrite lookup_app_r by (rewrite length_tga_header; lia).
    rewrite length_tga_header.
    replace (Z.to_nat (18 + (256 * y + x)) - 18)%nat
      with (256 * Z.to_nat y + Z.to_nat x)%nat by lia.
    rewrite (concat_lookup 256 _ _ _ _ Hrows (render_row tbl sizeY sizeX y Hy))
      by lia.
    apply draw_span_lookup; [apply Hs | exact Hx].
Qed.

Lemma image_pixel_witness :
  let tbl : gmap (Z * Z * Z) Span := {[ (0, 0, 5) := mkSpan true 3 9 ]} in
  let span := span_at tbl 0 0 5 in
  Z.of_nat (length (image_bytes tbl 0 0)) = 18 + 256 * 192 /\
  image_bytes tbl 0 0 !! Z.to_nat (18 + (256 * 5 + 7))
  = Some (if exists_ span && (start span <=? 7) && (7 <=? end_ span)
          then xff else x00).
Proof.
  exact (image_pixel {[ (0, 0, 5) := mkSpan true 3 9 ]} 0 0 7 5
                     ltac:(lia) ltac:(lia)
                     ltac:(unfold span_at; rewrite lookup_singleton_eq; cbn; lia)
                     ltac:(unfold span_at; rewrite lookup_singleton_eq; cbn; lia)).
Defined.

Lemma write_images_each (data : Data) (l : list (Z * Z)) :
  forall files,
    Forall (fun p => 0 <= fst p /\ 0 <= snd p) l ->
    for_each (fun p => write_image data (fst p) (snd p)) l files
    = if decide (Forall (fun p => fst p <= 256 /\ snd p <= 192) l)
      then Next (files
                 ++ ((fun p => mkFile (name_of (type data), fst p, snd p)
                                      (image_bytes (lines data) (snd p) (fst p)))
                       <$> l))
      else OutOfBounds.
Proof.
  induction l as [| p l IH]; intros files Hpos.
  - cbn [for_each fmap list_fmap]. rewrite app_nil_r.
    rewrite decide_True by constructor. reflexivity.
  - inversion Hpos as [| ? ? [Hx Hy] Hpos']; subst.
    cbn [for_each]. unfold write_image at 1. unfold in_table.
    destruct (decide (fst p <= 256 /\ snd p <= 192)) as [[Hx' Hy'] | Hout].
    + replace (0 <=? snd p) with true by (symmetry; apply Z.leb_le; lia).
      replace (snd p <=? 192) with true by (symmetry; apply Z.leb_le; lia).
      replace (0 <=? fst p) with true by (symmetry; apply Z.leb_le; lia).
      replace (fst p <=? 256) with true by (symmetry; apply Z.leb_le; lia).
      cbn [andb Z.leb Z.compare]. rewrite IH by exact Hpos'.
      destruct (decide (Forall (fun p => fst p <= 256 /\ snd p <= 192) l))
        as [Hall | Hnot].
      * rewrite decide_True by (constructor; [split |]; assumption).
        rewrite fmap_cons, <- app_assoc. reflexivity.
      * rewrite decide_False; [reflexivity |].
        intros H. inversion H; subst. contradiction.
    + rewrite decide_False
        by (intros H; inversion H; subst; contradiction).
      destruct (Z.leb_spec (snd p) 192) as [Hy' |];
        [| rewrite ?andb_false_r; reflexivity].
      destruct (Z.leb_spec (fst p) 256) as [Hx' |];
        [tauto | rewrite ?andb_false_r; reflexivity].
Qed.

(** X22.  The files of [writeImages].  For bounds that are not negative, the
    function writes one image for each sweep position from [(minX, minY)] to
    [(maxX, maxY)], row by row, named after the type and the position, when
    every position is inside the table; when some position has [x] above
    256 or [y] above 192 it indexes the table out of its bounds. *)
Theorem writeImages_files (data : Data) :
  0 <= Capture.minX data -> 0 <= Capture.minY data ->
  let positions := sweep (Capture.minX data) (Capture.maxX data)
                         (Capture.minY data) (Capture.maxY data) in
  writeImages data
  = if decide (Forall (fun p => fst p <= 256 /\ snd p <= 192) positions)
    then Next ((fun p => mkFile (name_of (type data), fst p, snd p)
                                (image_bytes (lines data) (snd p) (fst p)))
                 <$> positions)
    else OutOfBounds.
Proof.
  intros Hx Hy. cbv zeta. unfold writeImages, for_range.
  rewrite (for_each_nested (fun x y => write_image data x y)).
  fold (sweep (Capture.minX data) (Capture.maxX data)
              (Capture.minY data) (Capture.maxY data)).
  rewrite write_images_each; [reflexivity |].
  apply Forall_forall. intros [x y] Hp.
  apply sweep_elem in Hp. cbn [fst snd]. lia.
Qed.

Lemma writeImages_files_witness :
  let data := mkData 1 255 256 191 192 ∅ in
  let positions := sweep (Capture.minX data) (Capture.maxX data)
                         (Capture.minY data) (Capture.maxY data) in
  writeImages data
  = if decide (Forall (fun p => fst p <= 256 /\ snd p <= 192) positions)
    then Next ((fun p => mkFile (name_of (type data), fst p, snd p)
                                (image_bytes (lines data) (snd p) (fst p)))
                 <$> positions)
    else OutOfBounds.
Proof.
  exact (writeImages_files (mkData 1 255 256 191 192 ∅)
                           ltac:(cbn; lia) ltac:(cbn; lia)).
Defined.

(** * The validation on the device *)





Section Replay.

Variable cfg : config.



Variable frames : nat -> Z -> Z.
Variable vram : Z -> Z.



End Replay.



(** * From the generator to the harness *)

Import Pipeline.

Section HarnessLookups.

Variable data : Data.
Variable P : event -> Prop.
Hypothesis Hprint : forall e, (forall a b c, e <> Lookup a b c) -> P e.

(** The lookups of the scanline loop are at the position under test and on
    the scanlines of the loop above scanline 192. *)
Lemma scanlines_lookups testX testY slope n :
  forall y mismatch,
    0 <= y -> y + Z.of_nat n <= 193 ->
    (forall y', y <= y' < y + Z.of_nat n -> y' <= 191 ->
                P (Lookup testY testX y')) ->
    Forall P (fst (scanlines data testX testY slope n y mismatch)).
Proof.
  induction n as [| n IH]; intros y mismatch Hy0 Hy1 HL; cbn [scanlines].
  - constructor.
  - assert (Hreport : forall o : list event * bool,
              (exists e, o = (let '(banner, m) := foundMismatch mismatch in
                              (banner ++ [e], m)) /\
                         forall a b c, e <> Lookup a b c) \/
              o = ([], mismatch) ->
              Forall P (fst o)).
    { intros o [(e & -> & He) | ->]; unfold foundMismatch;
        destruct mismatch; cbn [fst app]; repeat constructor;
        apply Hprint; try exact He; discriminate. }
    assert (Hstep : forall (o : list event * bool),
              Forall P (fst o) -> y <> 192 ->
              Forall P
                (fst (let '(out, m) := o in
                      let '(rest, m) :=
                        scanlines data testX testY slope n (add32 y 1) m in
                      (Lookup testY testX y :: out ++ rest, m)))).
    { intros [out m] Hout Hne. rewrite add32_succ by lia.
      pose proof (IH (y + 1) m ltac:(lia) ltac:(lia)
                     ltac:(intros; apply HL; lia)) as Hrest.
      destruct (scanlines data testX testY slope n (y + 1) m) as [rest m'].
      cbn [fst] in *. constructor.
      - apply HL; lia.
      - apply Forall_app. split; assumption. }
    destruct (IsNegative slope); cbv beta iota zeta.
    all: destruct (256 <=? _);
      [ rewrite add32_succ by lia; apply IH; [lia | lia |];
        intros; apply HL; lia |].
    all: destruct (Z.eqb_spec y 192) as [E | E]; [cbn [fst]; constructor |].
    all: apply Hstep; [| exact E].
    all: apply Hreport.
    all: destruct (negb (exists_ _));
      [left; eexists; split; [reflexivity | discriminate] |].
    all: destruct (_ || _);
      [left; eexists; split; [reflexivity | discriminate] | right; reflexivity].
Qed.

(** The lookups of [testSlope] for the sweep position [(x1, y1)]: on the
    scanlines between the two rows, the lower row excluded unless the rows
    coincide. *)
Lemma testSlope_lookups x0 y0 x1 y1 mismatch :
  0 <= y0 <= 192 -> 0 <= y1 <= 192 ->
  (forall y, Z.min y0 y1 <= y < Z.max (Z.max y0 y1) (Z.min y0 y1 + 1) ->
             y <= 191 -> P (Lookup y1 x1 y)) ->
  Forall P (fst (testSlope data x1 y1 x0 y0 x1 y1 mismatch)).
Proof.
  intros Hy0 Hy1 HL. unfold testSlope.
  destruct (Z.ltb_spec y1 y0) as [Hlt | Hge].
  - destruct (Z.eqb_spec y1 y0) as [E | _]; [lia |].
    apply scanlines_lookups; [lia | lia |]. intros; apply HL; lia.
  - destruct (Z.eqb_spec y0 y1) as [E | E].
    + rewrite add32_succ by lia.
      apply scanlines_lookups; [lia | lia |]. intros; apply HL; lia.
    + apply scanlines_lookups; [lia | lia |]. intros; apply HL; lia.
Qed.

Lemma testSlopes_lookups x0 y0 :
  0 <= y0 <= 192 ->
  (forall x1 y1 y,
      0 <= x1 <= 256 -> 0 <= y1 <= 192 ->
      Z.min y0 y1 <= y < Z.max (Z.max y0 y1) (Z.min y0 y1 + 1) ->
      y <= 191 -> P (Lookup y1 x1 y)) ->
  Forall P (testSlopes data x0 y0).
Proof.
  intros Hy0 HL. unfold testSlopes.
  set (Q := fun acc : list event * bool => Forall P (fst acc)).
  match goal with
  | |- context [foldl ?f ?a ?l] => assert (Hall : Q (foldl f a l))
  end.
  { apply (foldl_invariant Q (fun y1 => 0 <= y1 <= 192)).
    - constructor.
    - apply Forall_forall. intros y1 Hin. apply elem_of_seqZ in Hin. lia.
    - intros acc y1 Hacc Hy1.
      apply (foldl_invariant Q (fun x1 => 0 <= x1 <= 256)).
      + exact Hacc.
      + apply Forall_forall. intros x1 Hin. apply elem_of_seqZ in Hin. lia.
      + intros [out m] x1 Hout Hx1.
        pose proof (testSlope_lookups x0 y0 x1 y1 m Hy0 Hy1
                      ltac:(intros; apply HL; assumption)) as Hts.
        destruct (testSlope data x1 y1 x0 y0 x1 y1 m) as [o m'].
        unfold Q in *. cbn [fst] in *. apply Forall_app. split; assumption. }
  destruct (foldl _ _ _) as [out m]. unfold Q in Hall. cbn [fst] in Hall.
  apply Forall_app. split; [exact Hall |].
  destruct m; repeat constructor. apply Hprint. discriminate.
Qed.

End HarnessLookups.

(** The scanlines of the edge between an anchor of a capture type and a
    sweep position, as the capture records them for the position. *)
Lemma test_lookups (P : event -> Prop) (data : Data) :
  0 <= type data <= 3 ->
  (forall e, (forall a b c, e <> Lookup a b c) -> P e) ->
  (forall x1 y1 y,
      0 <= x1 <= 256 -> 0 <= y1 <= 192 ->
      (if bottom (type data) then y1 <= y <= 191
       else 0 <= y <= Z.min y1 191) ->
      P (Lookup y1 x1 y)) ->
  Forall P (test data).
Proof.
  intros Hty Hprint HL. unfold test.
  assert (Hcases : type data = 0 \/ type data = 1 \/ type data = 2
                   \/ type data = 3) by lia.
  destruct Hcases as [E | [E | [E | E]]]; rewrite E in *.
  all: apply testSlopes_lookups; [exact Hprint | lia |].
  all: intros x1 y1 y Hx1 Hy1 Hy Hy191; apply HL; [exact Hx1 | exact Hy1 |].
  all: match goal with
       | |- context [bottom ?t] =>
           let b := eval vm_compute in (bottom t) in change (bottom t) with b
       end; cbv iota; lia.
Qed.

(** X24.  The harness consults recorded scanlines only.  Every lookup of
    [test] is at a position of the table and on a scanline that a capture of
    the data's type records for that position: scanlines 0 to
    [min(testY, 191)] for the top corners, [testY] to 191 for the bottom
    corners, where no position of row 192 is ever looked up. *)
Theorem test_lookups_recorded (data : Data) :
  0 <= type data <= 3 -> Forall (lookup_recorded (type data)) (test data).
Proof.
  intros Hty. apply test_lookups; [exact Hty | |].
  - intros [a b c | | | |] He; try exact I. exfalso. eapply He. reflexivity.
  - intros x1 y1 y Hx1 Hy1 Hy. cbn [lookup_recorded].
    split; [exact Hx1 | split; [exact Hy1 | exact Hy]].
Qed.

Lemma test_lookups_recorded_witness :
  Forall (lookup_recorded 2) (test (mkData 2 0 256 0 192 ∅)).
Proof.
  exact (test_lookups_recorded (mkData 2 0 256 0 192 ∅) ltac:(cbn; lia)).
Defined.

Lemma bind_concat {A B : Type} (f : A -> list B) (l : list A) :
  (a ← l; f a) = concat (f <$> l).
Proof.
  induction l as [| a l IH]; [reflexivity |].
  rewrite bind_cons, fmap_cons, IH. reflexivity.
Qed.

Lemma bind_pair (xs : list Z) (y : Z) :
  (x ← xs; [(x, y)]) = (fun x => (x, y)) <$> xs.
Proof.
  induction xs as [| x xs IH]; [reflexivity |].
  rewrite bind_cons, fmap_cons, IH. reflexivity.
Qed.

(** The place of a position in the sweep. *)
Lemma sweep_lookup mnX mxX mnY mxY x y :
  mnX <= x <= mxX -> mnY <= y <= mxY ->
  sweep mnX mxX mnY mxY !! Z.to_nat ((y - mnY) * (mxX - mnX + 1) + (x - mnX))
  = Some (x, y).
Proof.
  intros Hx Hy. unfold sweep. rewrite bind_concat.
  replace (Z.to_nat ((y - mnY) * (mxX - mnX + 1) + (x - mnX)))
    with (Z.to_nat (mxX - mnX + 1) * Z.to_nat (y - mnY) + Z.to_nat (x - mnX))%nat
    by (rewrite (Z2Nat.inj_add ((y - mnY) * (mxX - mnX + 1)) (x - mnX)),
          (Z2Nat.inj_mul (y - mnY) (mxX - mnX + 1)) by nia; lia).
  rewrite (concat_lookup (Z.to_nat (mxX - mnX + 1)) _ _ _
                         ((fun x => (x, y)) <$> seqZ mnX (mxX - mnX + 1))).
  - rewrite list_lookup_fmap, lookup_seqZ_lt by lia.
    cbn [fmap option_fmap option_map]. rewrite Z2Nat.id by lia.
    replace (mnX + (x - mnX)) with x by lia. reflexivity.
  - apply Forall_fmap, Forall_forall. intros y' _. cbn.
    rewrite bind_pair, length_fmap, length_seqZ. reflexivity.
  - rewrite list_lookup_fmap, lookup_seqZ_lt by lia.
    cbn [fmap option_fmap option_map]. rewrite bind_pair, Z2Nat.id by lia.
    replace (mnY + (y - mnY)) with y by lia. reflexivity.
  - lia.
Qed.

Lemma length_sweep mnX mxX mnY mxY :
  length (sweep mnX mxX mnY mxY)
  = (Z.to_nat (mxY - mnY + 1) * Z.to_nat (mxX - mnX + 1))%nat.
Proof.
  unfold sweep. rewrite bind_concat.
  rewrite (length_concat_const _ (Z.to_nat (mxX - mnX + 1))).
  - rewrite length_fmap, length_seqZ. lia.
  - apply Forall_fmap, Forall_forall. intros y' _. cbn.
    rewrite bind_pair, length_fmap, length_seqZ. reflexivity.
Qed.

(** X25.  From the generator to the harness.  For a sweep of the whole
    screen, the file that [generate] writes is loaded, and every lookup that
    [test] then makes finds the span the generator recorded for the position
    and the scanline looked up, in the frame captured for that position: the
    frame drawn after the position next in the sweep.  No lookup reads an
    entry left at zero or filled for another position or scanline. *)
Theorem test_reads_generated (ty : Z) (frames : nat -> Z -> Z)
        (coords0 : Z * Z) :
  0 <= ty <= 3 ->
  let cfg := mkConfig ty 0 256 0 192 in
  exists d,
    readFile coords0 (Some (generate cfg frames)) = Returned OK (Some d) /\
    Forall (lookup_generated cfg frames d) (test d).
Proof.
  intros Hty cfg.
  destruct (generate_layout cfg frames) as (recs & rest & Hgen & Hrecs).
  destruct (readFile_accepts_records coords0 ty 0 256 0 192 recs rest
              Hty ltac:(lia) ltac:(lia) ltac:(lia) ltac:(lia) Hrecs)
    as [tbl Hread].
  change (header_bytes ty 0 256 0 192)
    with (header_bytes (TEST_TYPE cfg) (Generator.minX cfg) (Generator.maxX cfg)
                       (Generator.minY cfg) (Generator.maxY cfg)) in Hread.
  rewrite <- Hgen in Hread.
  set (d := mkData ty 0 256 0 192 tbl) in *.
  exists d. split; [exact Hread |].
  assert (Hn : length (sweep 0 256 0 192) = S (Z.to_nat (192 * 257 + 256)))
    by (rewrite length_sweep; lia).
  assert (Hentry : forall x1 y1 y,
             0 <= x1 <= 256 -> 0 <= y1 <= 192 ->
             (if bottom ty then y1 <= y <= 191 else 0 <= y <= Z.min y1 191) ->
             lookup_generated cfg frames d (Lookup y1 x1 y)).
  { intros x1 y1 y Hx1 Hy1 Hy. cbn [lookup_generated].
    pose proof (sweep_lookup 0 256 0 192 x1 y1 Hx1 Hy1) as Hk.
    replace ((y1 - 0) * (256 - 0 + 1) + (x1 - 0)) with (y1 * 257 + x1) in Hk
      by lia.
    destruct (Z.eq_dec (y1 * 257 + x1) (192 * 257 + 256)) as [Elast | Hmid].
    - assert (y1 = 192 /\ x1 = 256) as [-> ->] by lia.
      destruct (bottom ty) eqn:Eb; [lia |].
      pose proof (generated_entry_last coords0 cfg frames d 256 192 y
                    Hty ltac:(cbn; lia) ltac:(cbn; lia) ltac:(cbn; lia)
                    ltac:(cbn; lia) Hread) as Hl.
      cbv zeta in Hl. cbn [TEST_TYPE Generator.minX Generator.maxX
                           Generator.minY Generator.maxY cfg] in Hl.
      unfold record_startY, record_endY in Hl. rewrite Eb in Hl.
      cbn [Z.leb Z.compare Pos.compare Pos.compare_cont Z.add] in Hl.
      rewrite Hn in Hl. apply Hl; [| lia | lia | lia].
      rewrite last_lookup, Hn. cbn [pred]. exact Hk.
    - apply (generated_entry coords0 cfg frames d
               (Z.to_nat (y1 * 257 + x1)) x1 y1 y
               Hty ltac:(cbn; lia) ltac:(cbn; lia) ltac:(cbn; lia)
               ltac:(cbn; lia) Hread Hk).
      + cbn [cfg Generator.minX Generator.maxX Generator.minY Generator.maxY].
        rewrite Hn. lia.
      + cbn [cfg TEST_TYPE]. unfold record_startY, record_endY.
        destruct (bottom ty);
          repeat match goal with
                 | |- context [192 <=? ?v] => destruct (Z.leb_spec 192 v)
                 end; lia. }
  apply test_lookups; [cbn [d type]; exact Hty | |].
  - intros [a b c | | | |] He; try exact I. exfalso. eapply He. reflexivity.
  - intros x1 y1 y Hx1 Hy1 Hy. apply Hentry; assumption.
Qed.

Lemma test_reads_generated_witness :
  let cfg := mkConfig 3 0 256 0 192 in
  exists d,
    readFile (0, 0) (Some (generate cfg (fun _ i => i)))
    = Returned OK (Some d) /\
    Forall (lookup_generated cfg (fun _ i => i) d) (test d).
Proof.
  exact (test_reads_generated 3 (fun _ i => i) (0, 0) ltac:(lia)).
Defined.
